(** * Multi-host scheduling server: availability union and booking assignment

    A shallow embedding of [server.js]: the helpers on ISO instants, the
    event-type resolver with its process-wide cache, the exact-slot
    verifier, the union of open slots across hosts, and the two routes
    [GET /api/slots] and [POST /api/book]. *)

From Stdlib Require Import ZArith Lia List Ascii String Sorted Permutation.
From stdpp Require Import base option list strings gmap sorting.

Local Open Scope Z_scope.

(** ** The runtime's [Date]

    A [Date] holds a time value: a number of milliseconds since the epoch,
    or NaN ([None]).  [toISOString] and the part of [Date.parse] that reads
    the ISO date-time format are written out; what [Date.parse] makes of any
    other string is left to the engine ([parseOther], a parameter of the
    development). *)
Module JSDate.

Definition msPerDay : Z := 86400000.
Definition maxTime : Z := 8640000000000000.

(** TimeClip: a time value further than 8.64e15 ms from the epoch is NaN. *)
Definition timeClip (t : Z) : option Z :=
  if Z.abs t <=? maxTime then Some t else None.

(** Days since the epoch to a proleptic Gregorian (year, month, day). *)
Definition civilFromDays (z : Z) : Z * Z * Z :=
  let z1 := z + 719468 in
  let era := z1 / 146097 in
  let doe := z1 - era * 146097 in
  let yoe := (doe - doe / 1460 + doe / 36524 - doe / 146096) / 365 in
  let doy := doe - (365 * yoe + yoe / 4 - yoe / 100) in
  let mp := (5 * doy + 2) / 153 in
  let d := doy - (153 * mp + 2) / 5 + 1 in
  let m := if mp <? 10 then mp + 3 else mp - 9 in
  (yoe + era * 400 + (if m <=? 2 then 1 else 0), m, d).

Definition daysFromCivil (y m d : Z) : Z :=
  let y1 := if m <=? 2 then y - 1 else y in
  let era := y1 / 400 in
  let yoe := y1 - era * 400 in
  let doy := (153 * (if 2 <? m then m - 3 else m + 9) + 2) / 5 + d - 1 in
  let doe := yoe * 365 + yoe / 4 - yoe / 100 + doy in
  era * 146097 + doe - 719468.

(** The order of dates. *)
Definition lex3 (a b : Z * Z * Z) : Prop :=
  let '(y1, m1, d1) := a in
  let '(y2, m2, d2) := b in
  y1 < y2 \/ (y1 = y2 /\ (m1 < m2 \/ (m1 = m2 /\ d1 < d2))).

(** Decimal digits. *)
Definition digitChar (n : Z) : ascii := ascii_of_nat (48 + Z.to_nat n).

Definition digitVal (c : ascii) : option Z :=
  let n := Z.of_nat (nat_of_ascii c) in
  if (48 <=? n) && (n <=? 57) then Some (n - 48) else None.

(** [pad k n]: the last [k] decimal digits of [n], most significant first. *)
Fixpoint pad (k : nat) (n : Z) : string :=
  match k with
  | O => EmptyString
  | S k' => String (digitChar ((n / 10 ^ Z.of_nat k') mod 10)) (pad k' n)
  end.

(** [readDigits k acc s]: exactly [k] digits at the head of [s]. *)
Fixpoint readDigits (k : nat) (acc : Z) (s : string) : option (Z * string) :=
  match k with
  | O => Some (acc, s)
  | S k' =>
      match s with
      | String c r =>
          match digitVal c with
          | Some d => readDigits k' (10 * acc + d) r
          | None => None
          end
      | EmptyString => None
      end
  end.

Definition expect (c : ascii) (s : string) : option string :=
  match s with
  | String c' r => if Ascii.eqb c c' then Some r else None
  | EmptyString => None
  end.

Definition yearString (y : Z) : string :=
  if (0 <=? y) && (y <=? 9999) then pad 4 y
  else String (if 0 <=? y then "+"%char else "-"%char) (pad 6 (Z.abs y)).

(** [Date.prototype.toISOString] on a time value (not NaN). *)
Definition isoOfTime (t : Z) : string :=
  let day := t / msPerDay in
  let ms := t mod msPerDay in
  let '(y, m, d) := civilFromDays day in
  (yearString y ++ "-" ++ pad 2 m ++ "-" ++ pad 2 d ++ "T"
     ++ pad 2 (ms / 3600000) ++ ":" ++ pad 2 ((ms / 60000) mod 60) ++ ":"
     ++ pad 2 ((ms / 1000) mod 60) ++ "." ++ pad 3 (ms mod 1000) ++ "Z")%string.

(** The time zone designator that ends an ISO date-time: [Z], or a
    signed [HH:mm] offset.  The result is the offset in milliseconds. *)
Definition readZone (s : string) : option Z :=
  match s with
  | String c r =>
      if Ascii.eqb c "Z" then (if String.eqb r "" then Some 0 else None)
      else
        sign ← (if Ascii.eqb c "+" then Some 1
                else if Ascii.eqb c "-" then Some (-1) else None);
        '(hh, r1) ← readDigits 2 0 r;
        r2 ← expect ":" r1;
        '(mm, r3) ← readDigits 2 0 r2;
        if String.eqb r3 "" && (hh <=? 23) && (mm <=? 59)
        then Some (sign * (hh * 3600000 + mm * 60000)) else None
  | EmptyString => None
  end.

Definition readYear (s : string) : option (Z * string) :=
  match s with
  | String c r =>
      if Ascii.eqb c "+" then readDigits 6 0 r
      else if Ascii.eqb c "-" then
        '(y, r') ← readDigits 6 0 r;
        if y =? 0 then None else Some (- y, r')
      else readDigits 4 0 s
  | EmptyString => None
  end.

(** The fraction of a second: absent, or a dot and three digits. *)
Definition readMillis (s : string) : option (Z * string) :=
  match expect "." s with
  | Some r => readDigits 3 0 r
  | None => Some (0, s)
  end.

(** A calendar date is one that the calendar gives back. *)
Definition validDate (y m d : Z) : bool :=
  let '(y', m', d') := civilFromDays (daysFromCivil y m d) in
  (y' =? y) && (m' =? m) && (d' =? d).

(** The ISO date-time format with every field present:
    [YYYY-MM-DDTHH:mm:ss] (or a signed six-digit year), an optional
    [.sss], and a time zone designator.  [None]: the string is not of this
    form.  The result is not yet clipped to the range of time values. *)
Definition parseISO (s : string) : option Z :=
  '(y, s1) ← readYear s;
  s2 ← expect "-" s1;
  '(m, s3) ← readDigits 2 0 s2;
  s4 ← expect "-" s3;
  '(d, s5) ← readDigits 2 0 s4;
  s6 ← expect "T" s5;
  '(hh, s7) ← readDigits 2 0 s6;
  s8 ← expect ":" s7;
  '(mi, s9) ← readDigits 2 0 s8;
  s10 ← expect ":" s9;
  '(ss, s11) ← readDigits 2 0 s10;
  '(ms, s12) ← readMillis s11;
  off ← readZone s12;
  if validDate y m d && (hh <=? 23) && (mi <=? 59) && (ss <=? 59)
  then Some (daysFromCivil y m d * msPerDay
             + hh * 3600000 + mi * 60000 + ss * 1000 + ms - off)
  else None.

(** A predicate on strings: no character is an underscore. *)
Fixpoint noUnderscore (s : string) : bool :=
  match s with
  | EmptyString => true
  | String c r => negb (Ascii.eqb c "_") && noUnderscore r
  end.

End JSDate.

(** ** Data

    The host roster ([hosts.json]), the requests the server sends to the
    provider and the responses it reads.  A request is kept as the endpoint
    with its parameters (the query string and the JSON body are one-to-one
    with them); a response body is decoded at the shape of the endpoint the
    code reads it for, a field the code guards being an [option]. *)

Record Host := {
  host_id : string;
  display_name : string;
  pat_env : string;
  event_type_uri : string;
  priority_weight : Z
}.

Inductive Endpoint :=
| UsersMe
| EventTypes (user : string)
| AvailableTimes (event_type start_time end_time timezone : string)
| EventInvitees (event_type start_time end_time name email : string)
| SchedulingLinks (owner : string) (max_event_count : Z).

(** [bearer]: the token of the [Authorization] header; [None] is the
    [undefined] a missing environment variable leaves there. *)
Record Request := { bearer : option string; endpoint : Endpoint }.

Record EventType := { et_scheduling_url : option string; et_uri : string }.

Record AvailableTime := {
  raw_start_time : string;
  raw_end_time : option string
}.

Inductive Payload :=
| PUser (resource_uri : option string)
| PEventTypes (collection : list EventType)
| PAvailableTimes (collection : list AvailableTime)
| PSchedulingLink (booking_url : option string)
| PDocument (raw : string).

Inductive Body :=
| BodyJson (p : Payload)
| BodyText (raw : string).

Record Response := { status : Z; body : Body }.

(** [fetch] either gets a response or rejects (no connection). *)
Inductive FetchResult :=
| Responded (r : Response)
| FetchFailed (reason : string).

(** What the code throws, by the place that throws it. *)
Inductive Error :=
| MissingPat (host pat : string)
| NoResourceUri (host : string)
| NoEventType (scheduling_url host : string) (seen : list (option string))
| CalendlyError (path : Endpoint) (st : Z) (b : Body)
| NetworkError (reason : string)
| InvalidJson (raw : string)
| InvalidTimeValue
| TypeError (what : string).

Inductive Outcome (A : Type) :=
| Returned (a : A)
| Thrown (e : Error).
Arguments Returned {A} a.
Arguments Thrown {A} e.

(** The mutable state of the process: the event-type cache
    ([EVENT_TYPE_URI_CACHE]) and, for the record, the requests sent so far. *)
Record World := { cache : gmap string string; sent : list Request }.

(** An [async] function: it runs in a world, returns or throws, and leaves
    a world. *)
Definition Async (A : Type) : Type := World -> Outcome A * World.

Definition ret {A} (a : A) : Async A := fun w => (Returned a, w).
Definition throw {A} (e : Error) : Async A := fun w => (Thrown e, w).
Definition bind {A B} (m : Async A) (k : A -> Async B) : Async B :=
  fun w => match m w with
           | (Returned a, w') => k a w'
           | (Thrown e, w') => (Thrown e, w')
           end.
Definition tryCatch {A} (m : Async A) (handler : Error -> Async A) : Async A :=
  fun w => match m w with
           | (Returned a, w') => (Returned a, w')
           | (Thrown e, w') => handler e w'
           end.
Definition lift {A} (o : Outcome A) : Async A := fun w => (o, w).

Notation "x <~ m ;; k" := (bind m (fun x => k))
  (at level 100, m at next level, right associativity).

Definition getCache : Async (gmap string string) :=
  fun w => (Returned (cache w), w).
Definition setCache (k v : string) : Async unit :=
  fun w => (Returned tt, {| cache := <[k := v]> (cache w); sent := sent w |}).

(** [l.map(f)] where the callback may throw. *)
Fixpoint mapThrow {A B} (f : A -> Outcome B) (l : list A) : Outcome (list B) :=
  match l with
  | [] => Returned []
  | x :: r =>
      match f x with
      | Thrown e => Thrown e
      | Returned y =>
          match mapThrow f r with
          | Thrown e => Thrown e
          | Returned ys => Returned (y :: ys)
          end
      end
  end.

(** A settled promise. *)
Inductive Settled (A : Type) :=
| Fulfilled (value : A)
| Rejected (reason : Error).
Arguments Fulfilled {A} value.
Arguments Rejected {A} reason.

Definition settle {A} (o : Outcome A) : Settled A :=
  match o with
  | Returned a => Fulfilled a
  | Thrown e => Rejected e
  end.

(** The head of the [n]-th list that is not empty, and the lists without
    it. *)
Fixpoint takeAt {A} (n : nat) (ls : list (list A)) : option (A * list (list A)) :=
  match ls with
  | [] => None
  | [] :: r => prod_map id (cons []) <$> takeAt n r
  | (a :: l) :: r =>
      match n with
      | O => Some (a, l :: r)
      | S n' => prod_map id (cons (a :: l)) <$> takeAt n' r
      end
  end.

(** The logs of concurrent callbacks, as the network saw them: one request
    at a time, from the callback that [pick] names among those that still
    have one to send (from the first of them when [pick] names none).  The
    requests of one callback keep their order. *)
Fixpoint interleave {A} (pick : list (list A) -> nat) (fuel : nat)
    (ls : list (list A)) : list A :=
  match fuel with
  | O => []
  | S fuel' =>
      match takeAt (pick ls) ls with
      | Some (a, ls') => a :: interleave pick fuel' ls'
      | None =>
          match takeAt 0 ls with
          | Some (a, ls') => a :: interleave pick fuel' ls'
          | None => []
          end
      end
  end.

(** [Promise.allSettled(l.map(f))].  Every callback is started before any
    of them resumes, and each callback here reads the cache once, before its
    first [await]: each runs from the cache as it is at the call.  The writes are
    merged.  The callbacks run concurrently: in which order their requests
    leave depends on when the answers arrive, so that order is a parameter,
    [arrival]. *)
Definition allSettled {A B} (arrival : list (list Request) -> nat)
    (f : A -> Async B) (l : list A) : Async (list (Settled B)) :=
  fun w =>
    let runs := map (fun x => f x {| cache := cache w; sent := [] |}) l in
    let logs := map (fun r => sent (snd r)) runs in
    (Returned (map (fun r => settle (fst r)) runs),
     {| cache := fold_left (fun c r => cache (snd r) ∪ c) runs (cache w);
        sent := sent w ++ interleave arrival (length (concat logs)) logs |}).

(** [Array.prototype.sort(cmp)]: a stable sort; [cmp a b < 0] puts [a]
    first. *)
Fixpoint sortInsert {A} (cmp : A -> A -> Z) (x : A) (l : list A) : list A :=
  match l with
  | [] => [x]
  | y :: r => if cmp y x <? 0 then y :: sortInsert cmp x r else x :: y :: r
  end.

Definition jsSort {A} (cmp : A -> A -> Z) (l : list A) : list A :=
  fold_right (sortInsert cmp) [] l.

(** The order of two strings by code unit, as [<] and [>] compare them. *)
Definition codeUnitCompare (a b : string) : Z :=
  match String.compare a b with
  | Lt => -1
  | Eq => 0
  | Gt => 1
  end.

(** A consistent comparator, as [sort] asks for one: any two elements are
    in order one way or the other, and the order is transitive. *)
Definition consistent {A} (cmp : A -> A -> Z) : Prop :=
  (forall a b, cmp a b <= 0 \/ cmp b a < 0)
  /\ (forall a b c, cmp a b <= 0 -> cmp b c <= 0 -> cmp a c <= 0).

(** Two strings of one shape: of the same length, with a digit facing a
    digit and, elsewhere, the same mark of a timestamp on both sides. *)
Definition isDigit (c : ascii) : bool :=
  (48 <=? nat_of_ascii c)%nat && (nat_of_ascii c <=? 57)%nat.

Definition isMark (c : ascii) : bool :=
  existsb (Ascii.eqb c) ["-"; ":"; "."; "T"; "Z"]%char.

Fixpoint sameShape (a b : string) : bool :=
  match a, b with
  | EmptyString, EmptyString => true
  | String x a', String y b' =>
      ((isDigit x && isDigit y) || (Ascii.eqb x y && isMark x)) && sameShape a' b'
  | _, _ => false
  end.

(** A collation that orders the digits by value: on two strings of one
    shape it agrees with the order of code units. *)
Definition ordersDigits (cmp : string -> string -> Z) : Prop :=
  forall a b, sameShape a b = true -> (cmp a b <= 0 <-> codeUnitCompare a b <= 0).

(** A value of [process.env] or of a JSON field in a condition: [undefined]
    and the empty string are falsy. *)
Definition truthy (v : option string) : option string :=
  match v with
  | Some s => if String.eqb s "" then None else Some s
  | None => None
  end.

Definition asciiLower (c : ascii) : ascii :=
  let n := nat_of_ascii c in
  if (Nat.leb 65 n && Nat.leb n 90)%bool then ascii_of_nat (n + 32) else c.

Fixpoint toLowerCase (s : string) : string :=
  match s with
  | EmptyString => EmptyString
  | String c r => String (asciiLower c) (toLowerCase r)
  end.

(** A value of [req.query], as the query parser of Express hands it over:
    a string, an array (a parameter given more than once) or an object (a
    parameter written with brackets). *)
#[local] Unset Elimination Schemes.
Inductive QueryValue :=
| QString (s : string)
| QArray (items : list QueryValue)
| QObject (fields : list (string * QueryValue)).
#[local] Set Elimination Schemes.

(** The string [new Date(v)] parses: the value itself, the items of an
    array joined by commas, [[object Object]] for an object. *)
Fixpoint toPrimitive (v : QueryValue) : string :=
  match v with
  | QString s => s
  | QArray items => String.concat "," (map toPrimitive items)
  | QObject _ => "[object Object]"
  end.

(** What the server answers. *)
Record HostRef := { id : string; name : string }.

(** One per-host slot of [getUnionSlots], before the union. *)
Record Slot := {
  slot_start_time : string;
  slot_end_time : string;
  slot_host_id : string;
  slot_host_name : string
}.

(** One entry of the union. *)
Record UnionSlot := {
  start_time : string;
  end_time : string;
  hosts : list HostRef
}.

Inductive ApiError :=
| InvalidStartOrEnd
| EndMustBeAfterStart
| FieldsRequired
| SlotNoLongerAvailable
| FallbackLinkFailed (st : Z) (text : Body)
| SchedulingApiFailed (st : Z) (text : Body)
| Unexpected (e : Error).

Inductive ApiBody :=
| SlotsBody (slots : list UnionSlot) (meta_start meta_end meta_timezone : string)
| BookingBody (booking : Payload) (host_assigned : string)
| RedirectBody (redirect : option string) (host_assigned : string)
| ErrorBody (error : ApiError).

Record ApiResponse := { api_status : Z; api_body : ApiBody }.

(** The body of [POST /api/book]. *)
Record Invitee := { invitee_name : option string; invitee_email : option string }.

Record BookBody := {
  body_start_time : option string;
  body_end_time : option string;
  body_invitee : option Invitee
}.

(** An eligible host with its resolved event type ([{ ...h, et }]). *)
Record Eligible := { elig_host : Host; et : string }.

(** ** A roster and a provider to run the server on *)
Module Demo.

Definition host (who shown : string) (weight : Z) : Host :=
  {| host_id := who;
     display_name := shown;
     pat_env := ("PAT_" ++ who)%string;
     event_type_uri := ("https://calendly.com/" ++ who ++ "/30min")%string;
     priority_weight := weight |}.

Definition alice : Host := host "alice" "Alice" 5.
Definition bob : Host := host "bob" "Bob" 10.
Definition carol : Host := host "carol" "Carol" 10.
(** A host whose token is not in the environment. *)
Definition dave : Host := host "dave" "Dave" 20.

Definition env (k : string) : option string :=
  if String.eqb k "PAT_alice" then Some "alice"
  else if String.eqb k "PAT_bob" then Some "bob"
  else if String.eqb k "PAT_carol" then Some "carol"
  else None.

(** An engine whose [Date.parse] reads the ISO date-time format only. *)
Definition isoOnly (s : string) : option Z := None.

Definition eventTypeOf (who : string) : string :=
  ("https://api.calendly.com/event_types/" ++ who)%string.

Definition okJson (p : Payload) : Response := {| status := 200; body := BodyJson p |}.
Definition failed (st : Z) : Response := {| status := st; body := BodyText "error" |}.

Definition times (l : list (string * option string)) : Response :=
  okJson (PAvailableTimes
            (map (fun p => {| raw_start_time := fst p; raw_end_time := snd p |}) l)).

(** The provider: the token names the account; [availability], [booking]
    and [link] say what each account answers on the three endpoints that
    vary. *)
Definition provider (availability booking link : string -> Response)
    (req : Request) : FetchResult :=
  match bearer req with
  | None => Responded (failed 401)
  | Some who =>
      Responded
        match endpoint req with
        | UsersMe =>
            okJson (PUser (Some ("https://api.calendly.com/users/" ++ who)%string))
        | EventTypes _ =>
            okJson (PEventTypes
                      [ {| et_scheduling_url :=
                             Some ("https://calendly.com/" ++ who ++ "/30min")%string;
                           et_uri := eventTypeOf who |} ])
        | AvailableTimes _ _ _ _ => availability who
        | EventInvitees _ _ _ _ _ => booking who
        | SchedulingLinks _ _ => link who
        end
  end.

Definition start0 : World := {| cache := ∅; sent := [] |}.

Definition nobody (_ : string) : Response := failed 500.
Definition confirmed (_ : string) : Response := okJson (PDocument "booking").
Definition linked (who : string) : Response :=
  okJson (PSchedulingLink (Some ("https://calendly.com/d/" ++ who)%string)).

(** The slot asked for in the examples, and one that overlaps it. *)
Definition ten : string := "2025-11-07T10:00:00.000Z".
Definition tenThirty : string := "2025-11-07T10:30:00.000Z".
Definition exact : string -> Response :=
  fun _ => times [(ten, Some tenThirty)].
Definition overlapping : string -> Response :=
  fun _ => times [(ten, Some "2025-11-07T11:00:00.000Z");
                  ("2025-11-07T09:45:00.000Z", Some tenThirty)].

Definition request : BookBody :=
  {| body_start_time := Some ten;
     body_end_time := Some tenThirty;
     body_invitee := Some {| invitee_name := Some "Ira";
                             invitee_email := Some "ira@example.org" |} |}.

(** A host whose public scheduling page is not among the event types of
    the account its token opens. *)
Definition erin : Host :=
  {| host_id := "erin";
     display_name := "Erin";
     pat_env := "PAT_alice";
     event_type_uri := "https://calendly.com/erin/intro";
     priority_weight := 1 |}.

(** What the loop of [book] finds, and the world it leaves, when alice,
    bob and carol all offer the slot. *)
Definition eligibleOf (h : Host) : Eligible :=
  {| elig_host := h; et := eventTypeOf (host_id h) |}.

Definition requestsOf (who : string) : list Request :=
  [ {| bearer := Some who; endpoint := UsersMe |};
    {| bearer := Some who;
       endpoint := EventTypes ("https://api.calendly.com/users/" ++ who)%string |};
    {| bearer := Some who;
       endpoint := AvailableTimes (eventTypeOf who) ten tenThirty "UTC" |} ].

Definition afterScan : World :=
  {| cache := <["carol" := eventTypeOf "carol"]>
                (<["bob" := eventTypeOf "bob"]>
                   (<["alice" := eventTypeOf "alice"]> ∅));
     sent := requestsOf "alice" ++ requestsOf "bob" ++ requestsOf "carol" |}.

(** Answers that repeat a start time, and answers in two notations. *)
Definition repeated : string -> Response :=
  fun _ => times [(ten, None); (ten, None)].
Definition mixedOffsets : string -> Response :=
  fun _ => times [("2025-11-07T09:00:00Z", None);
                  ("2025-11-07T10:00:00+05:30", None)].
Definition twoNotations : string -> Response :=
  fun _ => times [("2025-11-07T10:00:00Z", None); (ten, None)].

(** The world the resolver leaves for alice, and the one the exact-slot
    check leaves. *)
Definition aliceResolved : World :=
  {| cache := <["alice" := eventTypeOf "alice"]> ∅;
     sent := [ {| bearer := Some "alice"; endpoint := UsersMe |};
               {| bearer := Some "alice";
                  endpoint := EventTypes "https://api.calendly.com/users/alice" |} ] |}.
Definition aliceChecked : World :=
  {| cache := <["alice" := eventTypeOf "alice"]> ∅; sent := requestsOf "alice" |}.

(** An answer with an entry whose start is not a date, and a body whose
    start is not one. *)
Definition garbled : string -> Response :=
  fun _ => times [(ten, None); ("soon", None)].
Definition undated : BookBody :=
  {| body_start_time := Some "tomorrow";
     body_end_time := Some tenThirty;
     body_invitee := Some {| invitee_name := Some "Ira";
                             invitee_email := Some "ira@example.org" |} |}.

(** The world [book] leaves when the provider confirms the booking for
    bob. *)
Definition bobBooked : World :=
  {| cache := cache afterScan;
     sent := sent afterScan
               ++ [ {| bearer := Some "bob";
                       endpoint := EventInvitees (eventTypeOf "bob") ten tenThirty
                                     "Ira" "ira@example.org" |} ] |}.

(** A collation in the manner of ICU's root collation on ASCII.  Control
    characters are ignored; blanks come first, then punctuation and
    symbols (with [-] before [+]), then the digits by value, then the
    letters; two strings that differ in the case of letters only are told
    apart last, small letters first.  [marks] lists the blanks,
    punctuation and symbols in their order, by code. *)
Definition marks : list Z :=
  [9; 10; 11; 12; 13; 32; 95; 45; 44; 59; 58; 33; 63; 46; 39; 34; 40; 41; 91; 93;
   123; 125; 64; 42; 47; 92; 38; 35; 37; 96; 94; 43; 60; 61; 62; 124; 126; 36].

Fixpoint indexOf (n : Z) (l : list Z) (i : nat) : option nat :=
  match l with
  | [] => None
  | m :: r => if Z.eqb n m then Some i else indexOf n r (S i)
  end.

Definition isUpper (c : ascii) : bool :=
  (65 <=? nat_of_ascii c)%nat && (nat_of_ascii c <=? 90)%nat.
Definition isLower (c : ascii) : bool :=
  (97 <=? nat_of_ascii c)%nat && (nat_of_ascii c <=? 122)%nat.

(** The weight of a character at the first level, as a character whose
    code is the weight; [None] for a character that is ignored. *)
Definition rank (c : ascii) : option ascii :=
  if isDigit c then Some c
  else if isUpper c || isLower c then Some (asciiLower c)
  else if (128 <=? nat_of_ascii c)%nat then Some c
  else (fun i => ascii_of_nat (S i))
         <$> indexOf (Z.of_nat (nat_of_ascii c)) marks 0%nat.

Fixpoint weights (s : string) : string :=
  match s with
  | EmptyString => EmptyString
  | String c r =>
      match rank c with
      | Some k => String k (weights r)
      | None => weights r
      end
  end.

Fixpoint cases (s : string) : string :=
  match s with
  | EmptyString => EmptyString
  | String c r =>
      match rank c with
      | Some _ => String (if isUpper c then "1"%char else "0"%char) (cases r)
      | None => cases r
      end
  end.

Definition collate (a b : string) : Z :=
  match String.compare (weights a) (weights b) with
  | Lt => -1
  | Gt => 1
  | Eq => codeUnitCompare (cases a) (cases b)
  end.

(** The callbacks take turns: the one with most requests still to send
    goes next, the first of these in the roster; so every host is asked
    who it is before any is asked for its event types, as when the
    answers arrive in the order of the requests. *)
Fixpoint longest (ls : list (list Request)) (i best most : nat) : nat :=
  match ls with
  | [] => best
  | [] :: r => longest r i best most
  | l :: r =>
      if (most <? length l)%nat then longest r (S i) i (length l)
      else longest r (S i) best most
  end.

Definition inTurn (ls : list (list Request)) : nat := longest ls 0%nat 0%nat 0%nat.

End Demo.

Section Server.

(** What [Date.parse] makes of a string that is not in the ISO date-time
    format above (engine-defined). *)
Variable parseOther : string -> option Z.
(** [process.env]. *)
Variable env : string -> option string.
(** The provider: what it answers to a request. *)
Variable upstream : Request -> FetchResult.
(** [hosts.json]. *)
Variable roster : list Host.
(** [a.localeCompare(b)]: the collation of the locale the server runs in
    (ICU's, not the order of code units: it puts [-] before [+], and may
    take two different strings for equal). *)
Variable localeCompare : string -> string -> Z.
(** Which of the concurrent callbacks of [getUnionSlots] sends its next
    request first. *)
Variable arrival : list (list Request) -> nat.

(** *** Dates *)

(** [Date.parse]; [None] is NaN. *)
Definition dateParse (s : string) : option Z :=
  match JSDate.parseISO s with
  | Some t => JSDate.timeClip t
  | None => parseOther s ≫= JSDate.timeClip
  end.

(** [new Date(v)] for a string or [undefined], as its time value. *)
Definition newDate (v : option string) : option Z := v ≫= dateParse.

(** [new Date(n)] for a number ([None]: NaN). *)
Definition newDateOfNumber (n : option Z) : option Z := n ≫= JSDate.timeClip.

(** [d.toISOString()]: a RangeError on an invalid date. *)
Definition toISOString (d : option Z) : Outcome string :=
  match d with
  | Some t => Returned (JSDate.isoOfTime t)
  | None => Thrown InvalidTimeValue
  end.

Definition addMinutesISO (iso : string) (minutes : Z) : Outcome string :=
  toISOString
    (newDateOfNumber (t ← newDate (Some iso); Some (t + minutes * 60 * 1000))).

Definition toISO (isoish : string) : Outcome string :=
  toISOString (newDate (Some isoish)).

(** [===] on two numbers: NaN equals nothing. *)
Definition numEq (a b : option Z) : bool :=
  match a, b with
  | Some x, Some y => x =? y
  | _, _ => false
  end.
Definition numLt (a b : option Z) : bool :=
  match a, b with
  | Some x, Some y => x <? y
  | _, _ => false
  end.
Definition numLe (a b : option Z) : bool :=
  match a, b with
  | Some x, Some y => x <=? y
  | _, _ => false
  end.

Definition isNaN (a : option Z) : bool :=
  match a with
  | Some _ => false
  | None => true
  end.

Definition sameInstant (a b : option string) : bool :=
  numEq (newDate a) (newDate b).

(** *** The provider *)

Definition ok (r : Response) : bool :=
  (200 <=? status r) && (status r <=? 299).

Definition fetch (req : Request) : Async Response :=
  fun w =>
    let w' := {| cache := cache w; sent := sent w ++ [req] |} in
    match upstream req with
    | Responded r => (Returned r, w')
    | FetchFailed reason => (Thrown (NetworkError reason), w')
    end.

Definition json (r : Response) : Async Payload :=
  match body r with
  | BodyJson p => ret p
  | BodyText raw => throw (InvalidJson raw)
  end.

Definition calendly (token : option string) (path : Endpoint) : Async Payload :=
  res <~ fetch {| bearer := token; endpoint := path |} ;;
  if negb (ok res) then throw (CalendlyError path (status res) (body res))
  else json res.

(** [me?.resource?.uri] *)
Definition resourceUri (me : Payload) : option string :=
  match me with
  | PUser u => u
  | _ => None
  end.

(** [list.collection || []] of an event-type listing *)
Definition eventTypes (listing : Payload) : list EventType :=
  match listing with
  | PEventTypes c => c
  | _ => []
  end.

(** [data.collection || []] of an availability answer *)
Definition availableTimes (data : Payload) : list AvailableTime :=
  match data with
  | PAvailableTimes c => c
  | _ => []
  end.

(** [link?.resource?.booking_url] *)
Definition bookingUrl (link : Payload) : option string :=
  match link with
  | PSchedulingLink u => u
  | _ => None
  end.

(** *** Event-type resolution *)

Definition resolveEventTypeApiUriForHost (host : Host) : Async string :=
  c <~ getCache ;;
  match c !! host_id host with
  | Some uri => ret uri
  | None =>
      match truthy (env (pat_env host)) with
      | None => throw (MissingPat (host_id host) (pat_env host))
      | Some token =>
          me <~ calendly (Some token) UsersMe ;;
          match truthy (resourceUri me) with
          | None => throw (NoResourceUri (host_id host))
          | Some userUri =>
              listing <~ calendly (Some token) (EventTypes userUri) ;;
              match find (fun e => bool_decide
                                     (et_scheduling_url e = Some (event_type_uri host)))
                         (eventTypes listing) with
              | None =>
                  throw (NoEventType (event_type_uri host) (host_id host)
                           (map et_scheduling_url (eventTypes listing)))
              | Some m =>
                  _ <~ setCache (host_id host) (et_uri m) ;;
                  ret (et_uri m)
              end
          end
      end
  end.

(** *** The exact-slot check *)

Definition hostHasExactSlot (host : Host) (start_time end_time : string)
  : Async bool :=
  let token := env (pat_env host) in
  et <~ resolveEventTypeApiUriForHost host ;;
  startISO <~ lift (toISO start_time) ;;
  endISO <~ lift (toISO end_time) ;;
  tryCatch
    (j <~ calendly token (AvailableTimes et startISO endISO "UTC") ;;
     ret (existsb
            (fun s => sameInstant (Some (raw_start_time s)) (Some startISO)
                      && sameInstant (raw_end_time s) (Some endISO))
            (availableTimes j)))
    (fun _ => ret false).

(** *** The union of open slots *)

Definition durationMinutes : Z := 30.

(** The slot made of one entry of a host's availability. *)
Definition slotOf (h : Host) (s : AvailableTime) : Outcome Slot :=
  match addMinutesISO (raw_start_time s) durationMinutes with
  | Thrown e => Thrown e
  | Returned e =>
      Returned {| slot_start_time := raw_start_time s;
                  slot_end_time := e;
                  slot_host_id := host_id h;
                  slot_host_name := display_name h |}
  end.

(** The callback of [getUnionSlots] for one host. *)
Definition hostSlots (start end_ : string) (timezone : option string) (h : Host)
  : Async (Host * list Slot) :=
  match truthy (env (pat_env h)) with
  | None => throw (MissingPat (host_id h) (pat_env h))
  | Some token =>
      e <~ resolveEventTypeApiUriForHost h ;;
      data <~ calendly (Some token)
                (AvailableTimes e start end_ (default "UTC" (truthy timezone))) ;;
      slots <~ lift (mapThrow (slotOf h) (availableTimes data)) ;;
      ret (h, slots)
  end.

(** The [Map] of the union, in insertion order. *)
Definition Bucket : Type := list (string * UnionSlot).

Definition bucketGet (key : string) (b : Bucket) : option UnionSlot :=
  snd <$> find (fun kv => String.eqb (fst kv) key) b.

Fixpoint bucketSet (key : string) (v : UnionSlot) (b : Bucket) : Bucket :=
  match b with
  | [] => [(key, v)]
  | (k, u) :: r =>
      if String.eqb k key then (k, v) :: r else (k, u) :: bucketSet key v r
  end.

Definition slotKey (s : Slot) : string :=
  (slot_start_time s ++ "__" ++ slot_end_time s)%string.

Definition hostRefOf (s : Slot) : HostRef :=
  {| id := slot_host_id s; name := slot_host_name s |}.

(** The body of the inner loop: one slot into the bucket. *)
Definition addSlot (b : Bucket) (s : Slot) : Bucket :=
  let key := slotKey s in
  let entry := default {| start_time := slot_start_time s;
                          end_time := slot_end_time s;
                          hosts := [] |} (bucketGet key b) in
  let entry' := {| start_time := start_time entry;
                   end_time := end_time entry;
                   hosts := hosts entry ++ [hostRefOf s] |} in
  bucketSet key entry' b.

(** The body of the outer loop: one settled result into the bucket. *)
Definition addResult (b : Bucket) (r : Settled (Host * list Slot)) : Bucket :=
  match r with
  | Rejected _ => b
  | Fulfilled v => fold_left addSlot (snd v) b
  end.

Definition unionOf (results : list (Settled (Host * list Slot))) : list UnionSlot :=
  let bucket := fold_left addResult results [] in
  jsSort (fun a b => localeCompare (start_time a) (start_time b))
         (map snd bucket).

Definition getUnionSlots (start end_ : string) (timezone : option string)
  : Async (list UnionSlot) :=
  results <~ allSettled arrival (hostSlots start end_ timezone) roster ;;
  ret (unionOf results).

(** The slots a settled promise brings to the union, and those of all the
    promises of a call to [getUnionSlots] made with the cache [c]. *)
Definition slotsOf (r : Settled (Host * list Slot)) : list Slot :=
  match r with
  | Fulfilled v => snd v
  | Rejected _ => []
  end.

Definition settledSlots (start end_ : string) (timezone : option string)
    (c : gmap string string) (h : Host) : Settled (Host * list Slot) :=
  settle (fst (hostSlots start end_ timezone h {| cache := c; sent := [] |})).

Definition contributions (start end_ : string) (timezone : option string)
    (c : gmap string string) : list Slot :=
  concat (map (fun h => slotsOf (settledSlots start end_ timezone c h)) roster).

(** A slot whose end is its start plus the fixed duration, as every slot
    of [hostSlots] is. *)
Definition wfSlot (s : Slot) : Prop :=
  addMinutesISO (slot_start_time s) durationMinutes = Returned (slot_end_time s).

(** The three ways the promise of a host is rejected. *)
Definition hostFails (start end_ : string) (tz : option string)
    (c : gmap string string) (h : Host) : Prop :=
  truthy (env (pat_env h)) = None
  \/ (exists err w1,
        resolveEventTypeApiUriForHost h {| cache := c; sent := [] |} = (Thrown err, w1))
  \/ (exists token e w1,
        truthy (env (pat_env h)) = Some token
        /\ resolveEventTypeApiUriForHost h {| cache := c; sent := [] |}
           = (Returned e, w1)
        /\ forall r,
             upstream {| bearer := Some token;
                         endpoint := AvailableTimes e start end_
                                       (default "UTC" (truthy tz)) |}
             = Responded r ->
             ok r = false).

(** The entry the union holds for a key, read off the slots merged. *)
Definition entryFor (k : string) (slots : list Slot) : option UnionSlot :=
  match filter (fun s => slotKey s = k) slots with
  | [] => None
  | s0 :: r => Some {| start_time := slot_start_time s0;
                       end_time := slot_end_time s0;
                       hosts := map hostRefOf (s0 :: r) |}
  end.

(** The order of two entries by the instant of their start. *)
Definition byInstant (a b : UnionSlot) : Prop :=
  match dateParse (start_time a), dateParse (start_time b) with
  | Some x, Some y => x <= y
  | _, _ => False
  end.

(** A string as [toISOString] renders an instant of the years 0000 to
    9999: 24 characters, in UTC. *)
Definition canonicalISO (s : string) : Prop :=
  exists t, -62167219200000 <= t <= 253402300799999 /\ s = JSDate.isoOfTime t.

(** *** GET /api/slots *)

Definition sevenDays : Z := 7 * 24 * 60 * 60 * 1000.

(** "Parse & clamp times": the two clamped dates, or the 400 answer. *)
Definition clampWindow (now : Z) (start end_ : option string)
  : ApiError + (option Z * option Z) :=
  let minStart := newDateOfNumber (Some (now + 60000)) in
  let startDate := newDate start in
  let endDate := newDate end_ in
  if isNaN startDate || isNaN endDate then inl InvalidStartOrEnd
  else
    let clampedStart := if numLt startDate minStart then minStart else startDate in
    let maxEnd := newDateOfNumber (t ← clampedStart; Some (t + sevenDays)) in
    let clampedEnd := if numLt maxEnd endDate then maxEnd else endDate in
    if numLe clampedEnd clampedStart then inl EndMustBeAfterStart
    else inr (clampedStart, clampedEnd).

(** The clamping, in the words of the specification: [max] and [min] on
    the two parsed bounds. *)
Definition clampSpec (now : Z) (start end_ : option string)
  : ApiError + (option Z * option Z) :=
  match newDate start, newDate end_ with
  | Some rawStart, Some rawEnd =>
      let clampedStart := Z.max rawStart (now + 60000) in
      let clampedEnd := Z.min rawEnd (clampedStart + sevenDays) in
      if clampedEnd <=? clampedStart then inl EndMustBeAfterStart
      else inr (Some clampedStart, Some clampedEnd)
  | _, _ => inl InvalidStartOrEnd
  end.

Definition normalizeTimezone (timezone : option string) : string :=
  match truthy timezone with
  | None => "Asia/Kolkata"
  | Some tz =>
      if String.eqb (toLowerCase tz) "asia/calcutta" then "Asia/Kolkata" else tz
  end.

Definition internalError (e : Error) : Async ApiResponse :=
  ret {| api_status := 500; api_body := ErrorBody (Unexpected e) |}.

(** The handler on a query whose parameters are strings or absent; for
    the other queries see [slotsHandler]. *)
Definition slotsRoute (now : Z) (start end_ timezone : option string)
  : Async ApiResponse :=
  tryCatch
    (let timezone := normalizeTimezone timezone in
     match clampWindow now start end_ with
     | inl err => ret {| api_status := 400; api_body := ErrorBody err |}
     | inr (clampedStart, clampedEnd) =>
         startISO <~ lift (toISOString clampedStart) ;;
         endISO <~ lift (toISOString clampedEnd) ;;
         slots <~ getUnionSlots startISO endISO (Some timezone) ;;
         ret {| api_status := 200;
                api_body := SlotsBody slots startISO endISO timezone |}
     end)
    internalError.

(** "Normalize timezone", on whatever the query holds: only a string has
    [toLowerCase]. *)
Definition normalizeTimezoneQuery (timezone : option QueryValue) : Outcome string :=
  match timezone with
  | None => Returned "Asia/Kolkata"
  | Some (QString s) => Returned (normalizeTimezone (Some s))
  | Some (QArray _) | Some (QObject _) =>
      Thrown (TypeError "timezone.toLowerCase is not a function")
  end.

(** The handler of GET /api/slots on the query as Express parses it.
    [slotsRoute] is this handler on a time zone that is a string or
    absent. *)
Definition slotsHandler (now : Z) (start end_ timezone : option QueryValue)
  : Async ApiResponse :=
  tryCatch
    (timezone <~ lift (normalizeTimezoneQuery timezone) ;;
     match clampWindow now (toPrimitive <$> start) (toPrimitive <$> end_) with
     | inl err => ret {| api_status := 400; api_body := ErrorBody err |}
     | inr (clampedStart, clampedEnd) =>
         startISO <~ lift (toISOString clampedStart) ;;
         endISO <~ lift (toISOString clampedEnd) ;;
         slots <~ getUnionSlots startISO endISO (Some timezone) ;;
         ret {| api_status := 200;
                api_body := SlotsBody slots startISO endISO timezone |}
     end)
    internalError.

(** *** POST /api/book *)

(** "Determine eligible hosts": the loop over the roster. *)
Fixpoint eligibleLoop (startISO endISO : string) (hs : list Host)
    (eligible : list Eligible) : Async (list Eligible) :=
  match hs with
  | [] => ret eligible
  | h :: r =>
      has <~ hostHasExactSlot h startISO endISO ;;
      if has : bool then
        e <~ resolveEventTypeApiUriForHost h ;;
        eligibleLoop startISO endISO r (eligible ++ [{| elig_host := h; et := e |}])
      else eligibleLoop startISO endISO r eligible
  end.

Definition byPriority (a b : Eligible) : Z :=
  priority_weight (elig_host b) - priority_weight (elig_host a).

Definition fallbackStatuses : list Z := [403; 404; 422].

(** From "Try Scheduling API" on: the reservation for the chosen host. *)
Definition reserve (chosen : Eligible) (startISO endISO name email : string)
  : Async ApiResponse :=
  let token := env (pat_env (elig_host chosen)) in
  r <~ fetch {| bearer := token;
                endpoint := EventInvitees (et chosen) startISO endISO name email |} ;;
  if ok r then
    booking <~ json r ;;
    ret {| api_status := 200;
           api_body := BookingBody booking (display_name (elig_host chosen)) |}
  else if existsb (Z.eqb (status r)) fallbackStatuses then
    linkRes <~ fetch {| bearer := token;
                        endpoint := SchedulingLinks (et chosen) 1 |} ;;
    if negb (ok linkRes) then
      ret {| api_status := 502;
             api_body := ErrorBody (FallbackLinkFailed (status linkRes) (body linkRes)) |}
    else
      link <~ json linkRes ;;
      ret {| api_status := 200;
             api_body := RedirectBody (bookingUrl link)
                           (display_name (elig_host chosen)) |}
  else
    ret {| api_status := 502;
           api_body := ErrorBody (SchedulingApiFailed (status r) (body r)) |}.

(** The four fields that must be present (and not empty). *)
Definition requiredFields (b : BookBody)
  : option (string * string * string * string) :=
  match truthy (body_start_time b), truthy (body_end_time b),
        truthy (body_invitee b ≫= invitee_email),
        truthy (body_invitee b ≫= invitee_name) with
  | Some start_time, Some end_time, Some email, Some name =>
      Some (start_time, end_time, email, name)
  | _, _, _, _ => None
  end.

Definition book (b : BookBody) : Async ApiResponse :=
  tryCatch
    (match requiredFields b with
     | Some (start_time, end_time, email, name) =>
         startISO <~ lift (toISO start_time) ;;
         endISO <~ lift (toISO end_time) ;;
         eligible <~ eligibleLoop startISO endISO roster [] ;;
         match eligible with
         | [] => ret {| api_status := 409;
                        api_body := ErrorBody SlotNoLongerAvailable |}
         | _ :: _ =>
             match jsSort byPriority eligible with
             | chosen :: _ => reserve chosen startISO endISO name email
             | [] => throw (TypeError "chosen is undefined")
             end
         end
     | None =>
         ret {| api_status := 400; api_body := ErrorBody FieldsRequired |}
     end)
    internalError.

(** *** Reading a run of [book] *)

(** The loop over the roster, as a relation: from a world, the hosts
    found eligible, in order, and the world after. *)
Inductive Scanned (startISO endISO : string)
  : list Host -> World -> list Eligible -> World -> Prop :=
| Scanned_nil w : Scanned startISO endISO [] w [] w
| Scanned_yes h r w w1 e w2 els w3 :
    hostHasExactSlot h startISO endISO w = (Returned true, w1) ->
    resolveEventTypeApiUriForHost h w1 = (Returned e, w2) ->
    Scanned startISO endISO r w2 els w3 ->
    Scanned startISO endISO (h :: r) w ({| elig_host := h; et := e |} :: els) w3
| Scanned_no h r w w1 els w3 :
    hostHasExactSlot h startISO endISO w = (Returned false, w1) ->
    Scanned startISO endISO r w1 els w3 ->
    Scanned startISO endISO (h :: r) w els w3.

(** A request that reserves: a booking, or a scheduling link. *)
Definition isReservation (q : Request) : bool :=
  match endpoint q with
  | EventInvitees _ _ _ _ _ | SchedulingLinks _ _ => true
  | _ => false
  end.

(** A computation that only adds requests that do not reserve. *)
Definition quiet {A} (m : Async A) : Prop :=
  forall w, exists l,
    sent (snd (m w)) = sent w ++ l /\ Forall (fun q => isReservation q = false) l.

Definition hostAssigned (b : ApiBody) : option string :=
  match b with
  | BookingBody _ h | RedirectBody _ h => Some h
  | _ => None
  end.

(** *** The provider's answers to [getUnionSlots] *)

(** The record of a host in an entry of the union. *)
Definition hostRef (h : Host) : HostRef :=
  {| id := host_id h; name := display_name h |}.

(** The provider answers the availability query of the callback of [h]
    with [entries]: the host has a token, its event type resolves from the
    cache [c], and the answer to the query is a 2xx with these entries as
    its collection. *)
Definition answers (start end_ : string) (tz : option string)
    (c : gmap string string) (h : Host) (entries : list AvailableTime) : Prop :=
  exists token e w1 r,
    truthy (env (pat_env h)) = Some token
    /\ resolveEventTypeApiUriForHost h {| cache := c; sent := [] |} = (Returned e, w1)
    /\ upstream {| bearer := Some token;
                   endpoint := AvailableTimes e start end_
                                 (default "UTC" (truthy tz)) |}
       = Responded r
    /\ ok r = true
    /\ body r = BodyJson (PAvailableTimes entries).

(** Every start of [entries] is a date that has an instant 30 minutes
    later. *)
Definition datable (entries : list AvailableTime) : Prop :=
  forall a, a ∈ entries ->
    exists x, addMinutesISO (raw_start_time a) durationMinutes = Returned x.

(** Two entries for one slot: the same start and end, the same hosts in
    some order. *)
Definition sameSlot (a b : UnionSlot) : Prop :=
  start_time a = start_time b /\ end_time a = end_time b /\ hosts a ≡ₚ hosts b.

(** No two different strings of [l] are tied in the collation. *)
Definition untied (l : list string) : Prop :=
  forall x y, x ∈ l -> y ∈ l ->
    localeCompare x y <= 0 -> localeCompare y x <= 0 -> x = y.

(** *** Logs, cache and statuses *)

(** [normalizeISO], the twin of [toISO]. *)
Definition normalizeISO (s : string) : Outcome string :=
  toISOString (newDate (Some s)).

(** A computation that keeps every entry of the cache as it is. *)
Definition keepsCache {A} (m : Async A) : Prop :=
  forall w, cache w ⊆ cache (snd (m w)).

(** The host records of a result, counted over its entries. *)
Definition hostCount (us : list UnionSlot) : nat :=
  sum_list_with (fun e => length (hosts e)) us.

(** The same count over a bucket. *)
Definition bucketCount (b : Bucket) : nat :=
  sum_list_with (fun kv => length (hosts (snd kv))) b.

(** The requests of the resolver for a host whose token is [token] and
    whose account is [userUri]. *)
Definition resolverRequests (token userUri : string) : list Request :=
  [ {| bearer := Some token; endpoint := UsersMe |};
    {| bearer := Some token; endpoint := EventTypes userUri |} ].

(** The log of [w'] is the log of [w] and at most [n] more requests, each
    of them a [P]. *)
Definition sends (P : Request -> Prop) (n : nat) (w w' : World) : Prop :=
  exists l, sent w' = sent w ++ l /\ (length l <= n)%nat /\ Forall P l.

(** A request that does not reserve, made with what the environment holds
    as the token of [h]. *)
Definition queryOf (h : Host) (q : Request) : Prop :=
  isReservation q = false /\ bearer q = env (pat_env h).

Definition queryOfRoster (q : Request) : Prop :=
  exists h, h ∈ roster /\ queryOf h q.

(** The status each body is sent with. *)
Definition statusOf (b : ApiBody) : Z :=
  match b with
  | SlotsBody _ _ _ _ | BookingBody _ _ | RedirectBody _ _ => 200
  | ErrorBody (InvalidStartOrEnd | EndMustBeAfterStart | FieldsRequired) => 400
  | ErrorBody SlotNoLongerAvailable => 409
  | ErrorBody (FallbackLinkFailed _ _ | SchedulingApiFailed _ _) => 502
  | ErrorBody (Unexpected _) => 500
  end.

(** ** Facts on dates *)

Import JSDate.

Ltac split_ifs :=
  repeat match goal with
    | |- context [if ?b then _ else _] => destruct b eqn:?
    end;
  rewrite ?Z.ltb_lt, ?Z.ltb_ge, ?Z.leb_le, ?Z.leb_gt in *.

Lemma daysFromCivil_civilFromDays z :
  let '(y, m, d) := civilFromDays z in daysFromCivil y m d = z.
Proof.
  unfold civilFromDays, daysFromCivil; cbv zeta.
  split_ifs; Z.div_mod_to_equations; lia.
Qed.

Lemma civilFromDays_bounds z y m d :
  civilFromDays z = (y, m, d) ->
  1 <= m <= 12 /\ 1 <= d <= 31 /\ (z + 719468) / 146097 * 400 <= y <= (z + 719468) / 146097 * 400 + 400.
Proof.
  unfold civilFromDays; cbv zeta. intros H; injection H as <- <- <-.
  split_ifs; Z.div_mod_to_equations; lia.
Qed.

(** A property of the ten digits, checked on each of them. *)
Lemma on_digits (P : Z -> bool) :
  forallb P (map Z.of_nat (seq 0 10)) = true ->
  forall n, 0 <= n <= 9 -> P n = true.
Proof.
  intros Hall n Hn. rewrite forallb_forall in Hall. apply Hall.
  apply in_map_iff. exists (Z.to_nat n). split; [lia |].
  apply in_seq. lia.
Qed.

Lemma digit_cases n : 0 <= n <= 9 ->
  In (digitChar n) ["0"; "1"; "2"; "3"; "4"; "5"; "6"; "7"; "8"; "9"]%char.
Proof.
  intros H.
  pose proof (on_digits
                (fun k => existsb (Ascii.eqb (digitChar k))
                            ["0"; "1"; "2"; "3"; "4"; "5"; "6"; "7"; "8"; "9"]%char)
                eq_refl n H) as Hd.
  cbv beta in Hd. apply existsb_exists in Hd as (c & Hin & Hc).
  apply Ascii.eqb_eq in Hc. now rewrite Hc.
Qed.

Lemma digitVal_digitChar n : 0 <= n <= 9 -> digitVal (digitChar n) = Some n.
Proof.
  intros H.
  pose proof (on_digits
                (fun k => match digitVal (digitChar k) with
                          | Some m => m =? k
                          | None => false
                          end) eq_refl n H) as Hd.
  cbv beta in Hd. destruct (digitVal (digitChar n)) as [m |]; [| discriminate].
  apply Z.eqb_eq in Hd. now subst.
Qed.

Lemma readDigits_pad k : forall n acc r,
  0 <= n ->
  readDigits k acc (pad k n ++ r)%string
  = Some (acc * 10 ^ Z.of_nat k + n mod 10 ^ Z.of_nat k, r).
Proof.
  induction k as [| k IH]; intros n acc r Hn.
  - simpl. rewrite Z.mod_1_r. f_equal. f_equal. lia.
  - change (pad (S k) n) with (String (digitChar ((n / 10 ^ Z.of_nat k) mod 10)) (pad k n)).
    change (readDigits (S k) acc (String ?c ?s ++ r)%string)
      with (match digitVal c with
            | Some d => readDigits k (10 * acc + d) (s ++ r)%string
            | None => None
            end).
    assert (0 < 10 ^ Z.of_nat k) by (apply Z.pow_pos_nonneg; lia).
    assert (0 <= (n / 10 ^ Z.of_nat k) mod 10 <= 9).
    { pose proof (Z.mod_pos_bound (n / 10 ^ Z.of_nat k) 10 ltac:(lia)). lia. }
    rewrite digitVal_digitChar by assumption.
    rewrite IH by lia. f_equal. f_equal.
    rewrite Nat2Z.inj_succ, Z.pow_succ_r by lia.
    replace (10 * 10 ^ Z.of_nat k) with (10 ^ Z.of_nat k * 10) by ring.
    rewrite Z.rem_mul_r by lia. ring.
Qed.

Lemma pad_small k n r :
  0 <= n < 10 ^ Z.of_nat k ->
  readDigits k 0 (pad k n ++ r)%string = Some (n, r).
Proof.
  intros H. rewrite readDigits_pad by lia. rewrite Z.mod_small by lia. reflexivity.
Qed.

Lemma append_String c s r : (String c s ++ r)%string = String c (s ++ r)%string.
Proof. reflexivity. Qed.

Lemma append_EmptyString r : ("" ++ r)%string = r.
Proof. reflexivity. Qed.

Lemma readYear_yearString y r :
  -999999 <= y <= 999999 ->
  readYear (yearString y ++ r)%string = Some (y, r).
Proof.
  intros Hy. unfold yearString.
  destruct ((0 <=? y) && (y <=? 9999)) eqn:Hsmall.
  - apply andb_true_iff in Hsmall as [H0 H1].
    apply Z.leb_le in H0, H1.
    pose proof (pad_small 4 y r ltac:(change (10 ^ Z.of_nat 4) with 10000; lia)) as Hp.
    revert Hp. change (pad 4 y) with (String (digitChar ((y / 10 ^ Z.of_nat 3) mod 10)) (pad 3 y)).
    intros Hp. unfold readYear. cbn [String.append].
    pose proof (digit_cases ((y / 10 ^ Z.of_nat 3) mod 10)
                  ltac:(pose proof (Z.mod_pos_bound (y / 10 ^ Z.of_nat 3) 10 ltac:(lia)); lia)) as Hd.
    cbn [String.append] in Hp.
    remember (digitChar ((y / 10 ^ Z.of_nat 3) mod 10)) as c eqn:Hc. clear Hc.
    repeat (destruct Hd as [<- | Hd]; [exact Hp |]). destruct Hd.
  - unfold readYear. cbn [String.append].
    destruct (0 <=? y) eqn:H0.
    + apply Z.leb_le in H0. rewrite append_String. cbn -[readDigits pad Z.abs].
      rewrite pad_small by (change (10 ^ Z.of_nat 6) with 1000000; lia).
      f_equal. f_equal. lia.
    + apply Z.leb_gt in H0. rewrite append_String. cbn -[readDigits pad Z.abs].
      rewrite pad_small by (change (10 ^ Z.of_nat 6) with 1000000; lia).
      cbn. destruct (Z.abs y =? 0) eqn:E; [apply Z.eqb_eq in E; lia |].
      f_equal. f_equal. lia.
Qed.

Lemma parseISO_isoOfTime t :
  - maxTime <= t <= maxTime -> parseISO (isoOfTime t) = Some t.
Proof.
  intros Ht. unfold isoOfTime.
  pose proof (daysFromCivil_civilFromDays (t / msPerDay)) as Hrt.
  destruct (civilFromDays (t / msPerDay)) as [[y m] d] eqn:Hc.
  pose proof (civilFromDays_bounds _ _ _ _ Hc) as (Hm & Hd & Hy).
  assert (Hms : 0 <= t mod msPerDay < msPerDay) by (apply Z.mod_pos_bound; reflexivity).
  unfold maxTime in Ht. unfold msPerDay in *.
  unfold parseISO.
  rewrite readYear_yearString by (Z.div_mod_to_equations; lia).
  cbn [mbind option_bind].
  repeat first
    [ rewrite append_String
    | rewrite append_EmptyString
    | rewrite pad_small by
        (first [change (10 ^ Z.of_nat 2) with 100 | change (10 ^ Z.of_nat 3) with 1000];
         Z.div_mod_to_equations; lia)
    | progress cbn -[readDigits pad validDate daysFromCivil Z.mul Z.add Z.sub Z.leb Z.div Z.modulo] ].
  assert (Hv : validDate y m d = true).
  { unfold validDate. rewrite Hrt, Hc. rewrite !Z.eqb_refl. reflexivity. }
  rewrite Hv, Hrt. unfold msPerDay.
  repeat match goal with
         | |- context [?a <=? ?b] =>
             replace (a <=? b) with true
               by (symmetry; apply Z.leb_le; Z.div_mod_to_equations; lia)
         end.
  cbn [andb]. f_equal. Z.div_mod_to_equations; lia.
Qed.

Lemma digitChar_noUnderscore n :
  0 <= n <= 9 -> Ascii.eqb (digitChar n) "_" = false.
Proof.
  intros H. pose proof (digit_cases n H) as Hd.
  remember (digitChar n) as c eqn:Hc. clear Hc.
  repeat (destruct Hd as [<- | Hd]; [reflexivity |]). destruct Hd.
Qed.

Lemma noUnderscore_app a b :
  noUnderscore (a ++ b)%string = noUnderscore a && noUnderscore b.
Proof.
  induction a as [| c a IH]; [reflexivity |].
  rewrite append_String. cbn [noUnderscore]. rewrite IH. apply andb_assoc.
Qed.

Lemma noUnderscore_pad k n : noUnderscore (pad k n) = true.
Proof.
  induction k as [| k IH]; [reflexivity |].
  cbn [pad noUnderscore]. rewrite IH, digitChar_noUnderscore; [reflexivity |].
  pose proof (Z.mod_pos_bound (n / 10 ^ Z.of_nat k) 10 ltac:(lia)). lia.
Qed.

Lemma noUnderscore_isoOfTime t : noUnderscore (isoOfTime t) = true.
Proof.
  unfold isoOfTime. destruct (civilFromDays (t / msPerDay)) as [[y m] d].
  rewrite !noUnderscore_app, !noUnderscore_pad.
  unfold yearString.
  destruct ((0 <=? y) && (y <=? 9999)); [rewrite noUnderscore_pad; reflexivity |].
  cbn [noUnderscore]. rewrite noUnderscore_pad. destruct (0 <=? y); reflexivity.
Qed.

(** *** The order of instants and the order of their ISO strings *)

Lemma civilFromDays_mono z1 z2 :
  z1 < z2 -> lex3 (civilFromDays z1) (civilFromDays z2).
Proof.
  intros Hz. unfold civilFromDays, lex3. cbv zeta.
  set (era1 := (z1 + 719468) / 146097). set (era2 := (z2 + 719468) / 146097).
  set (doe1 := z1 + 719468 - era1 * 146097).
  set (doe2 := z2 + 719468 - era2 * 146097).
  set (yoe1 := (doe1 - doe1 / 1460 + doe1 / 36524 - doe1 / 146096) / 365).
  set (yoe2 := (doe2 - doe2 / 1460 + doe2 / 36524 - doe2 / 146096) / 365).
  set (doy1 := doe1 - (365 * yoe1 + yoe1 / 4 - yoe1 / 100)).
  set (doy2 := doe2 - (365 * yoe2 + yoe2 / 4 - yoe2 / 100)).
  set (mp1 := (5 * doy1 + 2) / 153). set (mp2 := (5 * doy2 + 2) / 153).
  set (d1 := doy1 - (153 * mp1 + 2) / 5 + 1).
  set (d2 := doy2 - (153 * mp2 + 2) / 5 + 1).
  assert (Hera : era1 <= era2 /\ (era1 = era2 -> doe1 < doe2)
                 /\ 0 <= doe1 <= 146096 /\ 0 <= doe2 <= 146096).
  { subst doe1 doe2 era1 era2. Z.div_mod_to_equations. lia. }
  destruct Hera as (Hera & Hdoe & Hb1 & Hb2).
  clearbody era1 era2. clear Hz.
  assert (Hy1 : 0 <= yoe1 <= 399 /\ 0 <= doy1 <= 365).
  { subst doy1 yoe1. clear - Hb1. Z.div_mod_to_equations. lia. }
  assert (Hy2 : 0 <= yoe2 <= 399 /\ 0 <= doy2 <= 365).
  { subst doy2 yoe2. clear - Hb2. Z.div_mod_to_equations. lia. }
  assert (Hyoe : doe1 <= doe2 -> yoe1 <= yoe2).
  { subst yoe1 yoe2. clear - Hb1 Hb2. Z.div_mod_to_equations. lia. }
  assert (Hdoy : yoe1 = yoe2 -> doy2 - doy1 = doe2 - doe1).
  { subst doy1 doy2. intros ->. lia. }
  clearbody yoe1 yoe2. clearbody doe1 doe2.
  assert (Hmp : 0 <= mp1 <= 11 /\ 0 <= mp2 <= 11 /\ (doy1 <= doy2 -> mp1 <= mp2)
                /\ 1 <= d1 <= 31 /\ 1 <= d2 <= 31
                /\ (mp1 = mp2 -> d2 - d1 = doy2 - doy1)).
  { subst d1 d2 mp1 mp2. clear - Hy1 Hy2. Z.div_mod_to_equations. lia. }
  clearbody d1 d2. clearbody mp1 mp2. clearbody doy1 doy2.
  split_ifs; lia.
Qed.

(** The years of the four-digit form. *)
Lemma civilFromDays_year z y m d :
  -719528 <= z <= 2932896 -> civilFromDays z = (y, m, d) -> 0 <= y <= 9999.
Proof.
  intros Hz Hc. split.
  - destruct (Z.eq_dec z (-719528)) as [-> | Hne].
    + vm_compute in Hc. injection Hc as <- _ _. lia.
    + pose proof (civilFromDays_mono (-719528) z ltac:(lia)) as H.
      rewrite Hc in H. change (civilFromDays (-719528)) with (0, 1, 1) in H.
      unfold lex3 in H. lia.
  - destruct (Z.eq_dec z 2932896) as [-> | Hne].
    + vm_compute in Hc. injection Hc as <- _ _. lia.
    + pose proof (civilFromDays_mono z 2932896 ltac:(lia)) as H.
      rewrite Hc in H. change (civilFromDays 2932896) with (9999, 12, 31) in H.
      unfold lex3 in H. lia.
Qed.

Lemma ascii_compare_refl c : Ascii.compare c c = Eq.
Proof. apply N.compare_refl. Qed.

Lemma ascii_compare_digit x y :
  0 <= x <= 9 -> 0 <= y <= 9 ->
  Ascii.compare (digitChar x) (digitChar y) = (x ?= y).
Proof.
  intros Hx Hy.
  pose (same := fun c1 c2 : comparison =>
                  match c1, c2 with
                  | Eq, Eq | Lt, Lt | Gt, Gt => true
                  | _, _ => false
                  end).
  pose proof (on_digits
                (fun a => forallb
                            (fun b => same (Ascii.compare (digitChar a) (digitChar b))
                                        (a ?= b))
                            (map Z.of_nat (seq 0 10)))
                eq_refl x Hx) as Hrow.
  cbv beta in Hrow.
  pose proof (on_digits _ Hrow y Hy) as Hcell. cbv beta in Hcell.
  destruct (Ascii.compare (digitChar x) (digitChar y)), (x ?= y);
    (reflexivity || discriminate).
Qed.

(** Two numbers written on [k] digits compare as strings the way they
    compare as numbers. *)
Lemma compare_pad k : forall a b r1 r2,
  0 <= a -> 0 <= b ->
  String.compare (pad k a ++ r1) (pad k b ++ r2)
  = match a mod 10 ^ Z.of_nat k ?= b mod 10 ^ Z.of_nat k with
    | Eq => String.compare r1 r2
    | c => c
    end.
Proof.
  induction k as [| k IH]; intros a b r1 r2 Ha Hb.
  - cbn [pad]. rewrite !append_EmptyString. now rewrite !Z.mod_1_r.
  - change (pad (S k) a) with (String (digitChar ((a / 10 ^ Z.of_nat k) mod 10)) (pad k a)).
    change (pad (S k) b) with (String (digitChar ((b / 10 ^ Z.of_nat k) mod 10)) (pad k b)).
    rewrite !append_String. cbn [String.compare].
    assert (Hp : 0 < 10 ^ Z.of_nat k) by (apply Z.pow_pos_nonneg; lia).
    pose proof (Z.mod_pos_bound (a / 10 ^ Z.of_nat k) 10 ltac:(lia)) as Hda.
    pose proof (Z.mod_pos_bound (b / 10 ^ Z.of_nat k) 10 ltac:(lia)) as Hdb.
    rewrite ascii_compare_digit by lia. rewrite IH by assumption.
    rewrite Nat2Z.inj_succ, Z.pow_succ_r by lia.
    replace (10 * 10 ^ Z.of_nat k) with (10 ^ Z.of_nat k * 10) by ring.
    rewrite !Z.rem_mul_r by lia.
    pose proof (Z.mod_pos_bound a (10 ^ Z.of_nat k) Hp) as Hra.
    pose proof (Z.mod_pos_bound b (10 ^ Z.of_nat k) Hp) as Hrb.
    set (p := 10 ^ Z.of_nat k) in *.
    set (da := (a / p) mod 10) in *. set (db := (b / p) mod 10) in *.
    set (ra := a mod p) in *. set (rb := b mod p) in *.
    clearbody p da db ra rb.
    destruct (Z.compare_spec da db) as [E | L | G].
    + subst db.
      destruct (Z.compare_spec ra rb) as [E' | L' | G'];
        destruct (Z.compare_spec (ra + p * da) (rb + p * da)); try reflexivity; lia.
    + destruct (Z.compare_spec (ra + p * da) (rb + p * db)); try reflexivity; nia.
    + destruct (Z.compare_spec (ra + p * da) (rb + p * db)); try reflexivity; nia.
Qed.

Lemma compare_pad_small k a b r1 r2 :
  0 <= a < 10 ^ Z.of_nat k -> 0 <= b < 10 ^ Z.of_nat k ->
  String.compare (pad k a ++ r1) (pad k b ++ r2)
  = match a ?= b with
    | Eq => String.compare r1 r2
    | c => c
    end.
Proof.
  intros Ha Hb. rewrite compare_pad by lia. now rewrite !Z.mod_small by lia.
Qed.

Lemma compare_String c r1 r2 :
  String.compare (String c r1) (String c r2) = String.compare r1 r2.
Proof. cbn [String.compare]. now rewrite ascii_compare_refl. Qed.

Lemma clock_mono ms1 ms2 :
  0 <= ms1 < ms2 -> ms2 < msPerDay ->
  let hh1 := ms1 / 3600000 in let hh2 := ms2 / 3600000 in
  let mi1 := (ms1 / 60000) mod 60 in let mi2 := (ms2 / 60000) mod 60 in
  let ss1 := (ms1 / 1000) mod 60 in let ss2 := (ms2 / 1000) mod 60 in
  let ml1 := ms1 mod 1000 in let ml2 := ms2 mod 1000 in
  hh1 < hh2
  \/ (hh1 = hh2
      /\ (mi1 < mi2
          \/ (mi1 = mi2 /\ (ss1 < ss2 \/ (ss1 = ss2 /\ ml1 < ml2))))).
Proof. unfold msPerDay. intros H1 H2. cbv zeta. Z.div_mod_to_equations. lia. Qed.

(** On the years 0000 to 9999, a later instant has a greater ISO
    string. *)
Lemma isoOfTime_mono t1 t2 :
  -62167219200000 <= t1 -> t1 < t2 -> t2 <= 253402300799999 ->
  String.compare (isoOfTime t1) (isoOfTime t2) = Lt.
Proof.
  intros Hlo Hlt Hhi. unfold isoOfTime.
  assert (Hdays : -719528 <= t1 / msPerDay <= 2932896
                  /\ -719528 <= t2 / msPerDay <= 2932896
                  /\ (t1 / msPerDay < t2 / msPerDay
                      \/ (t1 / msPerDay = t2 / msPerDay
                          /\ t1 mod msPerDay < t2 mod msPerDay))).
  { unfold msPerDay. Z.div_mod_to_equations. lia. }
  destruct Hdays as (Hd1 & Hd2 & Hcase).
  pose proof (Z.mod_pos_bound t1 msPerDay ltac:(reflexivity)) as Hm1.
  pose proof (Z.mod_pos_bound t2 msPerDay ltac:(reflexivity)) as Hm2.
  assert (Hlex : lex3 (civilFromDays (t1 / msPerDay)) (civilFromDays (t2 / msPerDay))
                 \/ (civilFromDays (t1 / msPerDay) = civilFromDays (t2 / msPerDay)
                     /\ t1 mod msPerDay < t2 mod msPerDay)).
  { destruct Hcase as [H | [H H']].
    - left. now apply civilFromDays_mono.
    - right. now rewrite H. }
  clear Hcase.
  destruct (civilFromDays (t1 / msPerDay)) as [[y1 m1] d1] eqn:E1.
  destruct (civilFromDays (t2 / msPerDay)) as [[y2 m2] d2] eqn:E2.
  pose proof (civilFromDays_year _ _ _ _ Hd1 E1) as Hy1.
  pose proof (civilFromDays_year _ _ _ _ Hd2 E2) as Hy2.
  pose proof (civilFromDays_bounds _ _ _ _ E1) as (Hmo1 & Hda1 & _).
  pose proof (civilFromDays_bounds _ _ _ _ E2) as (Hmo2 & Hda2 & _).
  pose proof (fun H => clock_mono (t1 mod msPerDay) (t2 mod msPerDay)
                        (conj (proj1 Hm1) H) (proj2 Hm2)) as Hclock.
  cbv zeta in Hclock.
  assert (Hf1 : 0 <= t1 mod msPerDay / 3600000 < 100
                /\ 0 <= (t1 mod msPerDay / 60000) mod 60 < 100
                /\ 0 <= (t1 mod msPerDay / 1000) mod 60 < 100
                /\ 0 <= (t1 mod msPerDay) mod 1000 < 1000).
  { unfold msPerDay in *. clear - Hm1. Z.div_mod_to_equations. lia. }
  assert (Hf2 : 0 <= t2 mod msPerDay / 3600000 < 100
                /\ 0 <= (t2 mod msPerDay / 60000) mod 60 < 100
                /\ 0 <= (t2 mod msPerDay / 1000) mod 60 < 100
                /\ 0 <= (t2 mod msPerDay) mod 1000 < 1000).
  { unfold msPerDay in *. clear - Hm2. Z.div_mod_to_equations. lia. }
  set (ms1 := t1 mod msPerDay) in *. set (ms2 := t2 mod msPerDay) in *.
  set (hh1 := ms1 / 3600000) in *. set (hh2 := ms2 / 3600000) in *.
  set (mi1 := (ms1 / 60000) mod 60) in *. set (mi2 := (ms2 / 60000) mod 60) in *.
  set (ss1 := (ms1 / 1000) mod 60) in *. set (ss2 := (ms2 / 1000) mod 60) in *.
  set (ml1 := ms1 mod 1000) in *. set (ml2 := ms2 mod 1000) in *.
  clearbody hh1 hh2 mi1 mi2 ss1 ss2 ml1 ml2. clearbody ms1 ms2.
  unfold yearString.
  replace ((0 <=? y1) && (y1 <=? 9999)) with true
    by (symmetry; apply andb_true_iff; split; apply Z.leb_le; lia).
  replace ((0 <=? y2) && (y2 <=? 9999)) with true
    by (symmetry; apply andb_true_iff; split; apply Z.leb_le; lia).
  rewrite ?append_String, ?append_EmptyString.
  repeat first
    [ rewrite compare_pad_small by
        (first [ change (10 ^ Z.of_nat 2) with 100
               | change (10 ^ Z.of_nat 3) with 1000
               | change (10 ^ Z.of_nat 4) with 10000 ]; lia)
    | rewrite compare_String ].
  assert (Hall : lex3 (y1, m1, d1) (y2, m2, d2)
                 \/ ((y1, m1, d1) = (y2, m2, d2) /\ ms1 < ms2)) by exact Hlex.
  clear Hlex E1 E2. unfold lex3 in Hall.
  assert (Heq : (y1, m1, d1) = (y2, m2, d2) -> y1 = y2 /\ m1 = m2 /\ d1 = d2)
    by (intros [= -> -> ->]; auto).
  repeat match goal with
         | |- context [Z.compare ?a ?b] =>
             destruct (Z.compare_spec a b); [subst | reflexivity | exfalso]
         end.
  all: destruct Hall as [Hdate | [Hdate Hms]];
    [lia | apply Heq in Hdate; specialize (Hclock Hms); lia].
Qed.

(** *** Some dates *)

Example isoOfTime_epoch : isoOfTime 0 = "1970-01-01T00:00:00.000Z"%string.
Proof. reflexivity. Qed.

Example isoOfTime_before_epoch :
  isoOfTime (-1) = "1969-12-31T23:59:59.999Z"%string.
Proof. reflexivity. Qed.

Example isoOfTime_leap_day :
  isoOfTime 1709200800000 = "2024-02-29T10:00:00.000Z"%string.
Proof. reflexivity. Qed.

Example isoOfTime_greatest :
  isoOfTime maxTime = "+275760-09-13T00:00:00.000Z"%string.
Proof. reflexivity. Qed.

Example isoOfTime_least :
  isoOfTime (- maxTime) = "-271821-04-20T00:00:00.000Z"%string.
Proof. reflexivity. Qed.

Example parseISO_offset :
  parseISO "2025-11-07T15:30:00+05:30" = Some 1762509600000
  /\ parseISO "2025-11-07T10:00:00Z" = Some 1762509600000
  /\ parseISO "2025-11-07T10:00:00.000Z" = Some 1762509600000.
Proof. repeat split; reflexivity. Qed.

Example parseISO_not_a_date :
  parseISO "2025-02-30T10:00:00Z" = None /\ parseISO "2025-11-07" = None.
Proof. split; reflexivity. Qed.

(** ** Facts on [sort] and on the order of strings *)

Lemma sortInsert_Permutation {A} (cmp : A -> A -> Z) x l :
  Permutation (sortInsert cmp x l) (x :: l).
Proof.
  induction l as [| y r IH]; [reflexivity |].
  cbn [sortInsert]. destruct (cmp y x <? 0); [| reflexivity].
  rewrite IH. apply perm_swap.
Qed.

Lemma jsSort_cons {A} (cmp : A -> A -> Z) x l :
  jsSort cmp (x :: l) = sortInsert cmp x (jsSort cmp l).
Proof. reflexivity. Qed.

Lemma jsSort_Permutation {A} (cmp : A -> A -> Z) l :
  Permutation (jsSort cmp l) l.
Proof.
  induction l as [| x r IH]; [reflexivity |].
  rewrite jsSort_cons, sortInsert_Permutation. now constructor.
Qed.

Lemma jsSort_elem_of {A} (cmp : A -> A -> Z) l x :
  x ∈ jsSort cmp l <-> x ∈ l.
Proof. now rewrite (jsSort_Permutation cmp l). Qed.

Section Ordered.
Context {A : Type} (cmp : A -> A -> Z).
Hypothesis cmp_total : forall a b, cmp a b <= 0 \/ cmp b a < 0.
Hypothesis cmp_trans : forall a b c, cmp a b <= 0 -> cmp b c <= 0 -> cmp a c <= 0.

Let le (a b : A) : Prop := cmp a b <= 0.

Lemma sortInsert_sorted x l :
  StronglySorted le l -> StronglySorted le (sortInsert cmp x l).
Proof.
  induction 1 as [| y r Hr IH Hy]; cbn [sortInsert].
  - repeat constructor.
  - destruct (cmp y x <? 0) eqn:E.
    + apply Z.ltb_lt in E. constructor; [exact IH |].
      rewrite Forall_forall. intros z Hz.
      rewrite sortInsert_Permutation in Hz.
      apply elem_of_cons in Hz as [-> | Hz]; [unfold le; lia |].
      rewrite Forall_forall in Hy. now apply Hy.
    + apply Z.ltb_ge in E.
      assert (Hxy : le x y).
      { destruct (cmp_total x y) as [H | H]; [exact H | lia]. }
      constructor; [now constructor |].
      constructor; [exact Hxy |].
      eapply Forall_impl; [exact Hy |]. intros z Hz. now apply (cmp_trans x y z).
Qed.

Lemma jsSort_sorted l : StronglySorted le (jsSort cmp l).
Proof.
  induction l as [| x r IH]; [constructor |].
  rewrite jsSort_cons. now apply sortInsert_sorted.
Qed.
End Ordered.

(** The head of a list sorted by descending priority is the first of the
    elements of greatest priority. *)
Lemma jsSort_byPriority_head (l : list Eligible) :
  l <> [] ->
  exists c rest l1 l2,
    jsSort byPriority l = c :: rest /\ l = l1 ++ c :: l2
    /\ Forall (fun h => priority_weight (elig_host h) < priority_weight (elig_host c)) l1
    /\ Forall (fun h => priority_weight (elig_host h) <= priority_weight (elig_host c)) l2.
Proof.
  induction l as [| x r IH]; [congruence |]. intros _.
  destruct r as [| y r'].
  - exists x, [], [], []. repeat split; constructor.
  - destruct IH as (c & rest & l1 & l2 & Hs & Hl & H1 & H2); [congruence |].
    rewrite jsSort_cons, Hs.
    cbn [sortInsert]. unfold byPriority at 1.
    destruct (priority_weight (elig_host x) - priority_weight (elig_host c) <? 0) eqn:E.
    + apply Z.ltb_lt in E.
      exists c, (sortInsert byPriority x rest), (x :: l1), l2.
      repeat split; [now rewrite Hl | | exact H2].
      constructor; [lia | exact H1].
    + apply Z.ltb_ge in E.
      exists x, (c :: rest), [], (y :: r').
      repeat split; [constructor |]. rewrite Hl.
      apply Forall_app. split.
      * eapply Forall_impl; [exact H1 |]. intros z Hz. cbn beta in *. lia.
      * constructor; [lia |].
        eapply Forall_impl; [exact H2 |]. intros z Hz. cbn beta in *. lia.
Qed.

Lemma string_compare_refl s : String.compare s s = Eq.
Proof.
  induction s as [| c s IH]; [reflexivity |].
  cbn [String.compare]. now rewrite ascii_compare_refl.
Qed.

Lemma string_compare_trans_Lt a : forall b c,
  String.compare a b = Lt -> String.compare b c = Lt -> String.compare a c = Lt.
Proof.
  induction a as [| x a IH]; intros [| y b] [| z c]; cbn [String.compare];
    try congruence.
  unfold Ascii.compare.
  destruct (N.compare_spec (N_of_ascii x) (N_of_ascii y)) as [Exy | Lxy | Gxy];
    try congruence;
    destruct (N.compare_spec (N_of_ascii y) (N_of_ascii z)) as [Eyz | Lyz | Gyz];
    try congruence; intros H1 H2.
  - rewrite Exy, Eyz, N.compare_refl. eauto.
  - rewrite Exy. now apply N.compare_lt_iff in Lyz as ->.
  - rewrite <- Eyz. now apply N.compare_lt_iff in Lxy as ->.
  - assert (N_of_ascii x < N_of_ascii z)%N as Hlt by lia.
    now apply N.compare_lt_iff in Hlt as ->.
Qed.

Lemma codeUnitCompare_total a b :
  codeUnitCompare a b <= 0 \/ codeUnitCompare b a < 0.
Proof.
  unfold codeUnitCompare. rewrite (String.compare_antisym a b).
  destruct (String.compare b a); cbn; lia.
Qed.

Lemma codeUnitCompare_le a b :
  codeUnitCompare a b <= 0 <-> String.compare a b <> Gt.
Proof. unfold codeUnitCompare. destruct (String.compare a b); split; (lia || congruence). Qed.

Lemma codeUnitCompare_trans a b c :
  codeUnitCompare a b <= 0 -> codeUnitCompare b c <= 0 -> codeUnitCompare a c <= 0.
Proof.
  rewrite !codeUnitCompare_le. intros Hab Hbc.
  destruct (String.compare a b) eqn:Eab; [| | congruence].
  - apply String.compare_eq_iff in Eab. now subst.
  - destruct (String.compare b c) eqn:Ebc; [| | congruence].
    + apply String.compare_eq_iff in Ebc. subst. now rewrite Eab.
    + now rewrite (string_compare_trans_Lt a b c).
Qed.

Lemma codeUnitCompare_eq a b : codeUnitCompare a b = 0 <-> a = b.
Proof.
  unfold codeUnitCompare. split.
  - destruct (String.compare a b) eqn:E; try lia. intros _.
    now apply String.compare_eq_iff.
  - intros ->. now rewrite string_compare_refl.
Qed.

(** ** Facts on the interleaving of logs *)

Lemma takeAt_Some {A} (ls : list (list A)) : forall n a ls',
  takeAt n ls = Some (a, ls') ->
  exists i l0, ls !! i = Some (a :: l0) /\ ls' = <[i := l0]> ls.
Proof.
  induction ls as [| l r IH]; intros n a ls'; cbn [takeAt]; [discriminate |].
  destruct l as [| x l].
  - destruct (takeAt n r) as [[b r'] |] eqn:E; [| discriminate].
    cbn. intros [= <- <-]. destruct (IH n b r' E) as (i & l0 & Hi & ->).
    now exists (S i), l0.
  - destruct n as [| n].
    + intros [= <- <-]. now exists 0%nat, l.
    + destruct (takeAt n r) as [[b r'] |] eqn:E; [| discriminate].
      cbn. intros [= <- <-]. destruct (IH n b r' E) as (i & l0 & Hi & ->).
      now exists (S i), l0.
Qed.

Lemma takeAt_None {A} (ls : list (list A)) :
  takeAt 0 ls = None -> concat ls = [].
Proof.
  induction ls as [| l r IH]; cbn [takeAt concat]; [reflexivity |].
  destruct l as [| x l]; [| discriminate].
  destruct (takeAt 0 r); [discriminate |]. intros _. now apply IH.
Qed.

Lemma concat_insert_head {A} (ls : list (list A)) : forall i a l0,
  ls !! i = Some (a :: l0) -> concat ls ≡ₚ a :: concat (<[i := l0]> ls).
Proof.
  induction ls as [| l r IH]; intros i a l0 Hi; [discriminate |].
  destruct i as [| i]; cbn in Hi.
  - injection Hi as ->. reflexivity.
  - cbn [concat]. change (<[S i := l0]> (l :: r)) with (l :: <[i := l0]> r).
    cbn [concat]. rewrite (IH i a l0 Hi). symmetry. apply Permutation_middle.
Qed.

Lemma interleave_step {A} (pick : list (list A) -> nat) fuel ls :
  concat ls = [] /\ interleave pick (S fuel) ls = []
  \/ exists i a l0,
       ls !! i = Some (a :: l0)
       /\ interleave pick (S fuel) ls = a :: interleave pick fuel (<[i := l0]> ls).
Proof.
  cbn [interleave]. destruct (takeAt (pick ls) ls) as [[a ls'] |] eqn:E.
  - right. apply takeAt_Some in E as (i & l0 & Hi & ->). now exists i, a, l0.
  - destruct (takeAt 0 ls) as [[a ls'] |] eqn:E0.
    + right. apply takeAt_Some in E0 as (i & l0 & Hi & ->). now exists i, a, l0.
    + left. split; [now apply takeAt_None | reflexivity].
Qed.

(** The interleaving holds the requests of the callbacks, each once. *)
Lemma interleave_Permutation {A} (pick : list (list A) -> nat) fuel : forall ls,
  (length (concat ls) <= fuel)%nat -> interleave pick fuel ls ≡ₚ concat ls.
Proof.
  induction fuel as [| fuel IH]; intros ls Hlen.
  - destruct (concat ls); [reflexivity | cbn in Hlen; lia].
  - destruct (interleave_step pick fuel ls)
      as [[Hnil ->] | (i & a & l0 & Hi & ->)]; [now rewrite Hnil |].
    pose proof (concat_insert_head ls i a l0 Hi) as Hp.
    rewrite Hp. constructor. apply IH.
    apply Permutation_length in Hp. cbn [length] in Hp. lia.
Qed.

(** It keeps the requests of each callback in their order. *)
Lemma interleave_sublist {A} (pick : list (list A) -> nat) fuel : forall ls j l,
  (length (concat ls) <= fuel)%nat -> ls !! j = Some l ->
  l `sublist_of` interleave pick fuel ls.
Proof.
  induction fuel as [| fuel IH]; intros ls j l Hlen Hj.
  - assert (l = []) as ->; [| apply sublist_nil_l].
    destruct l as [| x l]; [reflexivity |].
    pose proof (concat_insert_head ls j x l Hj) as Hp.
    apply Permutation_length in Hp. cbn [length] in Hp. lia.
  - destruct (interleave_step pick fuel ls)
      as [[Hnil ->] | (i & a & l0 & Hi & ->)].
    + assert (l = []) as ->; [| apply sublist_nil_l].
      destruct l as [| x l]; [reflexivity |].
      pose proof (concat_insert_head ls j x l Hj) as Hp.
      rewrite Hnil in Hp. now apply Permutation_nil_cons in Hp.
    + pose proof (concat_insert_head ls i a l0 Hi) as Hp.
      apply Permutation_length in Hp. cbn [length] in Hp.
      destruct (decide (i = j)) as [-> | Hne].
      * rewrite Hi in Hj. injection Hj as <-. apply sublist_skip.
        apply (IH _ j); [lia |]. apply list_lookup_insert_eq.
        now apply lookup_lt_Some in Hi.
      * apply sublist_cons. apply (IH _ j); [lia |].
        now rewrite list_lookup_insert_ne.
Qed.

(** ** Facts on the bucket of the union *)

Lemma bucketGet_bucketSet key v b k :
  bucketGet k (bucketSet key v b)
  = if String.eqb key k then Some v else bucketGet k b.
Proof.
  unfold bucketGet. induction b as [| [k0 u] r IH]; cbn [bucketSet find fst].
  - destruct (String.eqb key k); reflexivity.
  - destruct (String.eqb k0 key) eqn:E0; cbn [find fst].
    + apply String.eqb_eq in E0. subst k0.
      destruct (String.eqb key k); reflexivity.
    + destruct (String.eqb k0 k) eqn:E1; cbn [fmap option_fmap option_map snd].
      * apply String.eqb_eq in E1. subst k0. now rewrite String.eqb_sym, E0.
      * exact IH.
Qed.

Lemma keys_bucketSet key v b :
  map fst (bucketSet key v b)
  = if decide (key ∈ map fst b) then map fst b else map fst b ++ [key].
Proof.
  induction b as [| [k0 u] r IH]; cbn [bucketSet map fst].
  - rewrite decide_False; [reflexivity | apply not_elem_of_nil].
  - destruct (String.eqb k0 key) eqn:E0.
    + apply String.eqb_eq in E0. subst k0.
      rewrite decide_True; [reflexivity | apply elem_of_cons; now left].
    + apply String.eqb_neq in E0. cbn [map fst]. rewrite IH.
      destruct (decide (key ∈ map fst r)) as [Hin | Hin].
      * rewrite decide_True; [reflexivity | apply elem_of_cons; now right].
      * rewrite decide_False; [reflexivity |].
        rewrite elem_of_cons. intros [-> | ?]; congruence.
Qed.

Lemma NoDup_keys_bucketSet key v b :
  NoDup (map fst b) -> NoDup (map fst (bucketSet key v b)).
Proof.
  intros H. rewrite keys_bucketSet. destruct (decide _) as [Hin | Hin]; [exact H |].
  apply NoDup_app. repeat split; [exact H | | apply NoDup_singleton].
  intros x Hx Hx'. apply list_elem_of_singleton in Hx'. now subst.
Qed.

Lemma elem_of_bucket (b : Bucket) k e :
  NoDup (map fst b) -> ((k, e) ∈ b <-> bucketGet k b = Some e).
Proof.
  unfold bucketGet. induction b as [| [k0 u] r IH]; cbn [map fst find]; intros Hnd.
  - split; [intros H; now apply elem_of_nil in H | discriminate].
  - apply NoDup_cons in Hnd as [Hk0 Hnd]. rewrite elem_of_cons.
    destruct (String.eqb k0 k) eqn:E; cbn [fmap option_fmap option_map snd].
    + apply String.eqb_eq in E. subst k0. split.
      * intros [H | H]; [congruence |]. exfalso. apply Hk0.
        apply list_elem_of_fmap. now exists (k, e).
      * intros H. left. congruence.
    + apply String.eqb_neq in E. rewrite <- IH by exact Hnd. split.
      * intros [H | H]; [congruence | exact H].
      * now right.
Qed.

Lemma NoDup_keys_fold slots : forall b,
  NoDup (map fst b) -> NoDup (map fst (fold_left addSlot slots b)).
Proof.
  induction slots as [| s r IH]; intros b Hb; [exact Hb |].
  cbn [fold_left]. apply IH. unfold addSlot. now apply NoDup_keys_bucketSet.
Qed.

Lemma fold_addResult rs : forall b,
  fold_left addResult rs b = fold_left addSlot (concat (map slotsOf rs)) b.
Proof.
  induction rs as [| r rs IH]; intros b; [reflexivity |].
  cbn [fold_left map concat]. rewrite fold_left_app, IH.
  destruct r; reflexivity.
Qed.

(** What the bucket holds under a key after merging [slots]. *)
Lemma bucket_spec slots k :
  bucketGet k (fold_left addSlot slots []) = entryFor k slots.
Proof.
  induction slots as [| s slots IH] using rev_ind; [reflexivity |].
  rewrite fold_left_app. cbn [fold_left]. unfold addSlot at 1.
  rewrite bucketGet_bucketSet. unfold entryFor in *.
  rewrite filter_app, filter_cons, filter_nil.
  destruct (String.eqb (slotKey s) k) eqn:E.
  - apply String.eqb_eq in E. rewrite decide_True by exact E.
    rewrite <- E in IH. rewrite IH. rewrite <- E.
    destruct (filter (fun s0 => slotKey s0 = slotKey s) slots) as [| s0 r];
      cbn [default start_time end_time hosts app map]; [reflexivity |].
    now rewrite map_app.
  - apply String.eqb_neq in E. rewrite decide_False by exact E.
    now rewrite app_nil_r.
Qed.

(** The entries of the union are those that [entryFor] describes. *)
Lemma elem_of_unionOf rs e :
  e ∈ unionOf rs <-> exists k, entryFor k (concat (map slotsOf rs)) = Some e.
Proof.
  unfold unionOf. rewrite jsSort_elem_of, fold_addResult.
  rewrite list_elem_of_fmap. split.
  - intros ([k e'] & -> & Hin). exists k.
    rewrite <- bucket_spec. apply elem_of_bucket; [| exact Hin].
    apply NoDup_keys_fold. constructor.
  - intros (k & Hk). exists (k, e). split; [reflexivity |].
    apply elem_of_bucket; [apply NoDup_keys_fold; constructor |].
    now rewrite bucket_spec.
Qed.

Lemma entryFor_Some k slots e :
  entryFor k slots = Some e ->
  exists s0, s0 ∈ slots /\ slotKey s0 = k
    /\ start_time e = slot_start_time s0 /\ end_time e = slot_end_time s0
    /\ hosts e = map hostRefOf (filter (fun s => slotKey s = k) slots).
Proof.
  unfold entryFor.
  destruct (filter (fun s => slotKey s = k) slots) as [| s0 r] eqn:E; [discriminate |].
  intros [= <-]. exists s0.
  assert (Hin : s0 ∈ filter (fun s => slotKey s = k) slots)
    by (rewrite E; apply elem_of_cons; now left).
  apply list_elem_of_filter in Hin as [Hk Hin]. now repeat split.
Qed.

Lemma entryFor_key s slots :
  s ∈ slots -> exists e, entryFor (slotKey s) slots = Some e.
Proof.
  intros Hin. unfold entryFor.
  destruct (filter (fun s0 => slotKey s0 = slotKey s) slots) as [| s0 r] eqn:E;
    [| eauto].
  assert (s ∈ filter (fun s0 => slotKey s0 = slotKey s) slots) as H
      by (apply list_elem_of_filter; split; [reflexivity | exact Hin]).
  rewrite E in H. now apply elem_of_nil in H.
Qed.

(** ** Facts on keys and on the callbacks of [getUnionSlots] *)

Lemma noUnderscore_sep x y : noUnderscore (x ++ "__" ++ y)%string = false.
Proof.
  rewrite !noUnderscore_app. cbn [noUnderscore Ascii.eqb Bool.eqb negb andb].
  apply andb_false_r.
Qed.

Lemma key_inj_cons a1 : forall a2 b1 b2,
  noUnderscore b1 = true -> noUnderscore b2 = true ->
  (a1 ++ String "_" (String "_" b1) = a2 ++ String "_" (String "_" b2))%string ->
  a1 = a2 /\ b1 = b2.
Proof.
  assert (Hsep : forall x y, noUnderscore (x ++ String "_" (String "_" y))%string = false).
  { intros x y. exact (noUnderscore_sep x y). }
  induction a1 as [| c a1 IH]; intros [| c2 a2] b1 b2 H1 H2 E.
  - rewrite !append_EmptyString in E. injection E as ->. now split.
  - exfalso. rewrite append_EmptyString, append_String in E.
    injection E as _ E. destruct a2 as [| c3 a3].
    + rewrite append_EmptyString in E. injection E as ->.
      cbn in H1. discriminate.
    + rewrite append_String in E. injection E as _ ->.
      rewrite Hsep in H1. discriminate.
  - exfalso. rewrite append_EmptyString, append_String in E.
    injection E as _ E. destruct a1 as [| c3 a3].
    + rewrite append_EmptyString in E. injection E as <-.
      cbn in H2. discriminate.
    + rewrite append_String in E. injection E as _ <-.
      rewrite Hsep in H2. discriminate.
  - rewrite !append_String in E. injection E as -> E.
    destruct (IH a2 b1 b2 H1 H2 E) as [-> ->]. now split.
Qed.

(** Two keys are equal only if their two parts are. *)
Lemma key_inj a1 a2 b1 b2 :
  noUnderscore b1 = true -> noUnderscore b2 = true ->
  (a1 ++ "__" ++ b1 = a2 ++ "__" ++ b2)%string -> a1 = a2 /\ b1 = b2.
Proof. apply key_inj_cons. Qed.

Lemma wfSlot_noUnderscore s : wfSlot s -> noUnderscore (slot_end_time s) = true.
Proof.
  unfold wfSlot, addMinutesISO, toISOString.
  destruct (newDateOfNumber _) as [t |]; [| discriminate].
  intros [= <-]. apply noUnderscore_isoOfTime.
Qed.

Lemma wfSlot_end s1 s2 :
  wfSlot s1 -> wfSlot s2 -> slot_start_time s1 = slot_start_time s2 ->
  slot_end_time s1 = slot_end_time s2.
Proof. unfold wfSlot. intros H1 H2 E. rewrite E in H1. congruence. Qed.

(** On the slots of [getUnionSlots] the key decides the start string, and
    the start string the key. *)
Lemma slotKey_eq_iff s1 s2 :
  wfSlot s1 -> wfSlot s2 ->
  (slotKey s1 = slotKey s2 <-> slot_start_time s1 = slot_start_time s2).
Proof.
  intros H1 H2. unfold slotKey. split.
  - intros E. apply key_inj in E as [E _];
      [exact E | now apply wfSlot_noUnderscore ..].
  - intros E. now rewrite E, (wfSlot_end s1 s2).
Qed.

Lemma mapThrow_slotOf h l : forall slots,
  mapThrow (slotOf h) l = Returned slots ->
  Forall wfSlot slots
  /\ map slot_start_time slots = map raw_start_time l
  /\ map hostRefOf slots
     = map (fun _ => {| id := host_id h; name := display_name h |}) l.
Proof.
  induction l as [| a l IH]; cbn [mapThrow]; intros slots.
  - intros [= <-]. repeat split. constructor.
  - unfold slotOf at 1.
    destruct (addMinutesISO (raw_start_time a) durationMinutes) as [e | err] eqn:Ea;
      [| discriminate].
    destruct (mapThrow (slotOf h) l) as [ys | err]; [| discriminate].
    intros [= <-]. destruct (IH ys eq_refl) as (Hwf & Hst & Hrf).
    repeat split.
    + constructor; [exact Ea | exact Hwf].
    + cbn [map slot_start_time]. now rewrite Hst.
    + cbn [map]. now rewrite Hrf.
Qed.

(** What a fulfilled promise says of its host. *)
Lemma hostSlots_Returned start end_ tz h w v w' :
  hostSlots start end_ tz h w = (Returned v, w') ->
  fst v = h
  /\ exists token e data w1,
      truthy (env (pat_env h)) = Some token
      /\ resolveEventTypeApiUriForHost h w = (Returned e, w1)
      /\ calendly (Some token)
           (AvailableTimes e start end_ (default "UTC" (truthy tz))) w1
         = (Returned data, w')
      /\ mapThrow (slotOf h) (availableTimes data) = Returned (snd v).
Proof.
  unfold hostSlots.
  destruct (truthy (env (pat_env h))) as [token |]; [| discriminate].
  unfold bind at 1.
  destruct (resolveEventTypeApiUriForHost h w) as [[e | err] w1]; [| discriminate].
  unfold bind at 1.
  destruct (calendly _ _ w1) as [[data | err] w2] eqn:Ec; [| discriminate].
  unfold bind, lift, ret.
  destruct (mapThrow (slotOf h) (availableTimes data)) as [slots | err] eqn:Em;
    [| discriminate].
  intros [= <- <-]. split; [reflexivity |].
  exists token, e, data, w1. now repeat split.
Qed.

Lemma slotsOf_settledSlots_wf start end_ tz c h :
  Forall wfSlot (slotsOf (settledSlots start end_ tz c h)).
Proof.
  unfold settledSlots.
  destruct (hostSlots start end_ tz h _) as [[v | err] w'] eqn:E;
    cbn [fst settle slotsOf]; [| constructor].
  apply hostSlots_Returned in E as (_ & token & e & data & w1 & _ & _ & _ & Hm).
  now apply mapThrow_slotOf in Hm as (Hwf & _).
Qed.

Lemma contributions_wf start end_ tz c :
  Forall wfSlot (contributions start end_ tz c).
Proof.
  unfold contributions. induction roster as [| h r IH]; [constructor |].
  cbn [map concat]. apply Forall_app. split; [| exact IH].
  apply slotsOf_settledSlots_wf.
Qed.

(** [getUnionSlots] returns, whatever its callbacks do. *)
Lemma getUnionSlots_Returned start end_ tz w :
  fst (getUnionSlots start end_ tz w)
  = Returned (unionOf (map (settledSlots start end_ tz (cache w)) roster)).
Proof.
  unfold getUnionSlots, bind, allSettled, ret. cbn [fst].
  rewrite map_map. reflexivity.
Qed.

Lemma getUnionSlots_slots start end_ tz c :
  concat (map slotsOf (map (settledSlots start end_ tz c) roster))
  = contributions start end_ tz c.
Proof. unfold contributions. now rewrite map_map. Qed.

(** ** The union, entry by entry *)

Section UnionOf.
Variable rs : list (Settled (Host * list Slot)).
Let slots := concat (map slotsOf rs).
Hypothesis slots_wf : Forall wfSlot slots.

Lemma filter_key_start s0 :
  s0 ∈ slots ->
  filter (fun s => slotKey s = slotKey s0) slots
  = filter (fun s => slot_start_time s = slot_start_time s0) slots.
Proof.
  intros H0. rewrite Forall_forall in slots_wf.
  assert (Hwf0 : wfSlot s0) by now apply slots_wf.
  revert slots_wf. generalize slots. intros l Hl.
  induction l as [| s l IH]; [reflexivity |].
  rewrite !filter_cons.
  assert (Hs : wfSlot s) by (apply Hl, elem_of_cons; now left).
  assert (IH' : filter (fun s => slotKey s = slotKey s0) l
                = filter (fun s => slot_start_time s = slot_start_time s0) l).
  { apply IH. intros x Hx. apply Hl, elem_of_cons. now right. }
  destruct (decide (slotKey s = slotKey s0)) as [E | E].
  - rewrite decide_True by now apply slotKey_eq_iff. now rewrite IH'.
  - rewrite decide_False; [exact IH' |].
    intros E'. apply E. now apply slotKey_eq_iff.
Qed.

Lemma unionOf_entry e :
  e ∈ unionOf rs ->
  exists s0, s0 ∈ slots
    /\ start_time e = slot_start_time s0 /\ end_time e = slot_end_time s0
    /\ hosts e = map hostRefOf
                   (filter (fun s => slot_start_time s = start_time e) slots).
Proof.
  intros He. apply elem_of_unionOf in He as (k & Hk).
  apply entryFor_Some in Hk as (s0 & Hin & <- & Hst & Hen & Hh).
  exists s0. repeat split; try assumption.
  rewrite Hh, Hst. f_equal. now apply filter_key_start.
Qed.

Lemma unionOf_cover s :
  s ∈ slots ->
  exists e, e ∈ unionOf rs
    /\ start_time e = slot_start_time s /\ end_time e = slot_end_time s.
Proof.
  intros Hin. destruct (entryFor_key s slots Hin) as (e & He).
  exists e. split; [apply elem_of_unionOf; now exists (slotKey s) |].
  apply entryFor_Some in He as (s0 & Hin0 & Hk & Hst & Hen & _).
  rewrite Forall_forall in slots_wf.
  assert (Hss : slot_start_time s0 = slot_start_time s)
    by (apply slotKey_eq_iff; auto).
  split; [congruence |]. rewrite Hen. apply wfSlot_end; auto.
Qed.

Lemma unionOf_NoDup_start : NoDup (map start_time (unionOf rs)).
Proof.
  unfold unionOf. rewrite jsSort_Permutation, fold_addResult. fold slots.
  assert (Hnd : NoDup (map fst (fold_left addSlot slots [])))
    by (apply NoDup_keys_fold; constructor).
  rewrite map_map. apply NoDup_fmap_2_strong; [| now apply NoDup_fmap_1 in Hnd].
  intros [k1 e1] [k2 e2] H1 H2 E. cbn [snd] in E.
  apply elem_of_bucket in H1; [| exact Hnd].
  apply elem_of_bucket in H2; [| exact Hnd].
  rewrite bucket_spec in H1, H2.
  pose proof H1 as H1'. pose proof H2 as H2'.
  apply entryFor_Some in H1' as (s1 & Hin1 & Hk1 & Hst1 & _).
  apply entryFor_Some in H2' as (s2 & Hin2 & Hk2 & Hst2 & _).
  rewrite Forall_forall in slots_wf.
  assert (k1 = k2).
  { rewrite <- Hk1, <- Hk2. apply slotKey_eq_iff; auto. congruence. }
  subst k2. congruence.
Qed.

Lemma unionOf_sorted :
  consistent localeCompare ->
  StronglySorted (fun a b => localeCompare (start_time a) (start_time b) <= 0)
    (unionOf rs).
Proof.
  intros [Htotal Htrans]. unfold unionOf. apply jsSort_sorted.
  - intros a b. apply Htotal.
  - intros a b c. apply Htrans.
Qed.
End UnionOf.

(** ** The union of open slots: what [getUnionSlots] returns *)

Lemma filter_ext_elem {A} (P Q : A -> Prop)
    `{!forall x, Decision (P x), !forall x, Decision (Q x)} (l : list A) :
  (forall x, x ∈ l -> (P x <-> Q x)) -> filter P l = filter Q l.
Proof.
  induction l as [| x l IH]; intros Hext; [reflexivity |].
  rewrite !filter_cons.
  assert (IH' : filter P l = filter Q l).
  { apply IH. intros y Hy. apply Hext, elem_of_cons. now right. }
  destruct (decide (P x)) as [HP | HP].
  - rewrite decide_True by (apply Hext; [apply elem_of_cons; now left | exact HP]).
    now rewrite IH'.
  - rewrite decide_False; [exact IH' |].
    intros HQ. apply HP, Hext; [apply elem_of_cons; now left | exact HQ].
Qed.

Lemma elem_of_concat {A} (x : A) (ls : list (list A)) :
  x ∈ concat ls <-> exists l, x ∈ l /\ l ∈ ls.
Proof.
  induction ls as [| l0 ls IH]; cbn [concat].
  - split; [intros H; now apply elem_of_nil in H |].
    intros (l & _ & H). now apply elem_of_nil in H.
  - rewrite elem_of_app, IH. split.
    + intros [H | (l & Hx & Hl)].
      * exists l0. split; [exact H | apply elem_of_cons; now left].
      * exists l. split; [exact Hx | apply elem_of_cons; now right].
    + intros (l & Hx & Hl). apply elem_of_cons in Hl as [-> | Hl]; [now left |].
      right. now exists l.
Qed.

Lemma mapThrow_slotOf_host h l : forall slots,
  mapThrow (slotOf h) l = Returned slots ->
  Forall (fun s => slot_host_id s = host_id h /\ slot_host_name s = display_name h)
    slots.
Proof.
  induction l as [| a l IH]; cbn [mapThrow]; intros slots.
  - intros [= <-]. constructor.
  - unfold slotOf at 1.
    destruct (addMinutesISO (raw_start_time a) durationMinutes) as [e | err];
      [| discriminate].
    destruct (mapThrow (slotOf h) l) as [ys | err]; [| discriminate].
    intros [= <-]. constructor; [now split | now apply IH].
Qed.

Lemma settledSlots_host start end_ tz c h :
  Forall (fun s => slot_host_id s = host_id h /\ slot_host_name s = display_name h)
    (slotsOf (settledSlots start end_ tz c h)).
Proof.
  unfold settledSlots.
  destruct (hostSlots start end_ tz h _) as [[v | err] w'] eqn:E;
    cbn [fst settle slotsOf]; [| constructor].
  apply hostSlots_Returned in E as (_ & token & e & data & w1 & _ & _ & _ & Hm).
  now apply mapThrow_slotOf_host in Hm.
Qed.

(** Among slots of distinct start strings, at most one has a given one. *)
Lemma filter_start_NoDup (l : list Slot) x :
  NoDup (map slot_start_time l) ->
  (length (filter (fun s => slot_start_time s = x) l) <= 1)%nat.
Proof.
  induction l as [| s l IH]; cbn [map]; intros Hnd; [cbn; lia |].
  apply NoDup_cons in Hnd as [Hs Hnd]. rewrite filter_cons.
  destruct (decide (slot_start_time s = x)) as [E | E]; [| now apply IH].
  assert (filter (fun s0 => slot_start_time s0 = x) l = []) as ->.
  { destruct (filter _ l) as [| s' r] eqn:Ef; [reflexivity |]. exfalso.
    assert (s' ∈ filter (fun s0 => slot_start_time s0 = x) l) as Hin
        by (rewrite Ef; apply elem_of_cons; now left).
    apply list_elem_of_filter in Hin as [Hx Hin]. apply Hs.
    rewrite E, <- Hx. apply list_elem_of_fmap. now exists s'. }
  cbn; lia.
Qed.

Lemma host_ids_NoDup (f : Host -> list Slot) x (hs : list Host) :
  NoDup (map host_id hs) ->
  (forall h, h ∈ hs -> Forall (fun s => slot_host_id s = host_id h) (f h)) ->
  (forall h, h ∈ hs -> NoDup (map slot_start_time (f h))) ->
  NoDup (map slot_host_id
           (filter (fun s => slot_start_time s = x) (concat (map f hs)))).
Proof.
  induction hs as [| h hs IH]; cbn [map concat]; intros Hnd Hid Hst;
    [constructor |].
  apply NoDup_cons in Hnd as [Hh Hnd].
  rewrite filter_app, map_app. apply NoDup_app. split; [| split].
  - pose proof (filter_start_NoDup (f h) x (Hst h ltac:(apply elem_of_cons; now left))).
    destruct (filter _ (f h)) as [| s [| s' r]]; cbn in *;
      [constructor | apply NoDup_singleton | lia].
  - intros i Hi Hi'.
    apply list_elem_of_fmap in Hi as (s & -> & Hs).
    apply list_elem_of_filter in Hs as [_ Hs].
    pose proof (Hid h ltac:(apply elem_of_cons; now left)) as Hfh.
    rewrite Forall_forall in Hfh. rewrite (Hfh s Hs) in Hi'.
    apply list_elem_of_fmap in Hi' as (s' & Es' & Hs').
    apply list_elem_of_filter in Hs' as [_ Hs'].
    apply elem_of_concat in Hs' as (l' & Hs' & Hl').
    apply list_elem_of_fmap in Hl' as (h' & -> & Hh').
    pose proof (Hid h' ltac:(apply elem_of_cons; now right)) as Hfh'.
    rewrite Forall_forall in Hfh'. rewrite (Hfh' s' Hs') in Es'.
    apply Hh. rewrite Es'. apply list_elem_of_fmap. now exists h'.
  - apply IH; [exact Hnd | |]; intros h' Hh'.
    + apply Hid, elem_of_cons. now right.
    + apply Hst, elem_of_cons. now right.
Qed.


(** ** The callbacks of [getUnionSlots] and the answers of the provider *)

Lemma mapThrow_all {A B} (f : A -> Outcome B) l :
  (forall a, a ∈ l -> exists b, f a = Returned b) ->
  exists bs, mapThrow f l = Returned bs.
Proof.
  induction l as [| a l IH]; intros Hall; cbn [mapThrow]; [now eexists |].
  destruct (Hall a) as (b & ->); [left |].
  destruct IH as (bs & ->); [intros x Hx; apply Hall; now right |].
  now eexists.
Qed.

Lemma mapThrow_slotOf_elem h l : forall slots a,
  mapThrow (slotOf h) l = Returned slots -> a ∈ l ->
  exists s, s ∈ slots /\ slot_start_time s = raw_start_time a
            /\ hostRefOf s = hostRef h.
Proof.
  induction l as [| x l IH]; cbn [mapThrow]; intros slots a Hm Hin;
    [now apply elem_of_nil in Hin |].
  unfold slotOf at 1 in Hm.
  destruct (addMinutesISO (raw_start_time x) durationMinutes) as [e | err];
    [| discriminate].
  destruct (mapThrow (slotOf h) l) as [ys | err] eqn:Ey; [| discriminate].
  injection Hm as <-. apply elem_of_cons in Hin as [-> | Hin].
  - eexists. split; [left |]. split; reflexivity.
  - destruct (IH ys a eq_refl Hin) as (s & Hs & Hst & Hr).
    exists s. split; [now right | now split].
Qed.

Lemma elem_of_mapThrow_slotOf h l : forall slots s,
  mapThrow (slotOf h) l = Returned slots -> s ∈ slots ->
  exists a, a ∈ l /\ slot_start_time s = raw_start_time a
            /\ hostRefOf s = hostRef h.
Proof.
  induction l as [| x l IH]; cbn [mapThrow]; intros slots s Hm Hin.
  - injection Hm as <-. now apply elem_of_nil in Hin.
  - unfold slotOf at 1 in Hm.
    destruct (addMinutesISO (raw_start_time x) durationMinutes) as [e | err];
      [| discriminate].
    destruct (mapThrow (slotOf h) l) as [ys | err] eqn:Ey; [| discriminate].
    injection Hm as <-. apply elem_of_cons in Hin as [-> | Hin].
    + exists x. split; [left |]. split; reflexivity.
    + destruct (IH ys s eq_refl Hin) as (a & Ha & Hst & Hr).
      exists a. split; [now right | now split].
Qed.

(** The promise of a host the provider answers. *)
Lemma answers_settled start end_ tz c h entries :
  answers start end_ tz c h entries ->
  settledSlots start end_ tz c h
  = settle match mapThrow (slotOf h) entries with
           | Returned slots => Returned (h, slots)
           | Thrown err => Thrown err
           end.
Proof.
  intros (token & e & w1 & r & Ht & Er & Eu & Eok & Eb).
  unfold settledSlots, hostSlots. rewrite Ht. unfold bind at 1. rewrite Er.
  unfold bind at 1, calendly, bind at 1, fetch. rewrite Eu, Eok. cbn [negb].
  unfold json. rewrite Eb. unfold ret, bind, lift. cbn [availableTimes].
  now destruct (mapThrow (slotOf h) entries).
Qed.

(** Every slot of the promise of a host is an entry of an answer of the
    provider. *)
Lemma slot_answered start end_ tz c h s :
  s ∈ slotsOf (settledSlots start end_ tz c h) ->
  exists entries a,
    answers start end_ tz c h entries /\ a ∈ entries
    /\ slot_start_time s = raw_start_time a /\ hostRefOf s = hostRef h.
Proof.
  unfold settledSlots, hostSlots.
  destruct (truthy (env (pat_env h))) as [token |] eqn:Ht;
    [| intros H; now apply elem_of_nil in H].
  unfold bind at 1.
  destruct (resolveEventTypeApiUriForHost h _) as [[e | err] w1] eqn:Er;
    [| intros H; now apply elem_of_nil in H].
  unfold bind at 1, calendly, bind at 1, fetch.
  destruct (upstream _) as [r | reason] eqn:Eu;
    [| intros H; now apply elem_of_nil in H].
  destruct (ok r) eqn:Eok; cbn [negb]; [| intros H; now apply elem_of_nil in H].
  unfold json. destruct (body r) as [p | raw] eqn:Eb;
    [| intros H; now apply elem_of_nil in H].
  unfold ret, bind, lift.
  destruct (mapThrow (slotOf h) (availableTimes p)) as [slots | err] eqn:Em;
    [| intros H; now apply elem_of_nil in H].
  cbn [fst settle slotsOf snd]. intros Hin.
  destruct (elem_of_mapThrow_slotOf h _ slots s Em Hin) as (a & Ha & Hst & Hr).
  destruct p as [| | entries | |]; cbn [availableTimes] in Ha;
    try (now apply elem_of_nil in Ha).
  exists entries, a. split; [| now repeat split].
  now exists token, e, w1, r.
Qed.

(** Every entry of an answer whose starts are all dates is a slot of the
    promise of its host. *)
Lemma answered_slot start end_ tz c h entries a :
  answers start end_ tz c h entries -> datable entries -> a ∈ entries ->
  exists s, s ∈ slotsOf (settledSlots start end_ tz c h)
            /\ slot_start_time s = raw_start_time a /\ hostRefOf s = hostRef h.
Proof.
  intros Hans Hd Ha. rewrite (answers_settled _ _ _ _ _ _ Hans).
  destruct (mapThrow_all (slotOf h) entries) as (slots & Em).
  { intros x Hx. destruct (Hd x Hx) as (e & He). unfold slotOf. rewrite He.
    now eexists. }
  rewrite Em. cbn [settle slotsOf snd].
  exact (mapThrow_slotOf_elem h entries slots a Em Ha).
Qed.

Lemma elem_of_contributions start end_ tz c s :
  s ∈ contributions start end_ tz c
  <-> exists h, h ∈ roster /\ s ∈ slotsOf (settledSlots start end_ tz c h).
Proof.
  unfold contributions. rewrite elem_of_concat. split.
  - intros (l & Hs & Hl). apply list_elem_of_fmap in Hl as (h & -> & Hh).
    now exists h.
  - intros (h & Hh & Hs). eexists. split; [exact Hs |].
    apply list_elem_of_fmap. now exists h.
Qed.

(** The entry of the union for a slot some host brought. *)
Lemma union_entry_of_slot start end_ tz w s :
  s ∈ contributions start end_ tz (cache w) ->
  exists u, u ∈ unionOf (map (settledSlots start end_ tz (cache w)) roster)
            /\ start_time u = slot_start_time s /\ end_time u = slot_end_time s
            /\ hostRefOf s ∈ hosts u.
Proof.
  set (rs := map (settledSlots start end_ tz (cache w)) roster).
  pose proof (getUnionSlots_slots start end_ tz (cache w)) as Hslots. fold rs in Hslots.
  pose proof (contributions_wf start end_ tz (cache w)) as Hwf.
  assert (Hwf' : Forall wfSlot (concat (map slotsOf rs))) by now rewrite Hslots.
  intros Hs. pose proof Hs as Hs'. rewrite <- Hslots in Hs'.
  destruct (unionOf_cover rs Hwf' s Hs') as (u & Hu & Hst & Hen).
  exists u. repeat split; try assumption.
  destruct (unionOf_entry rs Hwf' u Hu) as (_ & _ & _ & _ & Hh).
  rewrite Hh. apply list_elem_of_fmap. exists s. split; [reflexivity |].
  apply list_elem_of_filter. now split.
Qed.

(** The slot behind an entry of the union. *)
Lemma slot_of_union_entry start end_ tz w u :
  u ∈ unionOf (map (settledSlots start end_ tz (cache w)) roster) ->
  exists s, s ∈ contributions start end_ tz (cache w)
            /\ start_time u = slot_start_time s /\ end_time u = slot_end_time s
            /\ wfSlot s.
Proof.
  set (rs := map (settledSlots start end_ tz (cache w)) roster).
  pose proof (getUnionSlots_slots start end_ tz (cache w)) as Hslots. fold rs in Hslots.
  pose proof (contributions_wf start end_ tz (cache w)) as Hwf.
  assert (Hwf' : Forall wfSlot (concat (map slotsOf rs))) by now rewrite Hslots.
  intros Hu. destruct (unionOf_entry rs Hwf' u Hu) as (s & Hin & Hst & Hen & _).
  rewrite Hslots in Hin. exists s. repeat split; try assumption.
  rewrite Forall_forall in Hwf. now apply Hwf.
Qed.

(** C10.  The merge takes two entries of the provider's answers for one
    slot exactly when their start strings are equal character for
    character.  The result has one entry for each distinct start string
    the provider sent (in an answer whose starts are all dates), with that
    string unchanged and the end 30 minutes later: two strings that differ
    make two entries, whatever instants they denote.  The entries are in
    the order in which [localeCompare] puts these strings. *)
Theorem getUnionSlots_merges_by_string start end_ tz w :
  exists us,
    fst (getUnionSlots start end_ tz w) = Returned us
    /\ NoDup (map start_time us)
    /\ (forall u, u ∈ us ->
          exists h entries a,
            h ∈ roster /\ answers start end_ tz (cache w) h entries /\ a ∈ entries
            /\ start_time u = raw_start_time a
            /\ addMinutesISO (raw_start_time a) 30 = Returned (end_time u))
    /\ (forall h entries a,
          h ∈ roster -> answers start end_ tz (cache w) h entries ->
          datable entries -> a ∈ entries ->
          exists u, u ∈ us /\ start_time u = raw_start_time a
                    /\ hostRef h ∈ hosts u)
    /\ (forall u1 u2, u1 ∈ us -> u2 ∈ us ->
          (u1 = u2 <-> start_time u1 = start_time u2))
    /\ (forall h1 entries1 a1 h2 entries2 a2,
          h1 ∈ roster -> answers start end_ tz (cache w) h1 entries1 ->
          datable entries1 -> a1 ∈ entries1 ->
          h2 ∈ roster -> answers start end_ tz (cache w) h2 entries2 ->
          datable entries2 -> a2 ∈ entries2 ->
          raw_start_time a1 <> raw_start_time a2 ->
          exists u1 u2, u1 ∈ us /\ u2 ∈ us /\ u1 <> u2
            /\ start_time u1 = raw_start_time a1
            /\ start_time u2 = raw_start_time a2)
    /\ (consistent localeCompare ->
        StronglySorted
          (fun a b => localeCompare (start_time a) (start_time b) <= 0) us).
Proof.
  set (rs := map (settledSlots start end_ tz (cache w)) roster).
  pose proof (getUnionSlots_slots start end_ tz (cache w)) as Hslots. fold rs in Hslots.
  pose proof (contributions_wf start end_ tz (cache w)) as Hwf.
  assert (Hwf' : Forall wfSlot (concat (map slotsOf rs))) by now rewrite Hslots.
  assert (Hnd : NoDup (map start_time (unionOf rs)))
    by exact (unionOf_NoDup_start rs Hwf').
  assert (Hin : forall h entries a,
            h ∈ roster -> answers start end_ tz (cache w) h entries ->
            datable entries -> a ∈ entries ->
            exists u, u ∈ unionOf rs /\ start_time u = raw_start_time a
                      /\ hostRef h ∈ hosts u).
  { intros h entries a Hh Hans Hd Ha.
    destruct (answered_slot _ _ _ _ _ _ a Hans Hd Ha) as (s & Hs & Hst & Hr).
    destruct (union_entry_of_slot start end_ tz w s) as (u & Hu & Hsu & _ & Hhu).
    { apply elem_of_contributions. now exists h. }
    exists u. split; [exact Hu |]. split; [congruence | now rewrite <- Hr]. }
  exists (unionOf rs). split; [apply getUnionSlots_Returned |].
  repeat apply conj.
  - exact Hnd.
  - intros u Hu.
    destruct (slot_of_union_entry start end_ tz w u Hu) as (s & Hs & Hst & Hen & Hw).
    apply elem_of_contributions in Hs as (h & Hh & Hs).
    destruct (slot_answered _ _ _ _ _ _ Hs) as (entries & a & Hans & Ha & Hsa & _).
    exists h, entries, a. repeat split; try assumption; [congruence |].
    unfold wfSlot, durationMinutes in Hw. now rewrite Hen, <- Hsa.
  - exact Hin.
  - intros u1 u2 H1 H2. split; [now intros -> |]. intros E.
    apply list_elem_of_lookup in H1 as (i & Hi). apply list_elem_of_lookup in H2 as (j & Hj).
    assert (i = j) as ->.
    { apply (NoDup_lookup _ i j (start_time u1) Hnd).
      - now rewrite list_lookup_fmap, Hi.
      - now rewrite list_lookup_fmap, Hj, E. }
    congruence.
  - intros h1 entries1 a1 h2 entries2 a2 Hh1 Hans1 Hd1 Ha1 Hh2 Hans2 Hd2 Ha2 Hne.
    destruct (Hin h1 entries1 a1 Hh1 Hans1 Hd1 Ha1) as (u1 & Hu1 & Hs1 & _).
    destruct (Hin h2 entries2 a2 Hh2 Hans2 Hd2 Ha2) as (u2 & Hu2 & Hs2 & _).
    exists u1, u2. repeat split; try assumption. congruence.
  - exact (unionOf_sorted rs).
Qed.

(** ** The window of [GET /api/slots] *)

Lemma timeClip_Some t : - maxTime <= t <= maxTime -> timeClip t = Some t.
Proof.
  intros H. unfold timeClip.
  destruct (Z.abs t <=? maxTime) eqn:E; [reflexivity |].
  apply Z.leb_gt in E. lia.
Qed.

Lemma timeClip_range t u : timeClip t = Some u -> u = t /\ - maxTime <= t <= maxTime.
Proof.
  unfold timeClip. destruct (Z.abs t <=? maxTime) eqn:E; [| discriminate].
  apply Z.leb_le in E. intros [= <-]. lia.
Qed.

Lemma timeClip_None t : maxTime < t -> timeClip t = None.
Proof.
  intros H. unfold timeClip.
  destruct (Z.abs t <=? maxTime) eqn:E; [| reflexivity].
  apply Z.leb_le in E. lia.
Qed.

(** A date that is not NaN is in the range of time values. *)
Lemma dateParse_range s t : dateParse s = Some t -> - maxTime <= t <= maxTime.
Proof.
  unfold dateParse. destruct (parseISO s) as [u |].
  - intros H. now apply timeClip_range in H as [-> ?].
  - destruct (parseOther s) as [u |]; [| discriminate]. cbn.
    intros H. now apply timeClip_range in H as [-> ?].
Qed.

Lemma newDate_range v t : newDate v = Some t -> - maxTime <= t <= maxTime.
Proof. destruct v as [s |]; [apply dateParse_range | discriminate]. Qed.

(** [Date.parse] reads back what [toISOString] wrote. *)
Lemma dateParse_isoOfTime t :
  - maxTime <= t <= maxTime -> dateParse (isoOfTime t) = Some t.
Proof.
  intros H. unfold dateParse. rewrite parseISO_isoOfTime by exact H.
  now apply timeClip_Some.
Qed.

Lemma clampWindow_clampSpec now start end_ :
  - maxTime <= now <= maxTime - 60000 ->
  clampWindow now start end_ = clampSpec now start end_.
Proof.
  intros Hnow. unfold clampWindow, clampSpec.
  destruct (newDate start) as [rs |] eqn:Es; [| reflexivity].
  destruct (newDate end_) as [re |] eqn:Ee; [| reflexivity].
  apply newDate_range in Es, Ee. unfold maxTime in *.
  cbn [isNaN orb newDateOfNumber mbind option_bind].
  rewrite (timeClip_Some (now + 60000)) by (unfold maxTime; lia).
  cbn [numLt].
  assert (Hcs : (if rs <? now + 60000 then Some (now + 60000) else Some rs)
                = Some (Z.max rs (now + 60000))).
  { destruct (rs <? now + 60000) eqn:E;
      [apply Z.ltb_lt in E | apply Z.ltb_ge in E]; f_equal; lia. }
  rewrite Hcs. cbn [mbind option_bind]. cbv zeta.
  set (cs := Z.max rs (now + 60000)).
  assert (Hcsr : -8640000000000000 <= cs <= 8640000000000000) by (subst cs; lia).
  destruct (Z.leb (cs + sevenDays) 8640000000000000) eqn:Efit.
  - apply Z.leb_le in Efit. cbn [newDateOfNumber mbind option_bind].
    rewrite (timeClip_Some (cs + sevenDays)) by (unfold maxTime, sevenDays in *; lia).
    cbn [numLt].
    destruct (cs + sevenDays <? re) eqn:E;
      [apply Z.ltb_lt in E | apply Z.ltb_ge in E]; cbn [numLe].
    + rewrite Z.min_r by lia. reflexivity.
    + rewrite Z.min_l by lia. reflexivity.
  - apply Z.leb_gt in Efit. cbn [newDateOfNumber mbind option_bind].
    rewrite (timeClip_None (cs + sevenDays)) by (unfold maxTime; lia).
    cbn [numLt numLe].
    rewrite Z.min_l by lia. reflexivity.
Qed.


(** ** The order of the union *)

Lemma StronglySorted_impl_elem {A} (R R' : A -> A -> Prop) (l : list A) :
  (forall x y, x ∈ l -> y ∈ l -> R x y -> R' x y) ->
  StronglySorted R l -> StronglySorted R' l.
Proof.
  intros Himp Hs. induction Hs as [| x l Hs IH Hx]; [constructor |].
  constructor.
  - apply IH. intros a b Ha Hb. apply Himp; apply elem_of_cons; now right.
  - rewrite Forall_forall in *. intros y Hy.
    apply Himp; [apply elem_of_cons; now left | apply elem_of_cons; now right |].
    now apply Hx.
Qed.

Lemma isDigit_digitChar n : 0 <= n <= 9 -> isDigit (digitChar n) = true.
Proof.
  intros H. pose proof (digit_cases n H) as Hd.
  remember (digitChar n) as c eqn:Hc. clear Hc.
  repeat (destruct Hd as [<- | Hd]; [reflexivity |]). destruct Hd.
Qed.

Lemma sameShape_app a : forall b c d,
  sameShape a b = true -> sameShape c d = true ->
  sameShape (a ++ c) (b ++ d) = true.
Proof.
  induction a as [| x a IH]; intros [| y b] c d Hab Hcd; cbn [sameShape] in Hab;
    try discriminate.
  - now rewrite !append_EmptyString.
  - rewrite !append_String. cbn [sameShape].
    apply andb_true_iff in Hab as [-> Hab]. now apply IH.
Qed.

Lemma sameShape_pad k n m : sameShape (pad k n) (pad k m) = true.
Proof.
  induction k as [| k IH]; [reflexivity |]. cbn [pad sameShape].
  rewrite !isDigit_digitChar, IH; [reflexivity | |].
  - pose proof (Z.mod_pos_bound (m / 10 ^ Z.of_nat k) 10 ltac:(lia)). lia.
  - pose proof (Z.mod_pos_bound (n / 10 ^ Z.of_nat k) 10 ltac:(lia)). lia.
Qed.

(** Two strings in the canonical form of the years 0000 to 9999 are of
    one shape. *)
Lemma sameShape_isoOfTime x y :
  -62167219200000 <= x <= 253402300799999 ->
  -62167219200000 <= y <= 253402300799999 ->
  sameShape (isoOfTime x) (isoOfTime y) = true.
Proof.
  intros Hx Hy. unfold isoOfTime.
  assert (Hdx : -719528 <= x / msPerDay <= 2932896)
    by (unfold msPerDay; Z.div_mod_to_equations; lia).
  assert (Hdy : -719528 <= y / msPerDay <= 2932896)
    by (unfold msPerDay; Z.div_mod_to_equations; lia).
  destruct (civilFromDays (x / msPerDay)) as [[y1 m1] d1] eqn:E1.
  destruct (civilFromDays (y / msPerDay)) as [[y2 m2] d2] eqn:E2.
  pose proof (civilFromDays_year _ _ _ _ Hdx E1) as Hy1.
  pose proof (civilFromDays_year _ _ _ _ Hdy E2) as Hy2.
  unfold yearString.
  replace ((0 <=? y1) && (y1 <=? 9999)) with true
    by (symmetry; apply andb_true_iff; split; apply Z.leb_le; lia).
  replace ((0 <=? y2) && (y2 <=? 9999)) with true
    by (symmetry; apply andb_true_iff; split; apply Z.leb_le; lia).
  repeat (apply sameShape_app; [first [apply sameShape_pad | reflexivity] |]).
  reflexivity.
Qed.

(** On strings in the canonical form a collation that orders the digits
    puts the strings in the order of their instants. *)
Lemma canonical_order a b x y :
  ordersDigits localeCompare ->
  -62167219200000 <= x <= 253402300799999 ->
  -62167219200000 <= y <= 253402300799999 ->
  a = isoOfTime x -> b = isoOfTime y ->
  localeCompare a b <= 0 ->
  dateParse a = Some x /\ dateParse b = Some y /\ x <= y.
Proof.
  intros Hdig Hx Hy -> -> Hle.
  rewrite !dateParse_isoOfTime by (unfold maxTime; lia).
  repeat split. apply Hdig in Hle; [| now apply sameShape_isoOfTime].
  apply codeUnitCompare_le in Hle.
  destruct (Z_le_gt_dec x y) as [H | H]; [exact H |]. exfalso. apply Hle.
  rewrite String.compare_antisym.
  now rewrite (isoOfTime_mono y x) by lia.
Qed.

(** C8 (as amended).  The result of [getUnionSlots] is in the order in
    which [localeCompare] puts the start strings, a consistent comparator
    as every collation is.  It is in the order of the start instants when
    every start string in the answers of the provider is in the canonical
    form of [toISOString] (UTC, years 0000 to 9999), the collation
    ordering the digits by value. *)
Theorem getUnionSlots_sorted start end_ tz w :
  consistent localeCompare ->
  exists us,
    fst (getUnionSlots start end_ tz w) = Returned us
    /\ StronglySorted
         (fun a b => localeCompare (start_time a) (start_time b) <= 0) us
    /\ (ordersDigits localeCompare ->
        (forall h entries a,
           h ∈ roster -> answers start end_ tz (cache w) h entries ->
           a ∈ entries -> canonicalISO (raw_start_time a)) ->
        StronglySorted byInstant us).
Proof.
  intros Hcons.
  set (rs := map (settledSlots start end_ tz (cache w)) roster).
  pose proof (getUnionSlots_slots start end_ tz (cache w)) as Hslots. fold rs in Hslots.
  pose proof (contributions_wf start end_ tz (cache w)) as Hwf.
  assert (Hwf' : Forall wfSlot (concat (map slotsOf rs))) by now rewrite Hslots.
  exists (unionOf rs). split; [apply getUnionSlots_Returned |].
  split; [exact (unionOf_sorted rs Hcons) |].
  intros Hdig Hcanon.
  apply (StronglySorted_impl_elem
           (fun a b => localeCompare (start_time a) (start_time b) <= 0));
    [| exact (unionOf_sorted rs Hcons)].
  intros a b Ha Hb Hle.
  destruct (unionOf_entry rs Hwf' a Ha) as (sa & Hina & Hsta & _).
  destruct (unionOf_entry rs Hwf' b Hb) as (sb & Hinb & Hstb & _).
  rewrite Hslots in Hina, Hinb.
  assert (Hcanon' : forall s, s ∈ contributions start end_ tz (cache w) ->
                              canonicalISO (slot_start_time s)).
  { intros s Hs. apply elem_of_contributions in Hs as (h & Hh & Hs).
    destruct (slot_answered _ _ _ _ _ _ Hs) as (entries & e & Hans & He & -> & _).
    now apply (Hcanon h entries). }
  destruct (Hcanon' sa Hina) as (x & Hx & Ex).
  destruct (Hcanon' sb Hinb) as (y & Hy & Ey).
  rewrite <- Hsta in Ex. rewrite <- Hstb in Ey.
  destruct (canonical_order _ _ x y Hdig Hx Hy Ex Ey Hle) as (Pa & Pb & Hxy).
  unfold byInstant. now rewrite Pa, Pb.
Qed.

(** ** The exact-slot check *)

Lemma numEq_Some a t : numEq a (Some t) = true <-> a = Some t.
Proof.
  destruct a as [x |]; cbn [numEq]; [| split; discriminate].
  rewrite Z.eqb_eq. split; congruence.
Qed.

Lemma toISO_Returned s iso :
  toISO s = Returned iso <-> exists t, dateParse s = Some t /\ iso = isoOfTime t.
Proof.
  unfold toISO, toISOString, newDate. cbn [mbind option_bind].
  destruct (dateParse s) as [t |]; split.
  - intros [= <-]. now exists t.
  - intros (t' & [= <-] & ->). reflexivity.
  - discriminate.
  - intros (t' & [=] & _).
Qed.

Lemma sameInstant_isoOfTime v t :
  - maxTime <= t <= maxTime ->
  sameInstant v (Some (isoOfTime t)) = true <-> newDate v = Some t.
Proof.
  intros H. unfold sameInstant.
  change (newDate (Some (isoOfTime t))) with (dateParse (isoOfTime t)).
  rewrite dateParse_isoOfTime by exact H. apply numEq_Some.
Qed.

(** C4.  [hostHasExactSlot] returns true exactly when the provider
    answers the availability query (sent for the canonical forms of the
    two instants, in UTC) with a 2xx whose collection holds an entry whose
    start and whose end denote the very instants asked for; an entry that
    differs at an endpoint does not count, whatever it overlaps. *)
Theorem hostHasExactSlot_true_iff host st en w w' :
  hostHasExactSlot host st en w = (Returned true, w')
  <-> exists e w1 ts te r entries a,
        resolveEventTypeApiUriForHost host w = (Returned e, w1)
        /\ dateParse st = Some ts /\ dateParse en = Some te
        /\ let query := {| bearer := env (pat_env host);
                           endpoint := AvailableTimes e (isoOfTime ts)
                                         (isoOfTime te) "UTC" |} in
           upstream query = Responded r
           /\ ok r = true
           /\ body r = BodyJson (PAvailableTimes entries)
           /\ a ∈ entries
           /\ newDate (Some (raw_start_time a)) = Some ts
           /\ newDate (raw_end_time a) = Some te
           /\ w' = {| cache := cache w1; sent := sent w1 ++ [query] |}.
Proof.
  unfold hostHasExactSlot. split.
  - intros H. unfold bind at 1 in H.
    destruct (resolveEventTypeApiUriForHost host w) as [[e | err] w1] eqn:Er;
      [| discriminate].
    unfold bind at 1, lift at 1 in H.
    destruct (toISO st) as [startISO | err] eqn:Es; [| discriminate].
    unfold bind at 1, lift at 1 in H.
    destruct (toISO en) as [endISO | err] eqn:Ee; [| discriminate].
    apply toISO_Returned in Es as (ts & Hts & ->).
    apply toISO_Returned in Ee as (te & Hte & ->).
    unfold tryCatch, bind at 1, calendly, bind at 1, fetch in H.
    destruct (upstream _) as [r | reason] eqn:Eu; [| discriminate].
    destruct (ok r) eqn:Eok; cbn [negb] in H; [| discriminate].
    unfold json in H. destruct (body r) as [p | raw] eqn:Eb; [| discriminate].
    unfold ret in H. injection H as H <-.
    apply existsb_exists in H as (a & Hin & Ha).
    destruct p as [| | entries | |]; cbn [availableTimes] in Hin;
      try contradiction.
    apply andb_true_iff in Ha as [Ha1 Ha2].
    apply sameInstant_isoOfTime in Ha1; [| now apply dateParse_range in Hts].
    apply sameInstant_isoOfTime in Ha2; [| now apply dateParse_range in Hte].
    exists e, w1, ts, te, r, entries, a. cbv zeta.
    repeat split; try assumption. now apply list_elem_of_In.
  - intros (e & w1 & ts & te & r & entries & a
            & Er & Hts & Hte & Eu & Eok & Eb & Hin & Ha1 & Ha2 & ->).
    unfold bind at 1. rewrite Er.
    assert (Es : toISO st = Returned (isoOfTime ts))
      by (apply toISO_Returned; now exists ts).
    assert (Ee : toISO en = Returned (isoOfTime te))
      by (apply toISO_Returned; now exists te).
    unfold bind at 1, lift at 1. rewrite Es.
    unfold bind at 1, lift at 1. rewrite Ee.
    unfold tryCatch, bind at 1, calendly, bind at 1, fetch. rewrite Eu, Eok.
    cbn [negb]. unfold json. rewrite Eb. unfold ret. cbn [availableTimes].
    f_equal. f_equal. apply existsb_exists. exists a.
    split; [now apply list_elem_of_In |].
    apply andb_true_iff. split.
    + apply sameInstant_isoOfTime; [now apply dateParse_range in Hts | exact Ha1].
    + apply sameInstant_isoOfTime; [now apply dateParse_range in Hte | exact Ha2].
Qed.

(** The part of the check that fails closed: once the event type is
    resolved and both instants are read, a failed availability query makes
    the answer [false]. *)
Lemma hostHasExactSlot_query_fails host st en w e w1 ts te err w2 :
  resolveEventTypeApiUriForHost host w = (Returned e, w1) ->
  dateParse st = Some ts -> dateParse en = Some te ->
  calendly (env (pat_env host))
    (AvailableTimes e (isoOfTime ts) (isoOfTime te) "UTC") w1 = (Thrown err, w2) ->
  hostHasExactSlot host st en w = (Returned false, w2).
Proof.
  intros Er Hts Hte Ec. unfold hostHasExactSlot.
  assert (Es : toISO st = Returned (isoOfTime ts))
    by (apply toISO_Returned; now exists ts).
  assert (Ee : toISO en = Returned (isoOfTime te))
    by (apply toISO_Returned; now exists te).
  unfold bind at 1. rewrite Er.
  unfold bind at 1, lift at 1. rewrite Es.
  unfold bind at 1, lift at 1. rewrite Ee.
  unfold tryCatch, bind. rewrite Ec. reflexivity.
Qed.

(** A failure of the resolution is not caught: it leaves the check as it
    left the resolver. *)
Lemma hostHasExactSlot_resolution_throws host st en w err w1 :
  resolveEventTypeApiUriForHost host w = (Thrown err, w1) ->
  hostHasExactSlot host st en w = (Thrown err, w1).
Proof. intros Er. unfold hostHasExactSlot, bind. now rewrite Er. Qed.

(** ** Booking *)

Lemma eligibleLoop_Scanned startISO endISO hs : forall acc w els w',
  eligibleLoop startISO endISO hs acc w = (Returned els, w')
  <-> exists more, els = acc ++ more /\ Scanned startISO endISO hs w more w'.
Proof.
  assert (same : forall A (x y z : A), x = y -> x = z -> y = z) by congruence.
  induction hs as [| h r IH]; intros acc w els w'; cbn [eligibleLoop].
  - unfold ret. split.
    + intros [= <- <-]. exists []. split; [now rewrite app_nil_r | constructor].
    + intros (more & -> & Hs). inversion Hs; subst. now rewrite app_nil_r.
  - unfold bind at 1.
    destruct (hostHasExactSlot h startISO endISO w) as [[[|] | err] w1] eqn:Eh.
    + unfold bind at 1.
      destruct (resolveEventTypeApiUriForHost h w1) as [[e | err] w2] eqn:Er.
      * rewrite IH. split.
        -- intros (more & -> & Hs). exists ({| elig_host := h; et := e |} :: more).
           split; [now rewrite <- app_assoc |]. econstructor; eassumption.
        -- intros (more & -> & Hs).
           inversion Hs as [| ? ? ? wa ea wb elsa ? Ha Hb Hc | ? ? ? wa elsa ? Ha Hc];
             subst.
           ++ pose proof (same _ _ _ _ Eh Ha) as [= <-].
              pose proof (same _ _ _ _ Er Hb) as [= <- <-].
              exists elsa. split; [now rewrite <- app_assoc | assumption].
           ++ pose proof (same _ _ _ _ Eh Ha) as [=].
      * split; [discriminate |].
        intros (more & -> & Hs).
        inversion Hs as [| ? ? ? wa ea wb elsa ? Ha Hb Hc | ? ? ? wa elsa ? Ha Hc];
          subst.
        -- pose proof (same _ _ _ _ Eh Ha) as [= <-].
           pose proof (same _ _ _ _ Er Hb) as [=].
        -- pose proof (same _ _ _ _ Eh Ha) as [=].
    + rewrite IH. split.
      * intros (more & -> & Hs). exists more. split; [reflexivity |].
        eapply Scanned_no; eassumption.
      * intros (more & -> & Hs).
        inversion Hs as [| ? ? ? wa ea wb elsa ? Ha Hb Hc | ? ? ? wa elsa ? Ha Hc];
          subst.
        -- pose proof (same _ _ _ _ Eh Ha) as [=].
        -- pose proof (same _ _ _ _ Eh Ha) as [= <-]. now exists more.
    + split; [discriminate |].
      intros (more & -> & Hs).
      inversion Hs as [| ? ? ? wa ea wb elsa ? Ha Hb Hc | ? ? ? wa elsa ? Ha Hc];
        subst; pose proof (same _ _ _ _ Eh Ha) as [=].
Qed.

(** The eligible hosts are hosts of the roster, in its order. *)
Lemma Scanned_sublist startISO endISO hs w els w' :
  Scanned startISO endISO hs w els w' -> map elig_host els `sublist_of` hs.
Proof.
  induction 1; cbn [map elig_host].
  - constructor.
  - now apply sublist_skip.
  - now apply sublist_cons.
Qed.

(** Up to the choice of a host, a run of [book] is the loop; from there
    on it is the reservation for the head of the sorted list. *)
Lemma book_reserve b w st en email name startISO endISO eligible w1 chosen rest :
  requiredFields b = Some (st, en, email, name) ->
  toISO st = Returned startISO -> toISO en = Returned endISO ->
  eligibleLoop startISO endISO roster [] w = (Returned eligible, w1) ->
  jsSort byPriority eligible = chosen :: rest ->
  book b w = tryCatch (reserve chosen startISO endISO name email) internalError w1.
Proof.
  intros Hf Hs He Hl Hc. unfold book, tryCatch at 1. rewrite Hf.
  unfold bind at 1, lift at 1. rewrite Hs.
  unfold bind at 1, lift at 1. rewrite He.
  unfold bind at 1. rewrite Hl.
  destruct eligible as [| x l]; [discriminate |].
  rewrite Hc. reflexivity.
Qed.

Lemma reserve_first_request chosen startISO endISO name email w :
  exists rest,
    sent (snd (tryCatch (reserve chosen startISO endISO name email) internalError w))
    = sent w ++ {| bearer := env (pat_env (elig_host chosen));
                   endpoint := EventInvitees (et chosen) startISO endISO name email |}
             :: rest.
Proof.
  unfold tryCatch, reserve, bind at 1, fetch at 1.
  destruct (upstream _) as [r | reason]; [| now exists []].
  destruct (ok r).
  - unfold bind, json. destruct (body r); now exists [].
  - destruct (existsb _ _); [| now exists []].
    unfold bind at 1, fetch at 1. cbn [sent cache].
    destruct (upstream _) as [lr | reason];
      [| eexists; cbn [snd sent internalError ret]; now rewrite <- app_assoc].
    destruct (negb (ok lr)); [eexists; cbn; now rewrite <- app_assoc |].
    unfold bind, json.
    destruct (body lr); eexists; cbn; now rewrite <- app_assoc.
Qed.

Lemma reserve_host_assigned chosen startISO endISO name email w r w' :
  tryCatch (reserve chosen startISO endISO name email) internalError w
  = (Returned r, w') ->
  api_status r = 200 ->
  hostAssigned (api_body r) = Some (display_name (elig_host chosen)).
Proof.
  unfold tryCatch, reserve, bind at 1, fetch at 1.
  destruct (upstream _) as [r0 | reason];
    [| cbn; intros [= <- _]; discriminate].
  destruct (ok r0).
  - unfold bind, json.
    destruct (body r0); cbn; intros [= <- _]; [reflexivity | discriminate].
  - destruct (existsb _ _); [| cbn; intros [= <- _]; discriminate].
    unfold bind at 1, fetch at 1.
    destruct (upstream _) as [lr | reason];
      [| cbn; intros [= <- _]; discriminate].
    destruct (negb (ok lr)); [cbn; intros [= <- _]; discriminate |].
    unfold bind, json.
    destruct (body lr); cbn; intros [= <- _]; [reflexivity | discriminate].
Qed.

(** X27.  When the loop of [book] over the roster runs to its end (no
    verification throws) and leaves a non-empty set of eligible hosts (the
    hosts found to offer the exact slot, in roster order), [book] reserves for
    the eligible host of greatest [priority_weight], and among several of
    that weight for the one listed first: every eligible host before the
    chosen one weighs strictly less, none after it weighs more. *)
Theorem book_selects_first_greatest
    b w st en email name startISO endISO eligible w1 :
  requiredFields b = Some (st, en, email, name) ->
  toISO st = Returned startISO -> toISO en = Returned endISO ->
  eligibleLoop startISO endISO roster [] w = (Returned eligible, w1) ->
  eligible <> [] ->
  Scanned startISO endISO roster w eligible w1
  /\ map elig_host eligible `sublist_of` roster
  /\ exists chosen l1 l2,
      eligible = l1 ++ chosen :: l2
      /\ Forall (fun h => priority_weight (elig_host h)
                          < priority_weight (elig_host chosen)) l1
      /\ Forall (fun h => priority_weight (elig_host h)
                          <= priority_weight (elig_host chosen)) l2
      /\ book b w
         = tryCatch (reserve chosen startISO endISO name email) internalError w1
      /\ (exists rest,
            sent (snd (book b w))
            = sent w1
                ++ {| bearer := env (pat_env (elig_host chosen));
                      endpoint := EventInvitees (et chosen) startISO endISO
                                    name email |} :: rest)
      /\ (forall r w2, book b w = (Returned r, w2) -> api_status r = 200 ->
            hostAssigned (api_body r) = Some (display_name (elig_host chosen))).
Proof.
  intros Hf Hs He Hl Hne.
  assert (Hscan : Scanned startISO endISO roster w eligible w1).
  { apply eligibleLoop_Scanned in Hl as (more & -> & Hsc). exact Hsc. }
  split; [exact Hscan |]. split; [now apply Scanned_sublist in Hscan |].
  destruct (jsSort_byPriority_head eligible Hne)
    as (chosen & rest & l1 & l2 & Hsort & Hsplit & H1 & H2).
  exists chosen, l1, l2.
  pose proof (book_reserve b w st en email name startISO endISO eligible w1
                chosen rest Hf Hs He Hl Hsort) as Hb.
  repeat split; try assumption.
  - rewrite Hb. apply reserve_first_request.
  - intros r w2. rewrite Hb. apply reserve_host_assigned.
Qed.

Lemma fallbackStatuses_iff st :
  existsb (Z.eqb st) fallbackStatuses = true <-> st = 403 \/ st = 404 \/ st = 422.
Proof.
  unfold fallbackStatuses. cbn [existsb]. rewrite !orb_true_iff, !Z.eqb_eq.
  intuition discriminate.
Qed.

(** What [book] makes of a rejected direct reservation. *)
Lemma reserve_rejected chosen startISO endISO name email w r :
  upstream {| bearer := env (pat_env (elig_host chosen));
              endpoint := EventInvitees (et chosen) startISO endISO name email |}
  = Responded r ->
  ok r = false ->
  tryCatch (reserve chosen startISO endISO name email) internalError w
  = if existsb (Z.eqb (status r)) fallbackStatuses then
      (match upstream {| bearer := env (pat_env (elig_host chosen));
                         endpoint := SchedulingLinks (et chosen) 1 |} with
       | Responded lr =>
           if ok lr then
             match body lr with
             | BodyJson link =>
                 Returned {| api_status := 200;
                             api_body := RedirectBody (bookingUrl link)
                                           (display_name (elig_host chosen)) |}
             | BodyText raw =>
                 Returned {| api_status := 500;
                             api_body := ErrorBody (Unexpected (InvalidJson raw)) |}
             end
           else
             Returned {| api_status := 502;
                         api_body := ErrorBody
                                       (FallbackLinkFailed (status lr) (body lr)) |}
       | FetchFailed reason =>
           Returned {| api_status := 500;
                       api_body := ErrorBody (Unexpected (NetworkError reason)) |}
       end,
       {| cache := cache w;
          sent := sent w
                    ++ [ {| bearer := env (pat_env (elig_host chosen));
                            endpoint := EventInvitees (et chosen) startISO endISO
                                          name email |};
                         {| bearer := env (pat_env (elig_host chosen));
                            endpoint := SchedulingLinks (et chosen) 1 |} ] |})
    else
      (Returned {| api_status := 502;
                   api_body := ErrorBody (SchedulingApiFailed (status r) (body r)) |},
       {| cache := cache w;
          sent := sent w
                    ++ [ {| bearer := env (pat_env (elig_host chosen));
                            endpoint := EventInvitees (et chosen) startISO endISO
                                          name email |} ] |}).
Proof.
  intros Hd Hok. unfold tryCatch, reserve. unfold bind at 1, fetch at 1.
  rewrite Hd, Hok.
  destruct (existsb (Z.eqb (status r)) fallbackStatuses); [| reflexivity].
  unfold bind at 1, fetch at 1. cbn [sent cache]. rewrite <- app_assoc.
  destruct (upstream {| bearer := _; endpoint := SchedulingLinks _ _ |})
    as [lr | reason]; [| reflexivity].
  destruct (ok lr); cbn [negb]; [| reflexivity].
  unfold bind, json. destruct (body lr); reflexivity.
Qed.


(** *** Requests that do not reserve *)

Lemma quiet_ret {A} (a : A) : quiet (ret a).
Proof. intros w. exists []. split; [now rewrite app_nil_r | constructor]. Qed.

Lemma quiet_throw {A} e : quiet (@throw A e).
Proof. intros w. exists []. split; [now rewrite app_nil_r | constructor]. Qed.

Lemma quiet_lift {A} (o : Outcome A) : quiet (lift o).
Proof. intros w. exists []. split; [now rewrite app_nil_r | constructor]. Qed.

Lemma quiet_bind {A B} (m : Async A) (k : A -> Async B) :
  quiet m -> (forall a, quiet (k a)) -> quiet (bind m k).
Proof.
  intros Hm Hk w. unfold bind. destruct (Hm w) as (l1 & E1 & F1).
  destruct (m w) as [[a | e] w1]; cbn [snd] in E1; [| now exists l1].
  destruct (Hk a w1) as (l2 & E2 & F2). exists (l1 ++ l2). split.
  - now rewrite E2, E1, app_assoc.
  - now apply Forall_app.
Qed.

Lemma quiet_tryCatch {A} (m : Async A) (h : Error -> Async A) :
  quiet m -> (forall e, quiet (h e)) -> quiet (tryCatch m h).
Proof.
  intros Hm Hh w. unfold tryCatch. destruct (Hm w) as (l1 & E1 & F1).
  destruct (m w) as [[a | e] w1]; cbn [snd] in E1; [now exists l1 |].
  destruct (Hh e w1) as (l2 & E2 & F2). exists (l1 ++ l2). split.
  - now rewrite E2, E1, app_assoc.
  - now apply Forall_app.
Qed.

Lemma quiet_calendly token path :
  isReservation {| bearer := token; endpoint := path |} = false ->
  quiet (calendly token path).
Proof.
  intros Hq. unfold calendly. apply quiet_bind.
  - intros w. exists [{| bearer := token; endpoint := path |}]. unfold fetch.
    split; [destruct (upstream _); reflexivity | now repeat constructor].
  - intros res. destruct (negb (ok res)); [apply quiet_throw |].
    unfold json. destruct (body res); [apply quiet_ret | apply quiet_throw].
Qed.

Lemma quiet_resolve h : quiet (resolveEventTypeApiUriForHost h).
Proof.
  unfold resolveEventTypeApiUriForHost. apply quiet_bind.
  - intros w. exists []. split; [now rewrite app_nil_r | constructor].
  - intros c. destruct (c !! host_id h); [apply quiet_ret |].
    destruct (truthy (env (pat_env h))) as [token |]; [| apply quiet_throw].
    apply quiet_bind; [now apply quiet_calendly |]. intros me.
    destruct (truthy (resourceUri me)) as [userUri |]; [| apply quiet_throw].
    apply quiet_bind; [now apply quiet_calendly |]. intros listing.
    destruct (find _ _); [| apply quiet_throw].
    apply quiet_bind; [| intros; apply quiet_ret].
    intros w. exists []. split; [cbn; now rewrite app_nil_r | constructor].
Qed.

Lemma quiet_hostHasExactSlot h st en : quiet (hostHasExactSlot h st en).
Proof.
  unfold hostHasExactSlot. apply quiet_bind; [apply quiet_resolve |]. intros e.
  apply quiet_bind; [apply quiet_lift |]. intros startISO.
  apply quiet_bind; [apply quiet_lift |]. intros endISO.
  apply quiet_tryCatch; [| intros; apply quiet_ret].
  apply quiet_bind; [now apply quiet_calendly | intros; apply quiet_ret].
Qed.

Lemma quiet_eligibleLoop startISO endISO hs :
  forall acc, quiet (eligibleLoop startISO endISO hs acc).
Proof.
  induction hs as [| h r IH]; intros acc; cbn [eligibleLoop]; [apply quiet_ret |].
  apply quiet_bind; [apply quiet_hostHasExactSlot |]. intros [|]; [| apply IH].
  apply quiet_bind; [apply quiet_resolve |]. intros e. apply IH.
Qed.

(** X28.  When the loop of [book] over the roster runs to its end (no
    verification throws) and leaves no eligible host, [book] answers 409
    and has sent no request that reserves: neither a booking nor a
    scheduling link. *)
Theorem book_no_eligible b w st en email name startISO endISO w1 :
  requiredFields b = Some (st, en, email, name) ->
  toISO st = Returned startISO -> toISO en = Returned endISO ->
  eligibleLoop startISO endISO roster [] w = (Returned [], w1) ->
  fst (book b w)
  = Returned {| api_status := 409; api_body := ErrorBody SlotNoLongerAvailable |}
  /\ exists l, sent (snd (book b w)) = sent w ++ l
               /\ Forall (fun q => isReservation q = false) l.
Proof.
  intros Hf Hs He Hl.
  assert (Hb : book b w
               = (Returned {| api_status := 409;
                              api_body := ErrorBody SlotNoLongerAvailable |}, w1)).
  { unfold book, tryCatch. rewrite Hf.
    unfold bind at 1, lift at 1. rewrite Hs.
    unfold bind at 1, lift at 1. rewrite He.
    unfold bind at 1. now rewrite Hl. }
  rewrite Hb. split; [reflexivity |]. cbn [snd].
  destruct (quiet_eligibleLoop startISO endISO roster [] w) as (l & E & F).
  rewrite Hl in E. now exists l.
Qed.

(** ** A promise that is rejected *)

Lemma unionOf_skip_rejected rs1 err rs2 :
  unionOf (rs1 ++ Rejected err :: rs2) = unionOf (rs1 ++ rs2).
Proof.
  unfold unionOf. do 2 f_equal. rewrite !fold_left_app. reflexivity.
Qed.

Lemma hostFails_Rejected start end_ tz c h :
  hostFails start end_ tz c h ->
  exists err, settledSlots start end_ tz c h = Rejected err.
Proof.
  unfold settledSlots, hostSlots.
  intros [Hpat | [(err & w1 & Hres) | (token & e & w1 & Hpat & Hres & Hup)]].
  - rewrite Hpat. now eexists.
  - destruct (truthy (env (pat_env h))); [| now eexists].
    unfold bind. rewrite Hres. now eexists.
  - rewrite Hpat. unfold bind at 1. rewrite Hres.
    unfold bind at 1, calendly, bind at 1, fetch.
    destruct (upstream _) as [r | reason] eqn:Eu; [| now eexists].
    rewrite (Hup r eq_refl). now eexists.
Qed.

(** ** The provider helper and the resolver, case by case *)

Lemma calendly_run token path w :
  calendly token path w
  = (match upstream {| bearer := token; endpoint := path |} with
     | Responded r =>
         if ok r then
           match body r with
           | BodyJson p => Returned p
           | BodyText raw => Thrown (InvalidJson raw)
           end
         else Thrown (CalendlyError path (status r) (body r))
     | FetchFailed reason => Thrown (NetworkError reason)
     end,
     {| cache := cache w;
        sent := sent w ++ [ {| bearer := token; endpoint := path |} ] |}).
Proof.
  unfold calendly, bind, fetch.
  destruct (upstream _) as [r | reason]; [| reflexivity].
  destruct (ok r); cbn [negb]; [| reflexivity].
  unfold json. destruct (body r); reflexivity.
Qed.

(** X1.  [calendly] sends one request a call, whatever the answer, and leaves
    the cache alone; it returns a payload only for a 2xx answer with a JSON
    body, and the error of a non-2xx answer carries its status and body. *)
Theorem calendly_one_request token path w :
  let req := {| bearer := token; endpoint := path |} in
  snd (calendly token path w)
  = {| cache := cache w; sent := sent w ++ [req] |}
  /\ (forall p, fst (calendly token path w) = Returned p
                <-> exists r, upstream req = Responded r /\ ok r = true
                              /\ body r = BodyJson p)
  /\ (forall r, upstream req = Responded r -> ok r = false ->
                fst (calendly token path w)
                = Thrown (CalendlyError path (status r) (body r))).
Proof.
  cbv zeta. rewrite calendly_run. cbn [fst snd]. repeat apply conj.
  - reflexivity.
  - intros p. split.
    + destruct (upstream _) as [r | reason]; [| discriminate].
      destruct (ok r) eqn:Eok; [| discriminate].
      destruct (body r) eqn:Eb; [| discriminate].
      intros [= <-]. now exists r.
    + intros (r & -> & -> & ->). reflexivity.
  - intros r -> ->. reflexivity.
Qed.

(** A hit of the cache. *)
Lemma resolve_hit h w e :
  cache w !! host_id h = Some e ->
  resolveEventTypeApiUriForHost h w = (Returned e, w).
Proof.
  intros H. unfold resolveEventTypeApiUriForHost, bind, getCache. now rewrite H.
Qed.

(** A miss of the cache: the run of the resolver, written out. *)
Lemma resolve_miss h w :
  cache w !! host_id h = None ->
  resolveEventTypeApiUriForHost h w
  = match truthy (env (pat_env h)) with
    | None => (Thrown (MissingPat (host_id h) (pat_env h)), w)
    | Some token =>
        match calendly (Some token) UsersMe w with
        | (Thrown err, w1) => (Thrown err, w1)
        | (Returned me, w1) =>
            match truthy (resourceUri me) with
            | None => (Thrown (NoResourceUri (host_id h)), w1)
            | Some userUri =>
                match calendly (Some token) (EventTypes userUri) w1 with
                | (Thrown err, w2) => (Thrown err, w2)
                | (Returned listing, w2) =>
                    match find (fun e => bool_decide
                                           (et_scheduling_url e
                                            = Some (event_type_uri h)))
                               (eventTypes listing) with
                    | None =>
                        (Thrown (NoEventType (event_type_uri h) (host_id h)
                                   (map et_scheduling_url (eventTypes listing))),
                         w2)
                    | Some m =>
                        (Returned (et_uri m),
                         {| cache := <[host_id h := et_uri m]> (cache w2);
                            sent := sent w2 |})
                    end
                end
            end
        end
    end.
Proof.
  intros H. unfold resolveEventTypeApiUriForHost. unfold bind at 1, getCache.
  rewrite H. destruct (truthy (env (pat_env h))) as [token |]; [| reflexivity].
  unfold bind at 1. destruct (calendly (Some token) UsersMe w) as [[me | err] w1];
    [| reflexivity].
  destruct (truthy (resourceUri me)) as [userUri |]; [| reflexivity].
  unfold bind at 1.
  destruct (calendly (Some token) (EventTypes userUri) w1) as [[listing | err] w2];
    [| reflexivity].
  destruct (find _ _) as [m |]; reflexivity.
Qed.

Lemma calendly_cache token path w : cache (snd (calendly token path w)) = cache w.
Proof. now rewrite calendly_run. Qed.

(** X2.  A run of the resolver changes the cache in one way only: a run that
    succeeds on a miss adds the entry of its host.  A hit and a failure leave
    the cache as it was; no entry is ever changed or removed. *)
Theorem resolve_cache_effect h w :
  cache (snd (resolveEventTypeApiUriForHost h w)) = cache w
  \/ (cache w !! host_id h = None
      /\ exists e,
          fst (resolveEventTypeApiUriForHost h w) = Returned e
          /\ cache (snd (resolveEventTypeApiUriForHost h w))
             = <[host_id h := e]> (cache w)).
Proof.
  destruct (cache w !! host_id h) as [e |] eqn:E.
  - left. now rewrite (resolve_hit h w e E).
  - rewrite (resolve_miss h w E).
    destruct (truthy (env (pat_env h))) as [token |]; [| now left].
    pose proof (calendly_cache (Some token) UsersMe w) as C1.
    destruct (calendly (Some token) UsersMe w) as [[me | err] w1]; cbn [snd] in C1;
      [| now left].
    destruct (truthy (resourceUri me)) as [userUri |]; [| now left].
    pose proof (calendly_cache (Some token) (EventTypes userUri) w1) as C2.
    destruct (calendly (Some token) (EventTypes userUri) w1) as [[listing | err] w2];
      cbn [snd] in C2; [| left; cbn [snd]; congruence].
    destruct (find _ _) as [m |]; [| left; cbn [snd]; congruence].
    right. split; [reflexivity |]. exists (et_uri m). cbn [fst snd cache].
    split; [reflexivity | congruence].
Qed.

(** After a run that returns, the cache holds what was returned. *)
Lemma resolve_Returned_cached h w e w1 :
  resolveEventTypeApiUriForHost h w = (Returned e, w1) ->
  cache w1 !! host_id h = Some e.
Proof.
  destruct (cache w !! host_id h) as [e0 |] eqn:E.
  - rewrite (resolve_hit h w e0 E). now intros [= <- <-].
  - rewrite (resolve_miss h w E).
    destruct (truthy (env (pat_env h))) as [token |]; [| discriminate].
    destruct (calendly (Some token) UsersMe w) as [[me | err] w']; [| discriminate].
    destruct (truthy (resourceUri me)) as [userUri |]; [| discriminate].
    destruct (calendly (Some token) (EventTypes userUri) w') as [[listing | err] w2];
      [| discriminate].
    destruct (find _ _) as [m |]; [| discriminate].
    intros [= <- <-]. cbn [cache]. apply lookup_insert_eq.
Qed.

(** X3.  The resolver memoizes.  Once it has returned an event type for a
    host, a further run returns the same one, in the world it left and in
    any world whose cache still holds it, and that run sends no request and
    changes nothing. *)
Theorem resolve_memoized h w e w1 :
  resolveEventTypeApiUriForHost h w = (Returned e, w1) ->
  resolveEventTypeApiUriForHost h w1 = (Returned e, w1)
  /\ forall w2, cache w1 ⊆ cache w2 ->
                resolveEventTypeApiUriForHost h w2 = (Returned e, w2).
Proof.
  intros H. pose proof (resolve_Returned_cached h w e w1 H) as Hc. split.
  - now apply resolve_hit.
  - intros w2 Hsub. apply resolve_hit.
    eapply lookup_weaken; [exact Hc | exact Hsub].
Qed.

(** X4.  What a successful run on a miss is made of.  The host has a token;
    the resolver asks who owns it, lists the event types of that account and
    takes the first whose scheduling page is the page of the host.  It sends
    these two requests and no other, both with the token of the host, and
    caches the event type under the id of the host. *)
Theorem resolve_miss_Returned h w e w1 :
  cache w !! host_id h = None ->
  (resolveEventTypeApiUriForHost h w = (Returned e, w1)
   <-> exists token userUri r1 me r2 listing m,
         truthy (env (pat_env h)) = Some token
         /\ upstream {| bearer := Some token; endpoint := UsersMe |} = Responded r1
         /\ ok r1 = true /\ body r1 = BodyJson me
         /\ truthy (resourceUri me) = Some userUri
         /\ upstream {| bearer := Some token; endpoint := EventTypes userUri |}
            = Responded r2
         /\ ok r2 = true /\ body r2 = BodyJson listing
         /\ find (fun x => bool_decide
                             (et_scheduling_url x = Some (event_type_uri h)))
              (eventTypes listing) = Some m
         /\ e = et_uri m
         /\ w1 = {| cache := <[host_id h := e]> (cache w);
                    sent := sent w ++ resolverRequests token userUri |}).
Proof.
  intros Hmiss. rewrite (resolve_miss h w Hmiss). split.
  - destruct (truthy (env (pat_env h))) as [token |]; [| discriminate].
    rewrite calendly_run.
    destruct (upstream {| bearer := Some token; endpoint := UsersMe |})
      as [r1 | reason] eqn:E1; [| discriminate].
    destruct (ok r1) eqn:O1; [| discriminate].
    destruct (body r1) as [me | raw] eqn:B1; [| discriminate].
    destruct (truthy (resourceUri me)) as [userUri |] eqn:U; [| discriminate].
    rewrite calendly_run.
    destruct (upstream {| bearer := Some token; endpoint := EventTypes userUri |})
      as [r2 | reason] eqn:E2; [| discriminate].
    destruct (ok r2) eqn:O2; [| discriminate].
    destruct (body r2) as [listing | raw] eqn:B2; [| discriminate].
    destruct (find _ _) as [m |] eqn:F; [| discriminate].
    intros [= <- <-]. exists token, userUri, r1, me, r2, listing, m.
    repeat split; try assumption. cbn [cache sent]. unfold resolverRequests.
    now rewrite <- app_assoc.
  - intros (token & userUri & r1 & me & r2 & listing & m
            & -> & E1 & O1 & B1 & U & E2 & O2 & B2 & F & -> & ->).
    rewrite calendly_run, E1, O1, B1, U, calendly_run, E2, O2, B2, F.
    cbn [cache sent]. unfold resolverRequests. now rewrite <- app_assoc.
Qed.

(** X5.  Without a token the resolver asks the provider nothing.  On a miss
    it throws, an empty token counting as none; on a hit it answers from the
    cache, token or no token. *)
Theorem resolve_without_token h w :
  truthy (env (pat_env h)) = None ->
  snd (resolveEventTypeApiUriForHost h w) = w
  /\ fst (resolveEventTypeApiUriForHost h w)
     = match cache w !! host_id h with
       | Some e => Returned e
       | None => Thrown (MissingPat (host_id h) (pat_env h))
       end.
Proof.
  intros Htok. destruct (cache w !! host_id h) as [e |] eqn:E.
  - now rewrite (resolve_hit h w e E).
  - now rewrite (resolve_miss h w E), Htok.
Qed.

(** ** The helpers on instants *)

(** X6.  [toISO] gives the canonical form of an instant.  Its result denotes
    the instant of its argument and is its own canonical form, so that
    normalizing twice is normalizing once; [normalizeISO] is the same
    function; and [toISO] throws exactly on what [Date] cannot read. *)
Theorem toISO_canonical s :
  normalizeISO s = toISO s
  /\ (toISO s = Thrown InvalidTimeValue <-> dateParse s = None)
  /\ forall iso, toISO s = Returned iso ->
       toISO iso = Returned iso
       /\ dateParse iso = dateParse s
       /\ sameInstant (Some s) (Some iso) = true.
Proof.
  split; [reflexivity |]. split.
  - unfold toISO, toISOString, newDate. cbn [mbind option_bind].
    destruct (dateParse s); split; (discriminate || reflexivity).
  - intros iso H. apply toISO_Returned in H as (t & Ht & ->).
    pose proof (dateParse_range s t Ht) as Hr.
    pose proof (dateParse_isoOfTime t Hr) as Hp. repeat split.
    + apply toISO_Returned. now exists t.
    + congruence.
    + apply sameInstant_isoOfTime; [exact Hr | exact Ht].
Qed.

(** X7.  Two strings have the same canonical form exactly when they denote
    the same instant. *)
Theorem toISO_eq_iff a b x y :
  toISO a = Returned x -> toISO b = Returned y ->
  (x = y <-> sameInstant (Some a) (Some b) = true).
Proof.
  intros Ha Hb.
  apply toISO_Returned in Ha as (ta & Hta & ->).
  apply toISO_Returned in Hb as (tb & Htb & ->).
  unfold sameInstant, newDate. cbn [mbind option_bind]. rewrite Hta, Htb.
  cbn [numEq]. rewrite Z.eqb_eq. split; [| now intros ->].
  intros E.
  pose proof (dateParse_isoOfTime ta (dateParse_range a ta Hta)) as Pa.
  pose proof (dateParse_isoOfTime tb (dateParse_range b tb Htb)) as Pb.
  rewrite E in Pa. congruence.
Qed.

Lemma addMinutesISO_Returned s m e :
  addMinutesISO s m = Returned e
  <-> exists t, dateParse s = Some t
                /\ - maxTime <= t + m * 60 * 1000 <= maxTime
                /\ e = isoOfTime (t + m * 60 * 1000).
Proof.
  unfold addMinutesISO, toISOString, newDateOfNumber, newDate.
  cbn [mbind option_bind]. destruct (dateParse s) as [t |]; cbn [mbind option_bind].
  - split.
    + destruct (timeClip (t + m * 60 * 1000)) as [u |] eqn:E; [| discriminate].
      apply timeClip_range in E as [-> Hr]. intros [= <-]. now exists t.
    + intros (t' & [= <-] & Hr & ->). now rewrite timeClip_Some.
  - split; [discriminate |]. now intros (t' & [=] & _).
Qed.

(** X8.  [addMinutesISO] returns the canonical form of the instant that many
    minutes later, and throws when its argument is not a date or the later
    instant is beyond the last time value. *)
Theorem addMinutesISO_adds s m :
  match dateParse s with
  | None => addMinutesISO s m = Thrown InvalidTimeValue
  | Some t =>
      if Z.abs (t + m * 60 * 1000) <=? maxTime then
        exists e, addMinutesISO s m = Returned e
                  /\ dateParse e = Some (t + m * 60 * 1000)
                  /\ toISO e = Returned e
      else addMinutesISO s m = Thrown InvalidTimeValue
  end.
Proof.
  unfold addMinutesISO, toISOString, newDateOfNumber, newDate.
  cbn [mbind option_bind]. destruct (dateParse s) as [t |]; cbn [mbind option_bind];
    [| reflexivity].
  unfold timeClip. destruct (Z.abs (t + m * 60 * 1000) <=? maxTime) eqn:E;
    [| reflexivity].
  apply Z.leb_le in E. eexists. split; [reflexivity |].
  assert (Hr : - maxTime <= t + m * 60 * 1000 <= maxTime) by lia.
  split; [now apply dateParse_isoOfTime |].
  apply toISO_Returned. exists (t + m * 60 * 1000).
  split; [now apply dateParse_isoOfTime | reflexivity].
Qed.

(** X9.  Adding minutes twice is adding their sum, and adding none is
    normalizing. *)
Theorem addMinutesISO_compose s a b x :
  addMinutesISO s a = Returned x ->
  addMinutesISO x b = addMinutesISO s (a + b)
  /\ addMinutesISO s 0 = toISO s.
Proof.
  intros Hx. apply addMinutesISO_Returned in Hx as (t & Ht & Hr & ->). split.
  - unfold addMinutesISO at 1 2, newDate. cbn [mbind option_bind].
    rewrite (dateParse_isoOfTime _ Hr), Ht. cbn [mbind option_bind].
    do 3 f_equal. lia.
  - unfold addMinutesISO, toISO, newDateOfNumber, newDate. cbn [mbind option_bind].
    destruct (dateParse s) as [u |] eqn:Eu; [| reflexivity]. cbn [mbind option_bind].
    rewrite Z.mul_0_l, Z.add_0_r.
    now rewrite (timeClip_Some u (dateParse_range s u Eu)).
Qed.

(** X10.  [sameInstant] is symmetric and transitive, and a value is the same
    instant as itself exactly when it is a date: an unparseable string, like
    [undefined], is the same instant as nothing. *)
Theorem sameInstant_partial_equivalence a b c :
  sameInstant a b = sameInstant b a
  /\ (sameInstant a b = true -> sameInstant b c = true -> sameInstant a c = true)
  /\ (sameInstant a a = true <-> newDate a <> None)
  /\ (newDate a = None -> sameInstant a b = false).
Proof.
  unfold sameInstant.
  destruct (newDate a) as [x |], (newDate b) as [y |], (newDate c) as [z |];
    cbn [numEq]; repeat split; try discriminate; try congruence;
    rewrite ?Z.eqb_eq, ?Z.eqb_refl; try congruence; try reflexivity;
    try apply Z.eqb_sym; intros; try congruence.
Qed.

(** ** The exact-slot check, request by request *)

(** X11.  What a run of [hostHasExactSlot] that returns has done.  The event
    type was resolved and both instants were read; after the requests of
    the resolver it has sent one availability query and no other request,
    for the canonical forms of the two instants, in UTC, under whatever the
    environment holds as the token of the host (nothing, when the variable
    is unset).  The host is then in the cache: resolving it again costs no
    request. *)
Theorem hostHasExactSlot_Returned host st en w b w' :
  hostHasExactSlot host st en w = (Returned b, w') ->
  exists e w1 ts te,
    resolveEventTypeApiUriForHost host w = (Returned e, w1)
    /\ dateParse st = Some ts /\ dateParse en = Some te
    /\ w' = {| cache := cache w1;
               sent := sent w1
                         ++ [ {| bearer := env (pat_env host);
                                 endpoint := AvailableTimes e (isoOfTime ts)
                                               (isoOfTime te) "UTC" |} ] |}
    /\ resolveEventTypeApiUriForHost host w' = (Returned e, w').
Proof.
  unfold hostHasExactSlot. unfold bind at 1.
  destruct (resolveEventTypeApiUriForHost host w) as [[e | err] w1] eqn:Er;
    [| discriminate].
  unfold bind at 1, lift at 1.
  destruct (toISO st) as [startISO | err] eqn:Es; [| discriminate].
  unfold bind at 1, lift at 1.
  destruct (toISO en) as [endISO | err] eqn:Ee; [| discriminate].
  apply toISO_Returned in Es as (ts & Hts & ->).
  apply toISO_Returned in Ee as (te & Hte & ->).
  unfold tryCatch, bind. rewrite calendly_run.
  set (w2 := {| cache := cache w1; sent := _ |}).
  intros H. assert (w' = w2) as ->.
  { destruct (upstream _) as [r | reason]; [| now injection H].
    destruct (ok r); [| now injection H].
    destruct (body r); now injection H. }
  exists e, w1, ts, te. repeat split; try assumption.
  apply resolve_hit. subst w2. cbn [cache].
  exact (resolve_Returned_cached host w e w1 Er).
Qed.

(** X12.  A start or an end that is not a date makes the check throw, once
    the event type is resolved, and no availability query is sent. *)
Theorem hostHasExactSlot_invalid_date host st en w e w1 :
  resolveEventTypeApiUriForHost host w = (Returned e, w1) ->
  dateParse st = None \/ dateParse en = None ->
  hostHasExactSlot host st en w = (Thrown InvalidTimeValue, w1).
Proof.
  intros Er Hbad. unfold hostHasExactSlot. unfold bind at 1. rewrite Er.
  unfold bind at 1, lift at 1, toISO, toISOString, newDate.
  cbn [mbind option_bind].
  destruct (dateParse st) as [ts |]; [| reflexivity].
  unfold bind at 1, lift at 1. destruct Hbad as [? | ->]; [discriminate |].
  reflexivity.
Qed.

(** ** The cache only grows *)

Lemma keepsCache_ret {A} (a : A) : keepsCache (ret a).
Proof. now intros w. Qed.

Lemma keepsCache_throw {A} e : keepsCache (@throw A e).
Proof. now intros w. Qed.

Lemma keepsCache_lift {A} (o : Outcome A) : keepsCache (lift o).
Proof. now intros w. Qed.

Lemma keepsCache_bind {A B} (m : Async A) (k : A -> Async B) :
  keepsCache m -> (forall a, keepsCache (k a)) -> keepsCache (bind m k).
Proof.
  intros Hm Hk w. unfold bind. specialize (Hm w).
  destruct (m w) as [[a | e] w1]; cbn [snd] in *; [| exact Hm].
  etransitivity; [exact Hm | apply Hk].
Qed.

Lemma keepsCache_tryCatch {A} (m : Async A) (h : Error -> Async A) :
  keepsCache m -> (forall e, keepsCache (h e)) -> keepsCache (tryCatch m h).
Proof.
  intros Hm Hh w. unfold tryCatch. specialize (Hm w).
  destruct (m w) as [[a | e] w1]; cbn [snd] in *; [exact Hm |].
  etransitivity; [exact Hm | apply Hh].
Qed.

Lemma keepsCache_fetch q : keepsCache (fetch q).
Proof. intros w. unfold fetch. now destruct (upstream q). Qed.

Lemma keepsCache_calendly token path : keepsCache (calendly token path).
Proof. intros w. now rewrite calendly_cache. Qed.

Lemma keepsCache_resolve h : keepsCache (resolveEventTypeApiUriForHost h).
Proof.
  intros w. destruct (cache w !! host_id h) as [e |] eqn:E.
  - now rewrite (resolve_hit h w e E).
  - rewrite (resolve_miss h w E).
    destruct (truthy (env (pat_env h))) as [token |]; [| reflexivity].
    pose proof (calendly_cache (Some token) UsersMe w) as C1.
    destruct (calendly (Some token) UsersMe w) as [[me | err] w1]; cbn [snd] in C1;
      [| cbn [snd]; now rewrite C1].
    destruct (truthy (resourceUri me)) as [userUri |]; [| cbn [snd]; now rewrite C1].
    pose proof (calendly_cache (Some token) (EventTypes userUri) w1) as C2.
    destruct (calendly (Some token) (EventTypes userUri) w1) as [[listing | err] w2];
      cbn [snd] in C2; [| cbn [snd]; now rewrite C2, C1].
    destruct (find _ _) as [m |]; cbn [snd cache]; rewrite C2, C1; [| reflexivity].
    now apply insert_subseteq.
Qed.

Lemma keepsCache_hostHasExactSlot h st en : keepsCache (hostHasExactSlot h st en).
Proof.
  unfold hostHasExactSlot. apply keepsCache_bind; [apply keepsCache_resolve |].
  intros e. apply keepsCache_bind; [apply keepsCache_lift |]. intros startISO.
  apply keepsCache_bind; [apply keepsCache_lift |]. intros endISO.
  apply keepsCache_tryCatch; [| intros; apply keepsCache_ret].
  apply keepsCache_bind; [apply keepsCache_calendly | intros; apply keepsCache_ret].
Qed.

Lemma keepsCache_eligibleLoop startISO endISO hs :
  forall acc, keepsCache (eligibleLoop startISO endISO hs acc).
Proof.
  induction hs as [| h r IH]; intros acc; cbn [eligibleLoop];
    [apply keepsCache_ret |].
  apply keepsCache_bind; [apply keepsCache_hostHasExactSlot |].
  intros [|]; [| apply IH].
  apply keepsCache_bind; [apply keepsCache_resolve |]. intros e. apply IH.
Qed.

Lemma keepsCache_reserve chosen startISO endISO name email :
  keepsCache (reserve chosen startISO endISO name email).
Proof.
  unfold reserve. apply keepsCache_bind; [apply keepsCache_fetch |]. intros r.
  destruct (ok r).
  - apply keepsCache_bind; [| intros; apply keepsCache_ret].
    unfold json. destruct (body r); [apply keepsCache_ret | apply keepsCache_throw].
  - destruct (existsb _ _); [| apply keepsCache_ret].
    apply keepsCache_bind; [apply keepsCache_fetch |]. intros lr.
    destruct (negb (ok lr)); [apply keepsCache_ret |].
    apply keepsCache_bind; [| intros; apply keepsCache_ret].
    unfold json. destruct (body lr); [apply keepsCache_ret | apply keepsCache_throw].
Qed.

Lemma keepsCache_hostSlots start end_ tz h : keepsCache (hostSlots start end_ tz h).
Proof.
  unfold hostSlots. destruct (truthy (env (pat_env h))); [| apply keepsCache_throw].
  apply keepsCache_bind; [apply keepsCache_resolve |]. intros e.
  apply keepsCache_bind; [apply keepsCache_calendly |]. intros data.
  apply keepsCache_bind; [apply keepsCache_lift | intros; apply keepsCache_ret].
Qed.

Lemma keepsCache_allSettled {A B} (f : A -> Async B) l :
  (forall x, keepsCache (f x)) -> keepsCache (allSettled arrival f l).
Proof.
  intros Hf w. unfold allSettled. cbn [snd cache].
  assert (Hgen : forall c, cache w ⊆ c ->
            cache w ⊆ fold_left (fun c r => cache (snd r) ∪ c)
                        (map (fun x => f x {| cache := cache w; sent := [] |}) l) c).
  { induction l as [| x l IH]; intros c Hc; [exact Hc |].
    cbn [map fold_left]. apply IH.
    etransitivity; [| apply map_union_subseteq_l].
    exact (Hf x {| cache := cache w; sent := [] |}). }
  now apply Hgen.
Qed.

Lemma keepsCache_getUnionSlots start end_ tz : keepsCache (getUnionSlots start end_ tz).
Proof.
  unfold getUnionSlots. apply keepsCache_bind; [| intros; apply keepsCache_ret].
  apply keepsCache_allSettled. intros h. apply keepsCache_hostSlots.
Qed.

(** X13.  The event-type cache only grows.  Whatever a request to either
    route does, every entry the cache held before is in it afterwards,
    unchanged. *)
Theorem routes_keep_cache :
  (forall b, keepsCache (book b))
  /\ (forall now start end_ tz, keepsCache (slotsRoute now start end_ tz)).
Proof.
  split.
  - intros b. unfold book. apply keepsCache_tryCatch;
      [| intros; apply keepsCache_ret].
    destruct (requiredFields b) as [[[[st en] email] name] |]; [| apply keepsCache_ret].
    apply keepsCache_bind; [apply keepsCache_lift |]. intros startISO.
    apply keepsCache_bind; [apply keepsCache_lift |]. intros endISO.
    apply keepsCache_bind; [apply keepsCache_eligibleLoop |]. intros eligible.
    destruct eligible as [| x l]; [apply keepsCache_ret |].
    destruct (jsSort byPriority (x :: l)); [apply keepsCache_throw |].
    apply keepsCache_reserve.
  - intros now start end_ tz. unfold slotsRoute. apply keepsCache_tryCatch;
      [| intros; apply keepsCache_ret].
    destruct (clampWindow now start end_) as [err | [cs ce]]; [apply keepsCache_ret |].
    apply keepsCache_bind; [apply keepsCache_lift |]. intros startISO.
    apply keepsCache_bind; [apply keepsCache_lift |]. intros endISO.
    apply keepsCache_bind; [apply keepsCache_getUnionSlots | intros; apply keepsCache_ret].
Qed.

(** X14.  Every host the loop of [book] finds eligible is in the cache when
    the loop ends, under the event type the loop recorded for it. *)
Theorem Scanned_cached startISO endISO hs w els w' :
  Scanned startISO endISO hs w els w' ->
  cache w ⊆ cache w'
  /\ Forall (fun x => cache w' !! host_id (elig_host x) = Some (et x)) els.
Proof.
  induction 1 as [w | h r w w1 e w2 els w3 Hh Hr Hs [IHc IHf]
                  | h r w w1 els w3 Hh Hs [IHc IHf]].
  - split; [reflexivity | constructor].
  - pose proof (keepsCache_hostHasExactSlot h startISO endISO w) as K1.
    pose proof (keepsCache_resolve h w1) as K2. rewrite Hh in K1. rewrite Hr in K2.
    cbn [snd] in K1, K2. split; [now rewrite K1, K2 |].
    constructor; [| exact IHf]. cbn [elig_host et].
    eapply lookup_weaken; [| exact IHc].
    exact (resolve_Returned_cached h w1 e w2 Hr).
  - pose proof (keepsCache_hostHasExactSlot h startISO endISO w) as K1.
    rewrite Hh in K1. cbn [snd] in K1. split; [now rewrite K1 | exact IHf].
Qed.

(** ** More on the union of open slots *)

Lemma mapThrow_Thrown {A B} (f : A -> Outcome B) l a err :
  a ∈ l -> f a = Thrown err -> exists err', mapThrow f l = Thrown err'.
Proof.
  intros Hin Ha. induction l as [| x l IH]; [now apply elem_of_nil in Hin |].
  cbn [mapThrow]. apply elem_of_cons in Hin as [<- | Hin].
  - rewrite Ha. now eexists.
  - destruct (f x); [| now eexists].
    destruct (IH Hin) as (err' & ->). now eexists.
Qed.

(** X15.  One bad entry costs a host all its slots.  When the answer of a
    host holds an entry whose [start_time] is not a date, or lies within 30
    minutes of the last time value, the callback of that host throws and the
    host brings nothing to the union, whatever its other entries are. *)
Theorem hostSlots_bad_entry start end_ tz c h token e w1 data w2 a :
  truthy (env (pat_env h)) = Some token ->
  resolveEventTypeApiUriForHost h {| cache := c; sent := [] |} = (Returned e, w1) ->
  calendly (Some token)
    (AvailableTimes e start end_ (default "UTC" (truthy tz))) w1
  = (Returned data, w2) ->
  a ∈ availableTimes data ->
  addMinutesISO (raw_start_time a) durationMinutes = Thrown InvalidTimeValue ->
  (exists err, settledSlots start end_ tz c h = Rejected err)
  /\ slotsOf (settledSlots start end_ tz c h) = [].
Proof.
  intros Htok Hres Hcal Hin Hbad.
  assert (Hrej : exists err, settledSlots start end_ tz c h = Rejected err).
  { unfold settledSlots, hostSlots. rewrite Htok. unfold bind at 1. rewrite Hres.
    unfold bind at 1. rewrite Hcal. unfold bind, lift.
    destruct (mapThrow_Thrown (slotOf h) (availableTimes data) a InvalidTimeValue Hin)
      as (err' & ->); [| now eexists].
    unfold slotOf. now rewrite Hbad. }
  split; [exact Hrej |]. destruct Hrej as (err & ->). reflexivity.
Qed.

(** X16.  Every entry of the result names at least one host, and its end is
    the canonical form of the instant 30 minutes after its start. *)
Theorem getUnionSlots_entries start end_ tz w :
  exists us,
    fst (getUnionSlots start end_ tz w) = Returned us
    /\ Forall (fun e =>
                 hosts e <> []
                 /\ exists t, dateParse (start_time e) = Some t
                              /\ dateParse (end_time e) = Some (t + 30 * 60 * 1000)
                              /\ end_time e = isoOfTime (t + 30 * 60 * 1000)) us.
Proof.
  set (rs := map (settledSlots start end_ tz (cache w)) roster).
  pose proof (getUnionSlots_slots start end_ tz (cache w)) as Hslots. fold rs in Hslots.
  pose proof (contributions_wf start end_ tz (cache w)) as Hwf.
  assert (Hwf' : Forall wfSlot (concat (map slotsOf rs))) by now rewrite Hslots.
  exists (unionOf rs). split; [apply getUnionSlots_Returned |].
  rewrite Forall_forall. intros e He.
  destruct (unionOf_entry rs Hwf' e He) as (s0 & Hin & Hst & Hen & Hh). split.
  - rewrite Hh. intros Hnil. apply fmap_nil_inv in Hnil.
    assert (s0 ∈ filter (fun s => slot_start_time s = start_time e)
                   (concat (map slotsOf rs))) as H0
        by (apply list_elem_of_filter; split; [now symmetry | exact Hin]).
    rewrite Hnil in H0. now apply elem_of_nil in H0.
  - rewrite Forall_forall in Hwf'. specialize (Hwf' s0 Hin). unfold wfSlot in Hwf'.
    apply addMinutesISO_Returned in Hwf' as (t & Ht & Hr & Hend).
    exists t. rewrite Hst, Hen, Hend. unfold durationMinutes.
    repeat split; [exact Ht |]. now apply dateParse_isoOfTime.
Qed.

Lemma bucketCount_bucketSet key v b :
  bucketCount (bucketSet key v b)
  = (bucketCount b + length (hosts v)
     - length (default [] (hosts <$> bucketGet key b)))%nat.
Proof.
  unfold bucketCount, bucketGet. induction b as [| [k u] r IH].
  - cbn. lia.
  - cbn [bucketSet find fst]. destruct (String.eqb k key) eqn:E.
    + cbn. lia.
    + cbn [sum_list_with snd]. rewrite IH.
      assert (length (default [] (hosts <$> (snd <$> find (fun kv => String.eqb (fst kv) key) r)))
              <= sum_list_with (fun kv => length (hosts (snd kv))) r)%nat; [| lia].
      clear. induction r as [| [k' u'] r IH]; [cbn; lia |].
      cbn [find fst]. destruct (String.eqb k' key); cbn; cbn in IH; lia.
Qed.

Lemma bucketCount_addSlot b s : bucketCount (addSlot b s) = S (bucketCount b).
Proof.
  unfold addSlot. rewrite bucketCount_bucketSet. cbn [hosts].
  rewrite length_app. cbn [length].
  destruct (bucketGet (slotKey s) b); cbn; lia.
Qed.

Lemma bucketCount_fold slots : forall b,
  bucketCount (fold_left addSlot slots b) = (bucketCount b + length slots)%nat.
Proof.
  induction slots as [| s r IH]; intros b; cbn [fold_left length]; [lia |].
  rewrite IH, bucketCount_addSlot. lia.
Qed.

(** X17.  The union loses no slot and invents none: the host records of the
    result, counted over its entries, are as many as the slots the hosts
    brought. *)
Theorem getUnionSlots_conserves start end_ tz w :
  exists us,
    fst (getUnionSlots start end_ tz w) = Returned us
    /\ hostCount us = length (contributions start end_ tz (cache w)).
Proof.
  eexists. split; [apply getUnionSlots_Returned |].
  unfold unionOf, hostCount. rewrite jsSort_Permutation, fold_addResult.
  rewrite getUnionSlots_slots.
  pose proof (bucketCount_fold (contributions start end_ tz (cache w)) []) as H.
  unfold bucketCount in H. cbn [sum_list_with Nat.add] in H. rewrite <- H.
  generalize (fold_left addSlot (contributions start end_ tz (cache w)) []).
  intros b. induction b as [| [k u] r IH]; [reflexivity |].
  cbn [map sum_list_with snd]. now rewrite IH.
Qed.

(** *** What [getUnionSlots] sends *)

Lemma calendly_sent token path w :
  snd (calendly token path w)
  = {| cache := cache w;
       sent := sent w ++ [ {| bearer := token; endpoint := path |} ] |}.
Proof. now rewrite calendly_run. Qed.

Lemma sends_refl P n w : sends P n w w.
Proof.
  exists []. rewrite app_nil_r. repeat split; [cbn; lia | constructor].
Qed.

Lemma sends_bind {A B} P a b (m : Async A) (k : A -> Async B) w :
  sends P a w (snd (m w)) ->
  (forall x w1, m w = (Returned x, w1) -> sends P b w1 (snd (k x w1))) ->
  sends P (a + b) w (snd (bind m k w)).
Proof.
  intros (l & El & Hl & Fl) Hk. unfold sends, bind.
  destruct (m w) as [[x | err] w1] eqn:E; cbn [snd] in El.
  - destruct (Hk x w1 eq_refl) as (l' & El' & Hl' & Fl').
    exists (l ++ l'). rewrite El', El, <- app_assoc. repeat split.
    + rewrite length_app. lia.
    + now apply Forall_app.
  - exists l. cbn [snd]. repeat split; [exact El | lia | exact Fl].
Qed.

Lemma sends_tryCatch {A} P a b (m : Async A) (k : Error -> Async A) w :
  sends P a w (snd (m w)) ->
  (forall e w1, m w = (Thrown e, w1) -> sends P b w1 (snd (k e w1))) ->
  sends P (a + b) w (snd (tryCatch m k w)).
Proof.
  intros (l & El & Hl & Fl) Hk. unfold sends, tryCatch.
  destruct (m w) as [[x | err] w1] eqn:E; cbn [snd] in El.
  - exists l. cbn [snd]. repeat split; [exact El | lia | exact Fl].
  - destruct (Hk err w1 eq_refl) as (l' & El' & Hl' & Fl').
    exists (l ++ l'). rewrite El', El, <- app_assoc. repeat split.
    + rewrite length_app. lia.
    + now apply Forall_app.
Qed.

Lemma sends_calendly (P : Request -> Prop) token path w :
  P {| bearer := token; endpoint := path |} ->
  sends P 1 w (snd (calendly token path w)).
Proof.
  intros Hq. eexists. rewrite calendly_sent. cbn [sent].
  repeat split; [cbn; lia | now repeat constructor].
Qed.

Lemma sends_lift {A} P n (o : Outcome A) w : sends P n w (snd (lift o w)).
Proof. unfold lift. destruct o; apply sends_refl. Qed.

Lemma sends_weaken (P Q : Request -> Prop) n n' w w' :
  (forall q, P q -> Q q) -> (n <= n')%nat -> sends P n w w' -> sends Q n' w w'.
Proof.
  intros HPQ Hn (l & El & Hl & Fl). exists l.
  repeat split; [exact El | lia |]. eapply Forall_impl; [exact Fl | exact HPQ].
Qed.

Lemma truthy_Some v s : truthy v = Some s -> v = Some s.
Proof.
  destruct v as [x |]; [| discriminate]. cbn.
  destruct (String.eqb x ""); [discriminate | now intros [= ->]].
Qed.

Lemma resolve_sends h w :
  sends (queryOf h) 2 w (snd (resolveEventTypeApiUriForHost h w)).
Proof.
  destruct (cache w !! host_id h) as [e |] eqn:E.
  - rewrite (resolve_hit h w e E). apply sends_refl.
  - unfold resolveEventTypeApiUriForHost, bind at 1, getCache. rewrite E.
    destruct (truthy (env (pat_env h))) as [token |] eqn:Et;
      [| apply sends_refl].
    apply truthy_Some in Et.
    apply (sends_bind _ 1 1); [now apply sends_calendly |].
    intros me w1 _.
    destruct (truthy (resourceUri me)) as [userUri |];
      [| apply sends_refl].
    apply (sends_bind _ 1 0); [now apply sends_calendly |].
    intros listing w2 _. destruct (find _ _).
    + exists []. unfold bind, setCache, ret. cbn [snd sent]. rewrite app_nil_r.
      repeat split; constructor.
    + apply sends_refl.
Qed.

Lemma hostSlots_sends start end_ tz h w :
  sends (queryOf h) 3 w (snd (hostSlots start end_ tz h w)).
Proof.
  unfold hostSlots.
  destruct (truthy (env (pat_env h))) as [token |] eqn:Et;
    [| apply sends_refl].
  apply truthy_Some in Et.
  apply (sends_bind _ 2 1); [apply resolve_sends |]. intros e w1 _.
  apply (sends_bind _ 1 0); [now apply sends_calendly |]. intros data w2 _.
  apply (sends_bind _ 0 0); [apply sends_lift |]. intros slots w3 _.
  apply sends_refl.
Qed.

(** The log of [getUnionSlots]: the logs of its callbacks, interleaved. *)
Lemma getUnionSlots_log start end_ tz w :
  exists l,
    sent (snd (getUnionSlots start end_ tz w)) = sent w ++ l
    /\ l ≡ₚ concat (map (fun h => sent (snd (hostSlots start end_ tz h
                                                {| cache := cache w; sent := [] |})))
                         roster)
    /\ forall h, h ∈ roster ->
         sent (snd (hostSlots start end_ tz h {| cache := cache w; sent := [] |}))
           `sublist_of` l.
Proof.
  unfold getUnionSlots, bind, allSettled, ret. cbn [snd sent].
  rewrite map_map. cbn [snd]. eexists. split; [reflexivity |]. split.
  - now apply interleave_Permutation.
  - intros h Hh. apply list_elem_of_lookup in Hh as (j & Hj).
    apply (interleave_sublist _ _ _ j); [reflexivity |].
    now rewrite list_lookup_fmap, Hj.
Qed.

Lemma callbacks_send start end_ tz c :
  (length (concat (map (fun h => sent (snd (hostSlots start end_ tz h
                                             {| cache := c; sent := [] |})))
                       roster)) <= 3 * length roster)%nat
  /\ Forall queryOfRoster
       (concat (map (fun h => sent (snd (hostSlots start end_ tz h
                                           {| cache := c; sent := [] |})))
                    roster)).
Proof.
  unfold queryOfRoster.
  induction roster as [| h r IH]; [cbn; split; [lia | constructor] |].
  cbn [map concat length]. destruct IH as [IHl IHf].
  destruct (hostSlots_sends start end_ tz h {| cache := c; sent := [] |})
    as (l & El & Hl & Fl).
  cbn [sent app] in El. rewrite El. split.
  - rewrite length_app. lia.
  - apply Forall_app. split.
    + eapply Forall_impl; [exact Fl |]. intros q Hq. exists h.
      split; [left | exact Hq].
    + eapply Forall_impl; [exact IHf |]. intros q (h' & Hin & Hq). exists h'.
      split; [now right | exact Hq].
Qed.

Lemma getUnionSlots_sends start end_ tz w :
  sends queryOfRoster (3 * length roster) w (snd (getUnionSlots start end_ tz w)).
Proof.
  destruct (getUnionSlots_log start end_ tz w) as (l & El & Hp & _).
  destruct (callbacks_send start end_ tz (cache w)) as [Hlen Hall].
  exists l. split; [exact El |]. split.
  - now rewrite Hp.
  - now rewrite Hp.
Qed.

(** X18.  What the union costs.  The requests of [getUnionSlots] are those
    of its callbacks, each once, interleaved in an order that depends on
    when the answers arrive; the requests of one callback keep their order.
    Each callback sends at most three (who am I, the event types, the
    availability), none of them reserves, each is made with the token of
    its own host, and a host without a token sends none. *)
Theorem getUnionSlots_requests start end_ tz w :
  let logOf h :=
    sent (snd (hostSlots start end_ tz h {| cache := cache w; sent := [] |})) in
  (exists l,
     sent (snd (getUnionSlots start end_ tz w)) = sent w ++ l
     /\ l ≡ₚ concat (map logOf roster)
     /\ forall h, h ∈ roster -> logOf h `sublist_of` l)
  /\ forall h,
       (length (logOf h) <= 3)%nat
       /\ Forall (fun q => isReservation q = false /\ bearer q = env (pat_env h))
                 (logOf h)
       /\ (truthy (env (pat_env h)) = None -> logOf h = []).
Proof.
  cbv zeta. split; [apply getUnionSlots_log |]. intros h.
  destruct (hostSlots_sends start end_ tz h {| cache := cache w; sent := [] |})
    as (l & El & Hl & Fl).
  cbn [sent app] in El. rewrite El. repeat split; [exact Hl | exact Fl |].
  intros Hnone. rewrite <- El. unfold hostSlots. now rewrite Hnone.
Qed.

(** *** The order of the roster *)

Lemma Forall2_same_key {A K} (f : A -> K) (P : A -> A -> Prop) :
  forall l1 l2,
    map f l1 = map f l2 ->
    (forall a b, a ∈ l1 -> b ∈ l2 -> f a = f b -> P a b) ->
    Forall2 P l1 l2.
Proof.
  induction l1 as [| a l1 IH]; intros [| b l2] E HP; try discriminate; [constructor |].
  cbn [map] in E. injection E as E0 E. constructor.
  - apply HP; [left | left | exact E0].
  - apply IH; [exact E |]. intros x y Hx Hy. apply HP; now right.
Qed.

(** The union of the same slots, brought in another order: the same
    entries, each with the same hosts in some order; and in the same order
    when the collation ties no two of their start strings. *)
Lemma unionOf_Permutation rs1 rs2 :
  Forall wfSlot (concat (map slotsOf rs1)) ->
  concat (map slotsOf rs1) ≡ₚ concat (map slotsOf rs2) ->
  length (unionOf rs1) = length (unionOf rs2)
  /\ (forall a, a ∈ unionOf rs1 -> exists b, b ∈ unionOf rs2 /\ sameSlot a b)
  /\ (consistent localeCompare ->
      untied (map start_time (unionOf rs1)) ->
      Forall2 sameSlot (unionOf rs1) (unionOf rs2)).
Proof.
  intros Hwf1 Hp.
  assert (Hwf2 : Forall wfSlot (concat (map slotsOf rs2))) by now rewrite <- Hp.
  assert (Hstarts : forall rs, Forall wfSlot (concat (map slotsOf rs)) ->
            forall x, x ∈ map start_time (unionOf rs)
                      <-> exists s, s ∈ concat (map slotsOf rs) /\ slot_start_time s = x).
  { intros rs Hwf x. split.
    - intros Hx. apply list_elem_of_fmap in Hx as (e & -> & He).
      destruct (unionOf_entry rs Hwf e He) as (s0 & Hin & Hst & _).
      now exists s0.
    - intros (s & Hin & <-). destruct (unionOf_cover rs Hwf s Hin) as (e & He & Hst & _).
      apply list_elem_of_fmap. now exists e. }
  assert (Hperm : map start_time (unionOf rs1) ≡ₚ map start_time (unionOf rs2)).
  { apply NoDup_Permutation;
      [now apply unionOf_NoDup_start | now apply unionOf_NoDup_start |].
    intros x. rewrite (Hstarts rs1 Hwf1), (Hstarts rs2 Hwf2).
    split; intros (s & Hin & E); exists s; (split; [| exact E]);
      [now rewrite <- Hp | now rewrite Hp]. }
  assert (Hsame : forall a b, a ∈ unionOf rs1 -> b ∈ unionOf rs2 ->
                    start_time a = start_time b -> sameSlot a b).
  { intros a b Ha Hb E. split; [exact E |].
    destruct (unionOf_entry rs1 Hwf1 a Ha) as (sa & Hina & Hsta & Hena & Hha).
    destruct (unionOf_entry rs2 Hwf2 b Hb) as (sb & Hinb & Hstb & Henb & Hhb).
    split.
    - rewrite Forall_forall in Hwf1, Hwf2.
      pose proof (Hwf1 sa Hina) as Wa. pose proof (Hwf2 sb Hinb) as Wb.
      unfold wfSlot in Wa, Wb. rewrite <- Hsta in Wa. rewrite <- Hstb, <- E in Wb.
      rewrite Hena, Henb. congruence.
    - rewrite Hha, Hhb, <- E. apply fmap_Permutation.
      now rewrite Hp. }
  split; [| split].
  - apply Permutation_length in Hperm. now rewrite !length_map in Hperm.
  - intros a Ha.
    assert (Hin : start_time a ∈ map start_time (unionOf rs2)).
    { rewrite <- Hperm. apply list_elem_of_fmap. now exists a. }
    apply list_elem_of_fmap in Hin as (b & E & Hb).
    exists b. split; [exact Hb | now apply Hsame].
  - intros [Htotal Htrans] Hun.
    apply (Forall2_same_key start_time); [| exact Hsame].
    apply (StronglySorted_unique_strong (fun a b => localeCompare a b <= 0));
      [| | | exact Hperm].
    + intros x1 x2 H1 H2. apply Hun; [exact H1 | now rewrite Hperm].
    + apply (StronglySorted_fmap start_time
               (fun a b => localeCompare (start_time a) (start_time b) <= 0));
        [now intros | now apply unionOf_sorted].
    + apply (StronglySorted_fmap start_time
               (fun a b => localeCompare (start_time a) (start_time b) <= 0));
        [now intros | now apply unionOf_sorted].
Qed.

(** ** The two routes, answer by answer *)

(** X19.  The time zone the slots route works with is never empty and never
    the old name of the zone of Kolkata, in any letter case; normalising it
    again changes nothing, and the default of [getUnionSlots] (UTC) is
    never taken when the route calls it. *)
Theorem normalizeTimezone_canonical tz :
  normalizeTimezone tz <> ""
  /\ toLowerCase (normalizeTimezone tz) <> "asia/calcutta"
  /\ normalizeTimezone (Some (normalizeTimezone tz)) = normalizeTimezone tz
  /\ default "UTC" (truthy (Some (normalizeTimezone tz))) = normalizeTimezone tz.
Proof.
  assert (H1 : normalizeTimezone tz <> "").
  { unfold normalizeTimezone. destruct tz as [s |]; cbn [truthy]; [| discriminate].
    destruct (String.eqb s "") eqn:E; [discriminate |].
    destruct (String.eqb (toLowerCase s) _); [discriminate |].
    now apply String.eqb_neq in E. }
  assert (H2 : toLowerCase (normalizeTimezone tz) <> "asia/calcutta").
  { unfold normalizeTimezone. destruct (truthy tz) as [s |]; [| discriminate].
    destruct (String.eqb (toLowerCase s) _) eqn:E; [discriminate |].
    now apply String.eqb_neq in E. }
  apply String.eqb_neq in H1 as E1. apply String.eqb_neq in H2 as E2.
  repeat split; [exact H1 | exact H2 | |].
  - unfold normalizeTimezone at 1. cbn [truthy]. now rewrite E1, E2.
  - cbn [truthy]. now rewrite E1.
Qed.

(** The answers of the handler to a time zone that is a string, or absent. *)
Lemma slotsRoute_cases now start end_ tz w :
  exists r w',
    slotsRoute now start end_ tz w = (Returned r, w')
    /\ api_status r = statusOf (api_body r)
    /\ ((exists err, api_body r = ErrorBody err
                     /\ (err = InvalidStartOrEnd \/ err = EndMustBeAfterStart)
                     /\ w' = w)
        \/ (exists us rawStart rawEnd cs ce,
              newDate start = Some rawStart /\ newDate end_ = Some rawEnd
              /\ rawStart <= cs /\ ce <= rawEnd /\ cs < ce <= cs + sevenDays
              /\ api_body r = SlotsBody us (isoOfTime cs) (isoOfTime ce)
                                (normalizeTimezone tz)
              /\ sends queryOfRoster (3 * length roster) w w')).
Proof.
  unfold slotsRoute, tryCatch, clampWindow.
  destruct (newDate start) as [rs |] eqn:Es;
    [| do 2 eexists; split; [reflexivity |]; split; [reflexivity |];
       left; eexists; repeat split; now left].
  destruct (newDate end_) as [re |] eqn:Ee;
    [| do 2 eexists; split; [reflexivity |]; split; [reflexivity |];
       left; eexists; repeat split; now left].
  cbn [isNaN orb].
  set (cs := if numLt (Some rs) (newDateOfNumber (Some (now + 60000)))
             then newDateOfNumber (Some (now + 60000)) else Some rs).
  assert (Hcs : exists c, cs = Some c /\ rs <= c) .
  { subst cs. destruct (newDateOfNumber _) as [m |]; cbn [numLt];
      [| exists rs; split; [reflexivity | lia]].
    destruct (rs <? m) eqn:E; [apply Z.ltb_lt in E | ];
      eexists; (split; [reflexivity | lia]). }
  destruct Hcs as (c & -> & Hc). cbn [mbind option_bind].
  set (ce := if numLt (newDateOfNumber (Some (c + sevenDays))) (Some re)
             then newDateOfNumber (Some (c + sevenDays)) else Some re).
  assert (Hce : exists e, ce = Some e /\ e <= re /\ (c < e -> e <= c + sevenDays)).
  { subst ce. cbn [newDateOfNumber mbind option_bind].
    destruct (timeClip (c + sevenDays)) as [m |] eqn:Em; cbn [numLt].
    - apply timeClip_range in Em as [-> _].
      destruct (c + sevenDays <? re) eqn:E;
        [apply Z.ltb_lt in E | apply Z.ltb_ge in E];
        eexists; (split; [reflexivity | lia]).
    - exists re. split; [reflexivity |]. split; [lia |]. intros _.
      apply newDate_range in Ee.
      destruct (Z_le_gt_dec re (c + sevenDays)) as [? | Hgt]; [assumption |].
      apply newDate_range in Es. unfold sevenDays, maxTime in *.
      rewrite timeClip_Some in Em; [discriminate | unfold maxTime; lia]. }
  destruct Hce as (e & -> & He & Hspan). cbn [numLe].
  destruct (e <=? c) eqn:E; [apply Z.leb_le in E | apply Z.leb_gt in E].
  - do 2 eexists. split; [reflexivity |]. split; [reflexivity |].
    left. eexists. repeat split. now right.
  - unfold bind at 1, lift at 1. cbn [toISOString].
    unfold bind at 1, lift at 1. cbn [toISOString].
    unfold bind at 1.
    pose proof (getUnionSlots_Returned (isoOfTime c) (isoOfTime e)
                  (Some (normalizeTimezone tz)) w) as Hu.
    pose proof (getUnionSlots_sends (isoOfTime c) (isoOfTime e)
                  (Some (normalizeTimezone tz)) w) as Hq.
    destruct (getUnionSlots (isoOfTime c) (isoOfTime e)
                (Some (normalizeTimezone tz)) w) as [[us | err] w'];
      cbn [fst snd] in Hu, Hq; [| discriminate].
    unfold ret. do 2 eexists. split; [reflexivity |]. split; [reflexivity |].
    right. exists us, rs, re, c, e. cbn [api_body].
    repeat split; try assumption; lia.
Qed.


Lemma slotsHandler_strings now start end_ tz w :
  slotsHandler now start end_ (QString <$> tz) w
  = slotsRoute now (toPrimitive <$> start) (toPrimitive <$> end_) tz w.
Proof.
  unfold slotsHandler, slotsRoute, tryCatch. unfold bind at 1, lift at 1.
  destruct tz as [s |]; reflexivity.
Qed.

(** X20.  The handler of the slots route always answers.  It answers 500
    exactly when the time zone of the query is not a string (a repeated or
    bracketed parameter, which has no [toLowerCase]), and has then touched
    neither the cache nor the provider.  Otherwise it answers 400 or 200,
    whatever the clock, the bounds and the provider: a 400 leaves the cache
    and the log as they were; a 200 reports a window in canonical form that
    starts no earlier than asked, ends no later than asked, is not empty
    and spans 7 days at most, reached with at most three requests for each
    host, each a query made with the token of a host of the roster. *)
Theorem slotsHandler_answers now start end_ timezone w :
  exists r w',
    slotsHandler now start end_ timezone w = (Returned r, w')
    /\ api_status r = statusOf (api_body r)
    /\ (api_status r = 500
        <-> (exists items, timezone = Some (QArray items))
            \/ (exists fields, timezone = Some (QObject fields)))
    /\ ((exists what, api_body r = ErrorBody (Unexpected (TypeError what)) /\ w' = w)
        \/ (exists err, api_body r = ErrorBody err
                        /\ (err = InvalidStartOrEnd \/ err = EndMustBeAfterStart)
                        /\ w' = w)
        \/ (exists us tz rawStart rawEnd cs ce,
              timezone = QString <$> tz
              /\ newDate (toPrimitive <$> start) = Some rawStart
              /\ newDate (toPrimitive <$> end_) = Some rawEnd
              /\ rawStart <= cs /\ ce <= rawEnd /\ cs < ce <= cs + sevenDays
              /\ api_body r = SlotsBody us (isoOfTime cs) (isoOfTime ce)
                                (normalizeTimezone tz)
              /\ sends queryOfRoster (3 * length roster) w w')).
Proof.
  assert (Hstr : forall tz, timezone = QString <$> tz ->
            exists r w',
              slotsHandler now start end_ timezone w = (Returned r, w')
              /\ api_status r = statusOf (api_body r)
              /\ api_status r <> 500
              /\ ((exists what, api_body r = ErrorBody (Unexpected (TypeError what))
                                /\ w' = w)
                  \/ (exists err, api_body r = ErrorBody err
                                  /\ (err = InvalidStartOrEnd \/ err = EndMustBeAfterStart)
                                  /\ w' = w)
                  \/ (exists us tz rawStart rawEnd cs ce,
                        timezone = QString <$> tz
                        /\ newDate (toPrimitive <$> start) = Some rawStart
                        /\ newDate (toPrimitive <$> end_) = Some rawEnd
                        /\ rawStart <= cs /\ ce <= rawEnd /\ cs < ce <= cs + sevenDays
                        /\ api_body r = SlotsBody us (isoOfTime cs) (isoOfTime ce)
                                          (normalizeTimezone tz)
                        /\ sends queryOfRoster (3 * length roster) w w'))).
  { intros tz ->. rewrite slotsHandler_strings.
    destruct (slotsRoute_cases now (toPrimitive <$> start) (toPrimitive <$> end_) tz w)
      as (r & w' & -> & Hst
          & [(err & Hb & Herr & ->)
            | (us & rs & re & cs & ce & Hs & He & H1 & H2 & H3 & Hb & Hq)]).
    - exists r, w. split; [reflexivity |]. split; [exact Hst |]. split.
      + rewrite Hst, Hb. destruct Herr as [-> | ->]; discriminate.
      + right. left. now exists err.
    - exists r, w'. split; [reflexivity |]. split; [exact Hst |]. split.
      + rewrite Hst, Hb. discriminate.
      + right. right. now exists us, tz, rs, re, cs, ce. }
  destruct timezone as [[s | items | fields] |].
  - destruct (Hstr (Some s) eq_refl) as (r & w' & E & Hst & H5 & Hcases).
    exists r, w'. split; [exact E |]. split; [exact Hst |]. split; [| exact Hcases].
    split; [contradiction |]. intros [(? & [=]) | (? & [=])].
  - do 2 eexists. split; [reflexivity |]. cbn. split; [reflexivity |]. split.
    + split; [| reflexivity]. intros _. left. now eexists.
    + left. now eexists.
  - do 2 eexists. split; [reflexivity |]. cbn. split; [reflexivity |]. split.
    + split; [| reflexivity]. intros _. right. now eexists.
    + left. now eexists.
  - destruct (Hstr None eq_refl) as (r & w' & E & Hst & H5 & Hcases).
    exists r, w'. split; [exact E |]. split; [exact Hst |]. split; [| exact Hcases].
    split; [contradiction |]. intros [(? & [=]) | (? & [=])].
Qed.

(** *** POST /api/book, path by path *)

Lemma toISO_Thrown s err : toISO s = Thrown err -> err = InvalidTimeValue.
Proof.
  unfold toISO, toISOString. destruct (newDate (Some s)); [discriminate |].
  now intros [= <-].
Qed.

(** The five ways through [book]. *)
Lemma book_cases b w :
  (requiredFields b = None
   /\ book b w = (Returned {| api_status := 400; api_body := ErrorBody FieldsRequired |}, w))
  \/ exists st en email name,
       requiredFields b = Some (st, en, email, name)
       /\ (((toISO st = Thrown InvalidTimeValue \/ toISO en = Thrown InvalidTimeValue)
            /\ book b w
               = (Returned {| api_status := 500;
                              api_body := ErrorBody (Unexpected InvalidTimeValue) |}, w))
           \/ exists startISO endISO,
                toISO st = Returned startISO /\ toISO en = Returned endISO
                /\ ((exists err w1,
                       eligibleLoop startISO endISO roster [] w = (Thrown err, w1)
                       /\ book b w
                          = (Returned {| api_status := 500;
                                         api_body := ErrorBody (Unexpected err) |}, w1))
                    \/ (exists w1,
                          eligibleLoop startISO endISO roster [] w = (Returned [], w1)
                          /\ book b w
                             = (Returned {| api_status := 409;
                                            api_body := ErrorBody SlotNoLongerAvailable |},
                                w1))
                    \/ (exists eligible w1 chosen rest,
                          eligibleLoop startISO endISO roster [] w
                          = (Returned eligible, w1)
                          /\ jsSort byPriority eligible = chosen :: rest
                          /\ book b w
                             = tryCatch (reserve chosen startISO endISO name email)
                                 internalError w1))).
Proof.
  destruct (requiredFields b) as [[[[st en] email] name] |] eqn:Hf;
    [right | left; split; [reflexivity |]; unfold book, tryCatch; now rewrite Hf].
  exists st, en, email, name. split; [reflexivity |].
  destruct (toISO st) as [startISO | err] eqn:Es.
  2:{ apply toISO_Thrown in Es as Herr. subst err. left. split; [now left |].
      unfold book, tryCatch. rewrite Hf. unfold bind at 1, lift at 1.
      now rewrite Es. }
  destruct (toISO en) as [endISO | err] eqn:Ee.
  2:{ apply toISO_Thrown in Ee as Herr. subst err. left. split; [now right |].
      unfold book, tryCatch. rewrite Hf. unfold bind at 1, lift at 1. rewrite Es.
      unfold bind at 1, lift at 1. now rewrite Ee. }
  right. exists startISO, endISO. split; [reflexivity |]. split; [reflexivity |].
  assert (Hb : book b w
               = tryCatch
                   (eligible <~ eligibleLoop startISO endISO roster [] ;;
                    match eligible with
                    | [] => ret {| api_status := 409;
                                   api_body := ErrorBody SlotNoLongerAvailable |}
                    | _ :: _ =>
                        match jsSort byPriority eligible with
                        | chosen :: _ => reserve chosen startISO endISO name email
                        | [] => throw (TypeError "chosen is undefined")
                        end
                    end) internalError w).
  { unfold book, tryCatch. rewrite Hf. unfold bind at 1, lift at 1. rewrite Es.
    unfold bind at 1, lift at 1. now rewrite Ee. }
  rewrite Hb. clear Hb. unfold tryCatch at 1 2 3, bind at 1 2 3.
  destruct (eligibleLoop startISO endISO roster [] w) as [[eligible | err] w1] eqn:El.
  - destruct eligible as [| x l]; [right; left; exists w1; split; reflexivity |].
    right. right.
    destruct (jsSort_byPriority_head (x :: l)) as (c & rest & l1 & l2 & Hc & _);
      [discriminate |].
    exists (x :: l), w1, c, rest. cbv beta iota. rewrite Hc.
    repeat split; reflexivity.
  - left. exists err, w1. split; reflexivity.
Qed.

(** The run of the reservation, whatever the provider answers. *)
Lemma reserve_cases chosen startISO endISO name email w :
  let token := env (pat_env (elig_host chosen)) in
  let direct := {| bearer := token;
                   endpoint := EventInvitees (et chosen) startISO endISO name email |} in
  let link := {| bearer := token; endpoint := SchedulingLinks (et chosen) 1 |} in
  exists r w',
    tryCatch (reserve chosen startISO endISO name email) internalError w
    = (Returned r, w')
    /\ cache w' = cache w
    /\ api_status r = statusOf (api_body r)
    /\ (api_status r = 200 \/ api_status r = 500 \/ api_status r = 502)
    /\ ((sent w' = sent w ++ [direct]
         /\ (api_status r = 200 ->
             exists resp booking,
               upstream direct = Responded resp /\ ok resp = true
               /\ body resp = BodyJson booking
               /\ api_body r = BookingBody booking (display_name (elig_host chosen))))
        \/ (sent w' = sent w ++ [direct; link]
            /\ (exists resp, upstream direct = Responded resp /\ ok resp = false
                             /\ (status resp = 403 \/ status resp = 404
                                 \/ status resp = 422))
            /\ (api_status r = 200 ->
                exists lr found,
                  upstream link = Responded lr /\ ok lr = true
                  /\ body lr = BodyJson found
                  /\ api_body r = RedirectBody (bookingUrl found)
                                    (display_name (elig_host chosen))))).
Proof.
  clear localeCompare arrival.
  cbv zeta. unfold tryCatch, reserve, bind at 1, fetch at 1.
  destruct (upstream _) as [resp | reason] eqn:Ed.
  2:{ do 2 eexists. split; [reflexivity |]. cbn.
      repeat split; [tauto |]. left. split; [reflexivity | discriminate]. }
  destruct (ok resp) eqn:Eok.
  - unfold bind, json. destruct (body resp) as [booking | raw] eqn:Eb;
      do 2 eexists; (split; [reflexivity |]); cbn; (repeat split; [tauto |]);
      left; (split; [reflexivity |]); [| discriminate].
    intros _. exists resp, booking. now repeat split.
  - destruct (existsb _ _) eqn:Ef.
    2:{ do 2 eexists. split; [reflexivity |]. cbn.
        repeat split; [tauto |]. left. split; [reflexivity | discriminate]. }
    apply fallbackStatuses_iff in Ef.
    unfold bind at 1, fetch at 1. cbn [sent cache].
    destruct (upstream {| bearer := _; endpoint := SchedulingLinks _ _ |})
      as [lr | reason] eqn:Elk.
    2:{ do 2 eexists. split; [reflexivity |]. cbn. rewrite <- app_assoc.
        repeat split; [tauto |]. right. split; [reflexivity |].
        split; [now exists resp | discriminate]. }
    destruct (ok lr) eqn:Eokl; cbn [negb].
    + unfold bind, json. destruct (body lr) as [found | raw] eqn:Ebl;
        do 2 eexists; (split; [reflexivity |]); cbn; rewrite <- app_assoc;
        (repeat split; [tauto |]); right; (split; [reflexivity |]);
        (split; [now exists resp |]); [| discriminate].
      intros _. exists lr, found. now repeat split.
    + do 2 eexists. split; [reflexivity |]. cbn. rewrite <- app_assoc.
      repeat split; [tauto |]. right. split; [reflexivity |].
      split; [now exists resp | discriminate].
Qed.

Lemma hostHasExactSlot_sends h st en w :
  sends (queryOf h) 3 w (snd (hostHasExactSlot h st en w)).
Proof.
  unfold hostHasExactSlot.
  apply (sends_bind _ 2 1); [apply resolve_sends |]. intros e w1 _.
  apply (sends_bind _ 0 1); [apply sends_lift |]. intros startISO w2 _.
  apply (sends_bind _ 0 1); [apply sends_lift |]. intros endISO w3 _.
  apply (sends_tryCatch _ 1 0); [| intros; apply sends_refl].
  apply (sends_bind _ 1 0); [now apply sends_calendly |]. intros j w4 _.
  apply sends_refl.
Qed.

(** A check that returned has left the host in the cache. *)
Lemma hostHasExactSlot_cached h st en w b w' :
  hostHasExactSlot h st en w = (Returned b, w') ->
  exists e, cache w' !! host_id h = Some e.
Proof.
  unfold hostHasExactSlot. unfold bind at 1.
  destruct (resolveEventTypeApiUriForHost h w) as [[e | err] w1] eqn:Er;
    [| discriminate].
  unfold bind at 1, lift at 1.
  destruct (toISO st) as [startISO | err]; [| discriminate].
  unfold bind at 1, lift at 1.
  destruct (toISO en) as [endISO | err]; [| discriminate].
  unfold tryCatch, bind. rewrite calendly_run.
  intros H. exists e. assert (cache w' = cache w1) as ->.
  { destruct (upstream _) as [r | reason]; [| now injection H as _ <-].
    destruct (ok r); [| now injection H as _ <-].
    destruct (body r); now injection H as _ <-. }
  exact (resolve_Returned_cached h w e w1 Er).
Qed.

Lemma eligibleLoop_sends startISO endISO hs : forall acc w,
  sends (fun q => exists h, h ∈ hs /\ queryOf h q) (3 * length hs) w
    (snd (eligibleLoop startISO endISO hs acc w)).
Proof.
  induction hs as [| h r IH]; intros acc w; cbn [eligibleLoop];
    [apply sends_refl |].
  assert (Hr : forall acc w,
             sends (fun q => exists h0, h0 ∈ h :: r /\ queryOf h0 q) (3 * length r) w
               (snd (eligibleLoop startISO endISO r acc w))).
  { intros acc' w0. eapply sends_weaken; [| | apply IH]; [| lia].
    intros q (h0 & Hin & Hq). exists h0. split; [now right | exact Hq]. }
  replace (3 * length (h :: r))%nat with (3 + (3 * length r))%nat by (cbn; lia).
  apply sends_bind.
  - eapply sends_weaken; [| | apply hostHasExactSlot_sends]; [| lia].
    intros q Hq. exists h. split; [left | exact Hq].
  - intros [|] w1 Hh; [| apply Hr].
    destruct (hostHasExactSlot_cached h startISO endISO w true w1 Hh) as (e & Hc).
    unfold bind. rewrite (resolve_hit h w1 e Hc). apply Hr.
Qed.

(** The host chosen among the eligible is a host of the roster for which
    the exact-slot check returned [true]. *)
Lemma Scanned_checked startISO endISO hs w els w' c :
  Scanned startISO endISO hs w els w' -> c ∈ els ->
  elig_host c ∈ hs
  /\ exists wa wb,
       hostHasExactSlot (elig_host c) startISO endISO wa = (Returned true, wb).
Proof.
  induction 1 as [w0 | h r w0 w1 e w2 els w3 Hh Hr Hs IH | h r w0 w1 els w3 Hh Hs IH];
    intros Hin.
  - now apply elem_of_nil in Hin.
  - apply elem_of_cons in Hin as [-> | Hin].
    + split; [left | now exists w0, w1].
    + destruct (IH Hin) as [Hm Hc]. split; [now right | exact Hc].
  - destruct (IH Hin) as [Hm Hc]. split; [now right | exact Hc].
Qed.

Lemma chosen_checked startISO endISO w eligible w1 chosen rest :
  eligibleLoop startISO endISO roster [] w = (Returned eligible, w1) ->
  jsSort byPriority eligible = chosen :: rest ->
  Scanned startISO endISO roster w eligible w1
  /\ chosen ∈ eligible
  /\ elig_host chosen ∈ roster
  /\ exists wa wb,
       hostHasExactSlot (elig_host chosen) startISO endISO wa = (Returned true, wb).
Proof.
  intros Hl Hc. apply eligibleLoop_Scanned in Hl as (more & -> & Hs).
  cbn [app] in *. assert (Hin : chosen ∈ more).
  { apply (jsSort_elem_of byPriority). rewrite Hc. left. }
  split; [exact Hs |]. split; [exact Hin |].
  exact (Scanned_checked _ _ _ _ _ _ _ Hs Hin).
Qed.

(** X21.  [book] always answers, and the status of its answer is the one its
    body calls for: 200 with a booking or a link, 400 when a field is
    missing, 409 when no host has the slot, 502 when the provider refused,
    500 for anything thrown.  It answers 400 exactly when one of the four
    fields is absent or empty, and has then touched neither the cache nor
    the provider; it answers 409 exactly when the loop over the roster ran
    to its end and found no host. *)
Theorem book_answers b w :
  exists r w',
    book b w = (Returned r, w')
    /\ api_status r = statusOf (api_body r)
    /\ (api_status r = 200 \/ api_status r = 400 \/ api_status r = 409
        \/ api_status r = 500 \/ api_status r = 502)
    /\ (api_status r = 400 <-> requiredFields b = None)
    /\ (requiredFields b = None -> w' = w)
    /\ (api_status r = 409
        <-> exists st en email name startISO endISO,
              requiredFields b = Some (st, en, email, name)
              /\ toISO st = Returned startISO /\ toISO en = Returned endISO
              /\ eligibleLoop startISO endISO roster [] w = (Returned [], w')).
Proof.
  clear localeCompare arrival.
  destruct (book_cases b w)
    as [[Hf ->] | (st & en & email & name & Hf
                   & [[Hbad ->] | (startISO & endISO & Hs & He
                                & [(err & w1 & Hl & ->) | [(w1 & Hl & ->)
                                   | (eligible & w1 & chosen & rest & Hl & Hc & ->)]])])].
  - do 2 eexists. split; [reflexivity |]. cbn. repeat split; try tauto; try discriminate.
    intros (? & ? & ? & ? & ? & ? & Hf' & _). congruence.
  - do 2 eexists. split; [reflexivity |]. cbn. rewrite Hf.
    repeat split; try tauto; try discriminate.
    intros (? & ? & ? & ? & ? & ? & [= <- <- <- <-] & Hs & He & _).
    destruct Hbad; congruence.
  - do 2 eexists. split; [reflexivity |]. cbn. rewrite Hf.
    repeat split; try tauto; try discriminate.
    intros (? & ? & ? & ? & ? & ? & [= <- <- <- <-] & Hs' & He' & Hl').
    rewrite Hs in Hs'. rewrite He in He'. injection Hs' as <-. injection He' as <-.
    congruence.
  - do 2 eexists. split; [reflexivity |]. cbn. rewrite Hf.
    repeat split; try tauto; try discriminate.
    intros _. now exists st, en, email, name, startISO, endISO.
  - destruct (reserve_cases chosen startISO endISO name email w1)
      as (r & w' & -> & _ & Ht & Hst & _).
    exists r, w'. split; [reflexivity |]. rewrite Hf.
    repeat split; try assumption; try discriminate; try lia.
    intros (? & ? & ? & ? & ? & ? & [= <- <- <- <-] & Hs' & He' & Hl').
    rewrite Hs in Hs'. rewrite He in He'. injection Hs' as <-. injection He' as <-.
    rewrite Hl in Hl'. injection Hl' as -> _. discriminate Hc.
Qed.

(** X22.  With the four fields present, a start or an end that is not a date
    makes [book] answer 500, before any request and with the cache as it
    was. *)
Theorem book_invalid_date b w st en email name :
  requiredFields b = Some (st, en, email, name) ->
  dateParse st = None \/ dateParse en = None ->
  book b w
  = (Returned {| api_status := 500;
                 api_body := ErrorBody (Unexpected InvalidTimeValue) |}, w).
Proof.
  intros Hf Hbad.
  destruct (book_cases b w)
    as [[Hf' _] | (st' & en' & email' & name' & Hf'
                   & [[_ Hb] | (startISO & endISO & Hs & He & _)])].
  - congruence.
  - exact Hb.
  - rewrite Hf in Hf'. injection Hf' as <- <- <- <-.
    apply toISO_Returned in Hs as (ts & Hts & _).
    apply toISO_Returned in He as (te & Hte & _).
    destruct Hbad; congruence.
Qed.

(** X23.  The requests of one call of [book].  First the queries of the loop,
    at most three for each host of the roster, each made with the token of
    a host of the roster and none reserving; then nothing, or one booking
    request for the chosen host, or that request followed by one request
    for a link of the same event type.  So a call reserves once at most,
    and only for a host of the roster, at the instants of the body in
    canonical form. *)
Theorem book_requests b w :
  exists l tail,
    sent (snd (book b w)) = sent w ++ l ++ tail
    /\ (length l <= 3 * length roster)%nat
    /\ Forall queryOfRoster l
    /\ (tail = []
        \/ exists st en email name startISO endISO chosen,
             requiredFields b = Some (st, en, email, name)
             /\ toISO st = Returned startISO /\ toISO en = Returned endISO
             /\ elig_host chosen ∈ roster
             /\ let token := env (pat_env (elig_host chosen)) in
                let direct :=
                  {| bearer := token;
                     endpoint := EventInvitees (et chosen) startISO endISO name email |} in
                let link := {| bearer := token;
                               endpoint := SchedulingLinks (et chosen) 1 |} in
                tail = [direct] \/ tail = [direct; link]).
Proof.
  clear localeCompare arrival.
  destruct (book_cases b w)
    as [[Hf ->] | (st & en & email & name & Hf
                   & [[_ ->] | (startISO & endISO & Hs & He
                                & [(err & w1 & Hl & ->) | [(w1 & Hl & ->)
                                   | (eligible & w1 & chosen & rest & Hl & Hc & ->)]])])].
  - exists [], []. cbn [snd app]. rewrite app_nil_r.
    repeat split; [cbn; lia | constructor | now left].
  - exists [], []. cbn [snd app]. rewrite app_nil_r.
    repeat split; [cbn; lia | constructor | now left].
  - destruct (eligibleLoop_sends startISO endISO roster [] w) as (l & El & Hlen & Fl).
    rewrite Hl in El. exists l, []. cbn [snd] in *. rewrite app_nil_r.
    repeat split; [exact El | exact Hlen | exact Fl | now left].
  - destruct (eligibleLoop_sends startISO endISO roster [] w) as (l & El & Hlen & Fl).
    rewrite Hl in El. exists l, []. cbn [snd] in *. rewrite app_nil_r.
    repeat split; [exact El | exact Hlen | exact Fl | now left].
  - destruct (eligibleLoop_sends startISO endISO roster [] w) as (l & El & Hlen & Fl).
    rewrite Hl in El. cbn [snd] in El.
    destruct (chosen_checked _ _ _ _ _ _ _ Hl Hc) as (_ & _ & Hin & _).
    destruct (reserve_cases chosen startISO endISO name email w1)
      as (r & w' & -> & _ & _ & _ & Hlog). cbv zeta in Hlog. cbn [snd].
    destruct Hlog as [[E _] | [E _]]; rewrite E, El, <- app_assoc;
      eexists l, _; (split; [reflexivity |]); (split; [exact Hlen |]);
      (split; [exact Fl |]); right;
      exists st, en, email, name, startISO, endISO, chosen; cbv zeta;
      (repeat split; try assumption); [now left | now right].
Qed.


(** *** A warm cache *)

Lemma sends_cached_check h st en w e :
  cache w !! host_id h = Some e ->
  sends (queryOf h) 1 w (snd (hostHasExactSlot h st en w))
  /\ cache (snd (hostHasExactSlot h st en w)) = cache w.
Proof.
  intros Hc. split.
  - unfold hostHasExactSlot, bind at 1. rewrite (resolve_hit h w e Hc).
    apply (sends_bind _ 0 1); [apply sends_lift |]. intros startISO w2 _.
    apply (sends_bind _ 0 1); [apply sends_lift |]. intros endISO w3 _.
    apply (sends_tryCatch _ 1 0); [| intros; apply sends_refl].
    apply (sends_bind _ 1 0); [now apply sends_calendly |]. intros j w4 _.
    apply sends_refl.
  - unfold hostHasExactSlot, bind at 1. rewrite (resolve_hit h w e Hc).
    unfold bind at 1, lift at 1. destruct (toISO st) as [startISO | err]; [| reflexivity].
    unfold bind at 1, lift at 1. destruct (toISO en) as [endISO | err]; [| reflexivity].
    unfold tryCatch, bind. rewrite calendly_run.
    destruct (upstream _) as [r | reason]; [| reflexivity].
    destruct (ok r); [| reflexivity]. now destruct (body r).
Qed.

Lemma sends_cached_slots start end_ tz h w e :
  cache w !! host_id h = Some e ->
  sends (queryOf h) 1 w (snd (hostSlots start end_ tz h w)).
Proof.
  intros Hc. unfold hostSlots.
  destruct (truthy (env (pat_env h))) as [token |] eqn:Et; [| apply sends_refl].
  apply truthy_Some in Et. unfold bind at 1. rewrite (resolve_hit h w e Hc).
  apply (sends_bind _ 1 0); [now apply sends_calendly |]. intros data w2 _.
  apply (sends_bind _ 0 0); [apply sends_lift |]. intros slots w3 _.
  apply sends_refl.
Qed.

Lemma eligibleLoop_warm startISO endISO hs : forall acc w,
  (forall h, h ∈ hs -> is_Some (cache w !! host_id h)) ->
  sends (fun q => exists h, h ∈ hs /\ queryOf h q) (length hs) w
    (snd (eligibleLoop startISO endISO hs acc w))
  /\ cache (snd (eligibleLoop startISO endISO hs acc w)) = cache w.
Proof.
  induction hs as [| h r IH]; intros acc w Hall; cbn [eligibleLoop];
    [split; [apply sends_refl | reflexivity] |].
  destruct (Hall h) as [e He]; [left |].
  destruct (sends_cached_check h startISO endISO w e He) as [Hq Hk].
  assert (Hr : forall acc w1,
             cache w1 = cache w ->
             sends (fun q => exists h0, h0 ∈ h :: r /\ queryOf h0 q) (length r) w1
               (snd (eligibleLoop startISO endISO r acc w1))
             /\ cache (snd (eligibleLoop startISO endISO r acc w1)) = cache w).
  { intros acc' w1 E. destruct (IH acc' w1) as [Hs Hc'].
    - intros h0 Hin. rewrite E. apply Hall. now right.
    - split; [| now rewrite Hc'].
      eapply sends_weaken; [| | exact Hs]; [| lia].
      intros q (h0 & Hin & Hq0). exists h0. split; [now right | exact Hq0]. }
  unfold bind at 1 3.
  destruct (hostHasExactSlot h startISO endISO w) as [[has | err] w1] eqn:Eh;
    cbn [snd] in Hq, Hk.
  - assert (Hrest : forall acc', sends (fun q => exists h0, h0 ∈ h :: r /\ queryOf h0 q)
                                   (length (h :: r)) w
                                   (snd (eligibleLoop startISO endISO r acc' w1))
                                 /\ cache (snd (eligibleLoop startISO endISO r acc' w1))
                                    = cache w).
    { intros acc'. destruct (Hr acc' w1 Hk) as [(l2 & E2 & L2 & F2) Hc2].
      split; [| exact Hc2]. destruct Hq as (l1 & E1 & L1 & F1).
      exists (l1 ++ l2). rewrite E2, E1, <- app_assoc. repeat split.
      - rewrite length_app. cbn [length]. lia.
      - apply Forall_app. split; [| exact F2].
        eapply Forall_impl; [exact F1 |]. intros q Hq0. exists h.
        split; [left | exact Hq0]. }
    destruct has; [| apply Hrest].
    unfold bind. rewrite (resolve_hit h w1 e) by (now rewrite Hk). apply Hrest.
  - cbn [snd]. split; [| exact Hk].
    eapply sends_weaken; [| | exact Hq]; [| cbn [length]; lia].
    intros q Hq0. exists h. split; [left | exact Hq0].
Qed.

(** X25.  A warm cache saves the resolver.  When every host of the roster is
    in the cache, the loop of [book] and [getUnionSlots] each send one
    query a host at most, and the loop leaves the cache as it is. *)
Theorem warm_cache_one_query_per_host start end_ tz startISO endISO w :
  (forall h, h ∈ roster -> is_Some (cache w !! host_id h)) ->
  sends queryOfRoster (length roster) w
    (snd (eligibleLoop startISO endISO roster [] w))
  /\ cache (snd (eligibleLoop startISO endISO roster [] w)) = cache w
  /\ sends queryOfRoster (length roster) w (snd (getUnionSlots start end_ tz w)).
Proof.
  intros Hall.
  destruct (eligibleLoop_warm startISO endISO roster [] w Hall) as [H1 H2].
  split; [exact H1 |]. split; [exact H2 |]. clear H1 H2.
  destruct (getUnionSlots_log start end_ tz w) as (l0 & El0 & Hp & _).
  exists l0. split; [exact El0 |]. rewrite Hp. clear l0 El0 Hp.
  unfold queryOfRoster. revert Hall. generalize (cache w) as c. intros c.
  induction roster as [| h r IH]; intros Hall; [cbn; split; [lia | constructor] |].
  cbn [map concat length]. destruct IH as [IHl IHf].
  { intros h0 Hin. apply Hall. now right. }
  destruct (Hall h) as [e He]; [left |].
  destruct (sends_cached_slots start end_ tz h {| cache := c; sent := [] |} e He)
    as (l & El & Hl & Fl).
  cbn [sent app] in El. rewrite El. split.
  - rewrite length_app. lia.
  - apply Forall_app. split.
    + eapply Forall_impl; [exact Fl |]. intros q Hq. exists h.
      split; [left | exact Hq].
    + eapply Forall_impl; [exact IHf |]. intros q (h' & Hin & Hq). exists h'.
      split; [now right | exact Hq].
Qed.

End Server.

(** ** The collation of the examples *)

Lemma codeUnitCompare_String c a b :
  codeUnitCompare (String c a) (String c b) = codeUnitCompare a b.
Proof. unfold codeUnitCompare. now rewrite compare_String. Qed.

Lemma collate_String_same x a b :
  Demo.collate (String x a) (String x b) = Demo.collate a b.
Proof.
  unfold Demo.collate. cbn [Demo.weights Demo.cases].
  destruct (Demo.rank x); [| reflexivity].
  now rewrite compare_String, codeUnitCompare_String.
Qed.

Lemma isDigit_not_upper c : isDigit c = true -> Demo.isUpper c = false.
Proof.
  unfold isDigit, Demo.isUpper. intros H. apply andb_true_iff in H as [_ H].
  apply Nat.leb_le in H. apply andb_false_iff. left. apply Nat.leb_gt. lia.
Qed.

Lemma collate_digits x y a b :
  isDigit x = true -> isDigit y = true ->
  Demo.collate (String x a) (String y b)
  = match Ascii.compare x y with
    | Eq => Demo.collate a b
    | Lt => -1
    | Gt => 1
    end.
Proof.
  intros Hx Hy. unfold Demo.collate. cbn [Demo.weights Demo.cases]. unfold Demo.rank.
  rewrite Hx, Hy, (isDigit_not_upper x Hx), (isDigit_not_upper y Hy).
  cbn [String.compare]. destruct (Ascii.compare x y); [| reflexivity ..].
  now rewrite codeUnitCompare_String.
Qed.

(** It is a consistent comparator. *)
Lemma collate_consistent : consistent Demo.collate.
Proof.
  split.
  - intros a b. unfold Demo.collate.
    rewrite (String.compare_antisym (Demo.weights b) (Demo.weights a)).
    destruct (String.compare (Demo.weights a) (Demo.weights b)); cbn [CompOpp];
      [apply codeUnitCompare_total | left; lia | right; lia].
  - intros a b c. unfold Demo.collate.
    destruct (String.compare (Demo.weights a) (Demo.weights b)) eqn:Eab;
      destruct (String.compare (Demo.weights b) (Demo.weights c)) eqn:Ebc;
      try (intros; lia).
    + apply String.compare_eq_iff in Eab, Ebc. rewrite Eab, Ebc, string_compare_refl.
      apply codeUnitCompare_trans.
    + apply String.compare_eq_iff in Eab. rewrite Eab, Ebc. lia.
    + apply String.compare_eq_iff in Ebc. rewrite <- Ebc, Eab. lia.
    + rewrite (string_compare_trans_Lt _ _ _ Eab Ebc). lia.
Qed.

(** It orders the digits by value. *)
Lemma collate_ordersDigits : ordersDigits Demo.collate.
Proof.
  intros a. induction a as [| x a IH]; intros [| y b] H; cbn [sameShape] in H;
    try discriminate; [reflexivity |].
  apply andb_true_iff in H as [Hhead Htail]. specialize (IH b Htail).
  apply orb_true_iff in Hhead as [Hd | Hm].
  - apply andb_true_iff in Hd as [Hx Hy]. rewrite (collate_digits x y a b Hx Hy).
    unfold codeUnitCompare at 1. cbn [String.compare].
    destruct (Ascii.compare x y); [exact IH | reflexivity | reflexivity].
  - apply andb_true_iff in Hm as [E _]. apply Ascii.eqb_eq in E. subst y.
    now rewrite collate_String_same, codeUnitCompare_String.
Qed.

(** ** A failing host among others *)

Lemma hostFails_unanswered env upstream start end_ tz c h entries :
  hostFails env upstream start end_ tz c h ->
  ~ answers env upstream start end_ tz c h entries.
Proof.
  intros [Hpat | [(err & w1 & Hres) | (token & e & w1 & Hpat & Hres & Hup)]]
         (token' & e' & w1' & r & Ht & Er & Eu & Eok & _).
  - congruence.
  - congruence.
  - rewrite Hpat in Ht. injection Ht as <-. rewrite Hres in Er.
    injection Er as <- <-. rewrite (Hup r Eu) in Eok. discriminate.
Qed.

(** C6.  When the query of one host fails in [getUnionSlots] (no token in
    the environment, the event type not resolved, or the availability query
    rejected or unanswered), the call still returns, and returns what it
    returns for the roster without that host.  Every entry the provider
    answers to another host (in an answer whose starts are all dates) is in
    the result, under its start string and the end 30 minutes later, with
    that host among the [hosts]; and every host of every entry of the
    result is there for an entry the provider answered to it: the failing
    host, which got no answer, brings nothing. *)
Theorem getUnionSlots_isolates_failure
    parseOther env upstream localeCompare arrival before h after start end_ tz w :
  hostFails env upstream start end_ tz (cache w) h ->
  exists us,
    fst (getUnionSlots parseOther env upstream (before ++ h :: after)
           localeCompare arrival start end_ tz w) = Returned us
    /\ fst (getUnionSlots parseOther env upstream (before ++ after)
              localeCompare arrival start end_ tz w) = Returned us
    /\ (forall entries, ~ answers env upstream start end_ tz (cache w) h entries)
    /\ (forall h' entries a,
          h' ∈ before ++ after ->
          answers env upstream start end_ tz (cache w) h' entries ->
          datable parseOther entries -> a ∈ entries ->
          exists u, u ∈ us /\ start_time u = raw_start_time a
                    /\ addMinutesISO parseOther (raw_start_time a) 30
                       = Returned (end_time u)
                    /\ hostRef h' ∈ hosts u)
    /\ (forall u ref,
          u ∈ us -> ref ∈ hosts u ->
          exists h' entries a,
            h' ∈ before ++ after
            /\ answers env upstream start end_ tz (cache w) h' entries
            /\ a ∈ entries /\ start_time u = raw_start_time a /\ ref = hostRef h').
Proof.
  intros Hfail.
  destruct (hostFails_Rejected parseOther env upstream start end_ tz (cache w) h Hfail)
    as (err & Hrej).
  set (settled := settledSlots parseOther env upstream start end_ tz (cache w)) in *.
  exists (unionOf localeCompare (map settled (before ++ after))).
  rewrite !getUnionSlots_Returned. fold settled.
  pose proof (contributions_wf parseOther env upstream (before ++ after)
                start end_ tz (cache w)) as Hwf.
  repeat apply conj.
  - rewrite !map_app. cbn [map]. rewrite Hrej. now rewrite unionOf_skip_rejected.
  - reflexivity.
  - intros entries. now apply hostFails_unanswered.
  - intros h' entries a Hh' Hans Hd Ha.
    destruct (answered_slot parseOther env upstream start end_ tz (cache w)
                h' entries a Hans Hd Ha) as (s & Hs & Hst & Hr).
    assert (Hin : s ∈ contributions parseOther env upstream (before ++ after)
                      start end_ tz (cache w))
      by (apply elem_of_contributions; now exists h').
    destruct (union_entry_of_slot parseOther env upstream (before ++ after)
                localeCompare start end_ tz w s Hin) as (u & Hu & Hsu & Heu & Hhu).
    exists u. split; [exact Hu |]. split; [congruence |]. split; [| now rewrite <- Hr].
    rewrite Forall_forall in Hwf. specialize (Hwf s Hin).
    unfold wfSlot, durationMinutes in Hwf. now rewrite Heu, <- Hst.
  - intros u ref Hu Href.
    rewrite <- getUnionSlots_slots in Hwf. fold settled in Hwf.
    destruct (unionOf_entry parseOther localeCompare _ Hwf u Hu) as (_ & _ & _ & _ & Hh).
    rewrite Hh in Href. apply list_elem_of_fmap in Href as (s & -> & Hs).
    apply list_elem_of_filter in Hs as [Hst Hs].
    unfold settled in Hs. rewrite getUnionSlots_slots in Hs.
    apply elem_of_contributions in Hs as (h' & Hh' & Hs).
    destruct (slot_answered parseOther env upstream start end_ tz (cache w) h' s Hs)
      as (entries & a & Hans & Ha & Hsa & Hr).
    exists h', entries, a. repeat split; try assumption. congruence.
Qed.

(** ** Runs on the demonstration roster *)

Local Abbreviation bookOn availability booking link roster :=
  (book Demo.isoOnly Demo.env (Demo.provider availability booking link) roster).
Local Abbreviation checkOn availability :=
  (hostHasExactSlot Demo.isoOnly Demo.env
     (Demo.provider availability Demo.confirmed Demo.linked)).
Local Abbreviation unionOn availability roster :=
  (getUnionSlots Demo.isoOnly Demo.env
     (Demo.provider availability Demo.confirmed Demo.linked) roster
     Demo.collate Demo.inTurn).
Local Abbreviation answersOn availability :=
  (answers Demo.env (Demo.provider availability Demo.confirmed Demo.linked)).

(** C3 (the code fails the claim).  The check does not return [false] when
    the resolution of the event type fails: it throws.  Here the token of
    dave is missing and no event type of the account matches the page of
    erin; [book] then answers 500. *)
Theorem hostHasExactSlot_throws_on_resolution_failure :
  checkOn Demo.exact Demo.dave Demo.ten Demo.tenThirty Demo.start0
  = (Thrown (MissingPat "dave" "PAT_dave"), Demo.start0)
  /\ fst (checkOn Demo.exact Demo.erin Demo.ten Demo.tenThirty Demo.start0)
     = Thrown (NoEventType "https://calendly.com/erin/intro" "erin"
                 [Some "https://calendly.com/alice/30min"])
  /\ fst (bookOn Demo.exact Demo.confirmed Demo.linked [Demo.alice; Demo.dave]
            Demo.request Demo.start0)
     = Returned {| api_status := 500;
                   api_body := ErrorBody (Unexpected (MissingPat "dave" "PAT_dave")) |}.
Proof. repeat split; vm_compute; reflexivity. Qed.

(** C1 (the code fails the claim).  On the roster of alice and dave the
    provider offers the exact slot for alice: her check returns [true], the
    set of eligible hosts is not empty.  The token of dave is missing, his
    check throws in the resolver (the defect of C3), and [book] answers 500:
    it selects nobody and sends no request that reserves. *)
Theorem book_selects_nobody_when_a_check_throws :
  checkOn Demo.exact Demo.alice Demo.ten Demo.tenThirty Demo.start0
  = (Returned true, Demo.aliceChecked)
  /\ checkOn Demo.exact Demo.dave Demo.ten Demo.tenThirty Demo.aliceChecked
     = (Thrown (MissingPat "dave" "PAT_dave"), Demo.aliceChecked)
  /\ bookOn Demo.exact Demo.confirmed Demo.linked [Demo.alice; Demo.dave]
       Demo.request Demo.start0
     = (Returned {| api_status := 500;
                    api_body := ErrorBody (Unexpected (MissingPat "dave" "PAT_dave")) |},
        Demo.aliceChecked)
  /\ Forall (fun q => isReservation q = false) (sent Demo.aliceChecked).
Proof.
  repeat split; try (vm_compute; reflexivity).
  repeat constructor.
Qed.

(** C9 (the code fails the claim).  No host is verified to offer the slot,
    on the roster of dave alone and on the roster of alice and dave when
    alice offers an interval that only overlaps it; yet [book] answers 500,
    not 409: the check of dave, whose token is missing, throws in the
    resolver (the defect of C3). *)
Theorem book_answers_500_when_no_host_is_verified :
  bookOn Demo.exact Demo.confirmed Demo.linked [Demo.dave] Demo.request Demo.start0
  = (Returned {| api_status := 500;
                 api_body := ErrorBody (Unexpected (MissingPat "dave" "PAT_dave")) |},
     Demo.start0)
  /\ checkOn Demo.overlapping Demo.alice Demo.ten Demo.tenThirty Demo.start0
     = (Returned false, Demo.aliceChecked)
  /\ bookOn Demo.overlapping Demo.confirmed Demo.linked [Demo.alice; Demo.dave]
       Demo.request Demo.start0
     = (Returned {| api_status := 500;
                    api_body := ErrorBody (Unexpected (MissingPat "dave" "PAT_dave")) |},
        Demo.aliceChecked).
Proof. repeat split; vm_compute; reflexivity. Qed.


(** C8, as stated, fails: the result follows the strings, and the answer
    of a host that writes one instant with an offset comes out of the order
    of instants. *)
Lemma getUnionSlots_not_sorted_by_instant :
  exists us,
    fst (unionOn Demo.mixedOffsets [Demo.alice] "2025-11-07T00:00:00.000Z"
           "2025-11-08T00:00:00.000Z" None Demo.start0) = Returned us
    /\ map start_time us = ["2025-11-07T09:00:00Z"; "2025-11-07T10:00:00+05:30"]
    /\ map (fun e => dateParse Demo.isoOnly (start_time e)) us
       = [Some 1762506000000; Some 1762489800000]
    /\ ~ Sorted (byInstant Demo.isoOnly) us.
Proof.
  eexists. split; [vm_compute; reflexivity |].
  split; [reflexivity |]. split; [vm_compute; reflexivity |].
  intros H. inversion H as [| a l _ Hd]; subst.
  inversion Hd as [| b l' Hab]; subst.
  vm_compute in Hab. now apply Hab.
Qed.

Local Abbreviation threeHosts := [Demo.alice; Demo.bob; Demo.carol].
Local Abbreviation threeEligible :=
  [Demo.eligibleOf Demo.alice; Demo.eligibleOf Demo.bob; Demo.eligibleOf Demo.carol].
Local Abbreviation rejected422 := (fun _ : string => Demo.failed 422).
Local Abbreviation rejected500 := (fun _ : string => Demo.failed 500).

(** X27 on alice (5), bob (10) and carol (10), who all offer the slot: the
    loop finds the three, in roster order. *)
Lemma book_selects_first_greatest_witness :
  Scanned Demo.isoOnly Demo.env
    (Demo.provider Demo.exact Demo.confirmed Demo.linked)
    Demo.ten Demo.tenThirty threeHosts Demo.start0 threeEligible Demo.afterScan
  /\ map elig_host threeEligible `sublist_of` threeHosts
  /\ exists chosen l1 l2,
      threeEligible = l1 ++ chosen :: l2
      /\ Forall (fun h => priority_weight (elig_host h)
                          < priority_weight (elig_host chosen)) l1
      /\ Forall (fun h => priority_weight (elig_host h)
                          <= priority_weight (elig_host chosen)) l2
      /\ bookOn Demo.exact Demo.confirmed Demo.linked threeHosts
           Demo.request Demo.start0
         = tryCatch
             (reserve Demo.env (Demo.provider Demo.exact Demo.confirmed Demo.linked)
                chosen Demo.ten Demo.tenThirty "Ira" "ira@example.org")
             internalError Demo.afterScan
      /\ (exists rest,
            sent (snd (bookOn Demo.exact Demo.confirmed Demo.linked threeHosts
                         Demo.request Demo.start0))
            = sent Demo.afterScan
                ++ {| bearer := Demo.env (pat_env (elig_host chosen));
                      endpoint := EventInvitees (et chosen) Demo.ten Demo.tenThirty
                                    "Ira" "ira@example.org" |} :: rest)
      /\ (forall r w2,
            bookOn Demo.exact Demo.confirmed Demo.linked threeHosts
              Demo.request Demo.start0 = (Returned r, w2) ->
            api_status r = 200 ->
            hostAssigned (api_body r) = Some (display_name (elig_host chosen))).
Proof.
  apply (book_selects_first_greatest Demo.isoOnly Demo.env
           (Demo.provider Demo.exact Demo.confirmed Demo.linked) threeHosts
           Demo.request Demo.start0 Demo.ten Demo.tenThirty
           "ira@example.org" "Ira" Demo.ten Demo.tenThirty
           threeEligible Demo.afterScan).
  - reflexivity.
  - vm_compute; reflexivity.
  - vm_compute; reflexivity.
  - vm_compute; reflexivity.
  - discriminate.
Defined.

(** The host of greatest weight is assigned, and of two such the one the
    roster lists first. *)
Example book_assigns_bob :
  fst (bookOn Demo.exact Demo.confirmed Demo.linked threeHosts Demo.request Demo.start0)
  = Returned {| api_status := 200;
                api_body := BookingBody (PDocument "booking") "Bob" |}.
Proof. vm_compute; reflexivity. Qed.

Example book_assigns_carol_listed_first :
  fst (bookOn Demo.exact Demo.confirmed Demo.linked
         [Demo.alice; Demo.carol; Demo.bob] Demo.request Demo.start0)
  = Returned {| api_status := 200;
                api_body := BookingBody (PDocument "booking") "Carol" |}.
Proof. vm_compute; reflexivity. Qed.


Example book_redirects_after_422 :
  fst (bookOn Demo.exact rejected422 Demo.linked threeHosts Demo.request Demo.start0)
  = Returned {| api_status := 200;
                api_body := RedirectBody (Some "https://calendly.com/d/bob") "Bob" |}.
Proof. vm_compute; reflexivity. Qed.

Example book_fails_after_500 :
  bookOn Demo.exact rejected500 Demo.linked threeHosts Demo.request Demo.start0
  = (Returned {| api_status := 502;
                 api_body := ErrorBody (SchedulingApiFailed 500 (BodyText "error")) |},
     {| cache := cache Demo.afterScan;
        sent := sent Demo.afterScan
                  ++ [ {| bearer := Some "bob";
                          endpoint := EventInvitees (Demo.eventTypeOf "bob") Demo.ten
                                        Demo.tenThirty "Ira" "ira@example.org" |} ] |}).
Proof. vm_compute; reflexivity. Qed.


Example slotsRoute_clamps :
  exists us,
    fst (slotsRoute Demo.isoOnly Demo.env
           (Demo.provider Demo.exact Demo.confirmed Demo.linked) threeHosts Demo.collate
           Demo.inTurn 1762500000000 (Some "2025-11-07T00:00:00Z")
           (Some "2025-12-07T00:00:00Z") (Some "Asia/Calcutta") Demo.start0)
    = Returned {| api_status := 200;
                  api_body := SlotsBody us "2025-11-07T07:21:00.000Z"
                                "2025-11-14T07:21:00.000Z" "Asia/Kolkata" |}.
Proof. eexists. vm_compute; reflexivity. Qed.

Example slotsRoute_rejects_inverted_window :
  fst (slotsRoute Demo.isoOnly Demo.env
         (Demo.provider Demo.exact Demo.confirmed Demo.linked) threeHosts Demo.collate
         Demo.inTurn 1762500000000 (Some "2025-11-09T00:00:00Z")
         (Some "2025-11-08T00:00:00Z") None Demo.start0)
  = Returned {| api_status := 400; api_body := ErrorBody EndMustBeAfterStart |}.
Proof. vm_compute; reflexivity. Qed.

(** X28 on the same roster, every host offering an interval that overlaps
    the slot and is not the slot: [book] answers 409. *)
Lemma book_no_eligible_witness :
  fst (bookOn Demo.overlapping Demo.confirmed Demo.linked threeHosts
         Demo.request Demo.start0)
  = Returned {| api_status := 409; api_body := ErrorBody SlotNoLongerAvailable |}
  /\ exists l,
      sent (snd (bookOn Demo.overlapping Demo.confirmed Demo.linked threeHosts
                   Demo.request Demo.start0))
      = sent Demo.start0 ++ l
      /\ Forall (fun q => isReservation q = false) l.
Proof.
  apply (book_no_eligible Demo.isoOnly Demo.env
           (Demo.provider Demo.overlapping Demo.confirmed Demo.linked) threeHosts
           Demo.request Demo.start0 Demo.ten Demo.tenThirty
           "ira@example.org" "Ira" Demo.ten Demo.tenThirty Demo.afterScan).
  - reflexivity.
  - vm_compute; reflexivity.
  - vm_compute; reflexivity.
  - vm_compute; reflexivity.
Defined.

Local Abbreviation sharedSlot :=
  {| start_time := Demo.ten;
     end_time := Demo.tenThirty;
     hosts := [ {| id := "alice"; name := "Alice" |};
                {| id := "bob"; name := "Bob" |} ] |}.

(** C6 with dave, whose token is missing, between alice and bob, who both
    offer the slot. *)
Lemma getUnionSlots_isolates_failure_witness :
  fst (unionOn Demo.exact [Demo.alice; Demo.dave; Demo.bob]
         "2025-11-07T00:00:00.000Z" "2025-11-08T00:00:00.000Z" None Demo.start0)
  = Returned [sharedSlot]
  /\ fst (unionOn Demo.exact [Demo.alice; Demo.bob]
            "2025-11-07T00:00:00.000Z" "2025-11-08T00:00:00.000Z" None Demo.start0)
     = Returned [sharedSlot]
  /\ (forall entries,
        ~ answersOn Demo.exact "2025-11-07T00:00:00.000Z" "2025-11-08T00:00:00.000Z"
            None (cache Demo.start0) Demo.dave entries)
  /\ (forall h' entries a,
        h' ∈ [Demo.alice] ++ [Demo.bob] ->
        answersOn Demo.exact "2025-11-07T00:00:00.000Z" "2025-11-08T00:00:00.000Z"
          None (cache Demo.start0) h' entries ->
        datable Demo.isoOnly entries -> a ∈ entries ->
        exists u, u ∈ [sharedSlot] /\ start_time u = raw_start_time a
                  /\ addMinutesISO Demo.isoOnly (raw_start_time a) 30
                     = Returned (end_time u)
                  /\ hostRef h' ∈ hosts u)
  /\ (forall u ref,
        u ∈ [sharedSlot] -> ref ∈ hosts u ->
        exists h' entries a,
          h' ∈ [Demo.alice] ++ [Demo.bob]
          /\ answersOn Demo.exact "2025-11-07T00:00:00.000Z" "2025-11-08T00:00:00.000Z"
               None (cache Demo.start0) h' entries
          /\ a ∈ entries /\ start_time u = raw_start_time a /\ ref = hostRef h').
Proof.
  destruct (getUnionSlots_isolates_failure Demo.isoOnly Demo.env
              (Demo.provider Demo.exact Demo.confirmed Demo.linked)
              Demo.collate Demo.inTurn [Demo.alice] Demo.dave [Demo.bob]
              "2025-11-07T00:00:00.000Z" "2025-11-08T00:00:00.000Z" None Demo.start0
              (or_introl eq_refl))
    as (us & Hwith & Hwithout & Hnone & Hall & Honly).
  cbn [app] in Hwith, Hwithout.
  assert (us = [sharedSlot]) as ->.
  { assert (E : fst (unionOn Demo.exact [Demo.alice; Demo.bob]
                       "2025-11-07T00:00:00.000Z" "2025-11-08T00:00:00.000Z"
                       None Demo.start0) = Returned [sharedSlot])
      by (vm_compute; reflexivity).
    rewrite Hwithout in E. now injection E. }
  repeat split; assumption.
Defined.

Example getUnionSlots_without_dave :
  fst (unionOn Demo.exact [Demo.alice; Demo.dave; Demo.bob]
         "2025-11-07T00:00:00.000Z" "2025-11-08T00:00:00.000Z" None Demo.start0)
  = Returned [ {| start_time := Demo.ten;
                  end_time := Demo.tenThirty;
                  hosts := [ {| id := "alice"; name := "Alice" |};
                             {| id := "bob"; name := "Bob" |} ] |} ].
Proof. vm_compute; reflexivity. Qed.

(** Two notations of one instant make two entries (C10). *)
Example getUnionSlots_two_notations :
  fst (unionOn Demo.twoNotations [Demo.alice] "2025-11-07T00:00:00.000Z"
         "2025-11-08T00:00:00.000Z" None Demo.start0)
  = Returned [ {| start_time := "2025-11-07T10:00:00.000Z";
                  end_time := "2025-11-07T10:30:00.000Z";
                  hosts := [ {| id := "alice"; name := "Alice" |} ] |};
               {| start_time := "2025-11-07T10:00:00Z";
                  end_time := "2025-11-07T10:30:00.000Z";
                  hosts := [ {| id := "alice"; name := "Alice" |} ] |} ]
  /\ dateParse Demo.isoOnly "2025-11-07T10:00:00.000Z"
     = dateParse Demo.isoOnly "2025-11-07T10:00:00Z".
Proof. split; vm_compute; reflexivity. Qed.

Local Abbreviation twoEntries :=
  [ {| start_time := "2025-11-07T10:00:00.000Z";
       end_time := "2025-11-07T10:30:00.000Z";
       hosts := [ {| id := "alice"; name := "Alice" |} ] |};
    {| start_time := "2025-11-07T10:00:00Z";
       end_time := "2025-11-07T10:30:00.000Z";
       hosts := [ {| id := "alice"; name := "Alice" |} ] |} ].

(** C10 on alice, who writes one instant in two notations: two entries,
    the longer string first in the collation of the examples. *)
Lemma getUnionSlots_merges_by_string_witness :
  fst (unionOn Demo.twoNotations [Demo.alice] "2025-11-07T00:00:00.000Z"
         "2025-11-08T00:00:00.000Z" None Demo.start0) = Returned twoEntries
  /\ NoDup (map start_time twoEntries)
  /\ (forall u, u ∈ twoEntries ->
        exists h entries a,
          h ∈ [Demo.alice]
          /\ answersOn Demo.twoNotations "2025-11-07T00:00:00.000Z"
               "2025-11-08T00:00:00.000Z" None (cache Demo.start0) h entries
          /\ a ∈ entries /\ start_time u = raw_start_time a
          /\ addMinutesISO Demo.isoOnly (raw_start_time a) 30 = Returned (end_time u))
  /\ (forall u1 u2, u1 ∈ twoEntries -> u2 ∈ twoEntries ->
        (u1 = u2 <-> start_time u1 = start_time u2))
  /\ StronglySorted (fun a b => Demo.collate (start_time a) (start_time b) <= 0)
       twoEntries.
Proof.
  destruct (getUnionSlots_merges_by_string Demo.isoOnly Demo.env
              (Demo.provider Demo.twoNotations Demo.confirmed Demo.linked)
              [Demo.alice] Demo.collate Demo.inTurn
              "2025-11-07T00:00:00.000Z" "2025-11-08T00:00:00.000Z" None Demo.start0)
    as (us & Hus & Hnd & Hfrom & _ & Hsame & _ & Hsorted).
  match goal with
  | |- fst ?run = Returned ?l /\ _ =>
      assert (us = l) as ->;
        [assert (E : fst run = Returned l) by (vm_compute; reflexivity);
         rewrite Hus in E; now injection E |]
  end.
  split; [exact Hus |]. split; [exact Hnd |]. split; [exact Hfrom |].
  split; [exact Hsame |]. exact (Hsorted collate_consistent).
Defined.

(** C4 on alice, to whom the provider offers the very slot asked for. *)
Lemma hostHasExactSlot_true_iff_witness :
  checkOn Demo.exact Demo.alice Demo.ten Demo.tenThirty Demo.start0
  = (Returned true, Demo.aliceChecked).
Proof.
  apply (proj2 (hostHasExactSlot_true_iff Demo.isoOnly Demo.env
                  (Demo.provider Demo.exact Demo.confirmed Demo.linked)
                  Demo.alice Demo.ten Demo.tenThirty Demo.start0 Demo.aliceChecked)).
  exists (Demo.eventTypeOf "alice"), Demo.aliceResolved,
    1762509600000, 1762511400000,
    (Demo.times [(Demo.ten, Some Demo.tenThirty)]),
    [ {| raw_start_time := Demo.ten; raw_end_time := Some Demo.tenThirty |} ],
    {| raw_start_time := Demo.ten; raw_end_time := Some Demo.tenThirty |}.
  cbv zeta. repeat split; try (vm_compute; reflexivity). left.
Defined.

(** An interval that overlaps the slot without being the slot does not
    count (C4). *)
Example hostHasExactSlot_overlap_is_not_exact :
  fst (checkOn Demo.overlapping Demo.alice Demo.ten Demo.tenThirty Demo.start0)
  = Returned false
  /\ fst (checkOn Demo.exact Demo.alice Demo.ten Demo.tenThirty Demo.start0)
     = Returned true.
Proof. split; vm_compute; reflexivity. Qed.

Local Abbreviation quarterTo :=
  {| start_time := "2025-11-07T09:45:00.000Z";
     end_time := "2025-11-07T10:15:00.000Z";
     hosts := [ {| id := "alice"; name := "Alice" |};
                {| id := "bob"; name := "Bob" |} ] |}.

(** C8 for the collation of the examples, where the condition of its second
    part holds: alice and bob answer in the canonical form, ten o'clock
    first and a quarter to ten second; the result has the two in order. *)
Lemma getUnionSlots_sorted_witness :
  fst (unionOn Demo.overlapping [Demo.alice; Demo.bob]
         "2025-11-07T00:00:00.000Z" "2025-11-08T00:00:00.000Z" None Demo.start0)
  = Returned [quarterTo; sharedSlot]
  /\ StronglySorted
       (fun a b => Demo.collate (start_time a) (start_time b) <= 0)
       [quarterTo; sharedSlot]
  /\ StronglySorted (byInstant Demo.isoOnly) [quarterTo; sharedSlot].
Proof.
  destruct (getUnionSlots_sorted Demo.isoOnly Demo.env
              (Demo.provider Demo.overlapping Demo.confirmed Demo.linked)
              [Demo.alice; Demo.bob] Demo.collate Demo.inTurn
              "2025-11-07T00:00:00.000Z" "2025-11-08T00:00:00.000Z" None Demo.start0
              collate_consistent)
    as (us & Hus & Hstr & Hinst).
  assert (us = [quarterTo; sharedSlot]) as ->.
  { assert (E : fst (unionOn Demo.overlapping [Demo.alice; Demo.bob]
                       "2025-11-07T00:00:00.000Z" "2025-11-08T00:00:00.000Z"
                       None Demo.start0) = Returned [quarterTo; sharedSlot])
      by (vm_compute; reflexivity).
    rewrite Hus in E. now injection E. }
  split; [exact Hus |]. split; [exact Hstr |].
  apply Hinst; [exact collate_ordersDigits |].
  intros h entries a _ (token & e & w1 & r & _ & _ & Eu & _ & Eb) Ha.
  unfold Demo.provider in Eu. cbn [bearer endpoint] in Eu. injection Eu as <-.
  cbn in Eb. injection Eb as <-.
  repeat (apply elem_of_cons in Ha as [-> | Ha]);
    [exists 1762509600000 | exists 1762508700000 | now apply elem_of_nil in Ha];
    (split; [lia | vm_compute; reflexivity]).
Defined.


(** The check fails closed on the availability query: a provider that
    answers 500 to it makes the check [false]. *)
Example hostHasExactSlot_false_on_failed_query :
  fst (checkOn Demo.nobody Demo.alice Demo.ten Demo.tenThirty Demo.start0)
  = Returned false.
Proof. vm_compute; reflexivity. Qed.

(** ** The roster: its order, and runs on the hosts of the examples *)

Lemma concat_map_Permutation {A B} (f : A -> list B) l1 l2 :
  l1 ≡ₚ l2 -> concat (map f l1) ≡ₚ concat (map f l2).
Proof.
  induction 1 as [| x l l' _ IH | x y l | l l' l'' _ IH1 _ IH2]; cbn [map concat].
  - reflexivity.
  - now rewrite IH.
  - rewrite !app_assoc. now rewrite (Permutation_app_comm (f y) (f x)).
  - now rewrite IH1.
Qed.

(** X26.  The order of the hosts in the roster changes nothing in the
    entries of the result of [getUnionSlots] but the order of the hosts
    within an entry: two rosters with the same hosts give as many entries,
    and to each entry of the one an entry of the other with the same start,
    the same end and the same hosts.  The entries come at the same places
    too when [localeCompare] is a consistent comparator that ties no two
    different start strings of the result (tied entries keep the order in
    which the roster brought them). *)
Theorem getUnionSlots_roster_order
    parseOther env upstream localeCompare arrival r1 r2 start end_ tz w :
  r1 ≡ₚ r2 ->
  exists us1 us2,
    fst (getUnionSlots parseOther env upstream r1 localeCompare arrival start end_ tz w)
    = Returned us1
    /\ fst (getUnionSlots parseOther env upstream r2 localeCompare arrival
              start end_ tz w) = Returned us2
    /\ length us1 = length us2
    /\ (forall a, a ∈ us1 -> exists b, b ∈ us2 /\ sameSlot a b)
    /\ (consistent localeCompare ->
        untied localeCompare (map start_time us1) ->
        Forall2 sameSlot us1 us2).
Proof.
  intros Hp. do 2 eexists. split; [apply getUnionSlots_Returned |].
  split; [apply getUnionSlots_Returned |].
  apply (unionOf_Permutation parseOther).
  - rewrite getUnionSlots_slots. apply contributions_wf.
  - rewrite !map_map. now apply concat_map_Permutation.
Qed.

(** The loop of [book] over alice, bob and carol, who all offer the slot. *)
Lemma threeScanned :
  Scanned Demo.isoOnly Demo.env
    (Demo.provider Demo.exact Demo.confirmed Demo.linked)
    Demo.ten Demo.tenThirty threeHosts Demo.start0 threeEligible Demo.afterScan.
Proof.
  assert (H : eligibleLoop Demo.isoOnly Demo.env
                (Demo.provider Demo.exact Demo.confirmed Demo.linked)
                Demo.ten Demo.tenThirty threeHosts [] Demo.start0
              = (Returned threeEligible, Demo.afterScan))
    by (vm_compute; reflexivity).
  apply eligibleLoop_Scanned in H as (more & E & Hs). cbn [app] in E.
  now rewrite E.
Qed.

(** X3 on alice, once the resolver has run for her from an empty cache. *)
Lemma resolve_memoized_witness :
  resolveEventTypeApiUriForHost Demo.env
    (Demo.provider Demo.exact Demo.confirmed Demo.linked) Demo.alice Demo.aliceResolved
  = (Returned (Demo.eventTypeOf "alice"), Demo.aliceResolved)
  /\ forall w2, cache Demo.aliceResolved ⊆ cache w2 ->
       resolveEventTypeApiUriForHost Demo.env
         (Demo.provider Demo.exact Demo.confirmed Demo.linked) Demo.alice w2
       = (Returned (Demo.eventTypeOf "alice"), w2).
Proof.
  apply (resolve_memoized Demo.env
           (Demo.provider Demo.exact Demo.confirmed Demo.linked)
           Demo.alice Demo.start0).
  vm_compute; reflexivity.
Defined.

(** X4 on alice and an empty cache. *)
Lemma resolve_miss_Returned_witness :
  resolveEventTypeApiUriForHost Demo.env
    (Demo.provider Demo.exact Demo.confirmed Demo.linked) Demo.alice Demo.start0
  = (Returned (Demo.eventTypeOf "alice"), Demo.aliceResolved)
  <-> exists token userUri r1 me r2 listing m,
        truthy (Demo.env (pat_env Demo.alice)) = Some token
        /\ Demo.provider Demo.exact Demo.confirmed Demo.linked
             {| bearer := Some token; endpoint := UsersMe |} = Responded r1
        /\ ok r1 = true /\ body r1 = BodyJson me
        /\ truthy (resourceUri me) = Some userUri
        /\ Demo.provider Demo.exact Demo.confirmed Demo.linked
             {| bearer := Some token; endpoint := EventTypes userUri |} = Responded r2
        /\ ok r2 = true /\ body r2 = BodyJson listing
        /\ find (fun x => bool_decide
                            (et_scheduling_url x = Some (event_type_uri Demo.alice)))
             (eventTypes listing) = Some m
        /\ Demo.eventTypeOf "alice" = et_uri m
        /\ Demo.aliceResolved
           = {| cache := <[host_id Demo.alice := Demo.eventTypeOf "alice"]>
                           (cache Demo.start0);
                sent := sent Demo.start0 ++ resolverRequests token userUri |}.
Proof.
  apply (resolve_miss_Returned Demo.env
           (Demo.provider Demo.exact Demo.confirmed Demo.linked)
           Demo.alice Demo.start0).
  reflexivity.
Defined.

(** X5 on dave, whose token is not in the environment. *)
Lemma resolve_without_token_witness :
  snd (resolveEventTypeApiUriForHost Demo.env
         (Demo.provider Demo.exact Demo.confirmed Demo.linked) Demo.dave Demo.start0)
  = Demo.start0
  /\ fst (resolveEventTypeApiUriForHost Demo.env
            (Demo.provider Demo.exact Demo.confirmed Demo.linked) Demo.dave Demo.start0)
     = match cache Demo.start0 !! host_id Demo.dave with
       | Some e => Returned e
       | None => Thrown (MissingPat (host_id Demo.dave) (pat_env Demo.dave))
       end.
Proof.
  apply (resolve_without_token Demo.env
           (Demo.provider Demo.exact Demo.confirmed Demo.linked)
           Demo.dave Demo.start0).
  reflexivity.
Defined.

(** X7 on one instant written in UTC and in the zone of Kolkata. *)
Lemma toISO_eq_iff_witness :
  Demo.ten = Demo.ten
  <-> sameInstant Demo.isoOnly (Some "2025-11-07T10:00:00Z")
        (Some "2025-11-07T15:30:00+05:30") = true.
Proof.
  apply (toISO_eq_iff Demo.isoOnly "2025-11-07T10:00:00Z" "2025-11-07T15:30:00+05:30");
    vm_compute; reflexivity.
Defined.

(** X9 on the slot of the examples: twice 30 minutes are 60. *)
Lemma addMinutesISO_compose_witness :
  addMinutesISO Demo.isoOnly Demo.tenThirty 30
  = addMinutesISO Demo.isoOnly Demo.ten (30 + 30)
  /\ addMinutesISO Demo.isoOnly Demo.ten 0 = toISO Demo.isoOnly Demo.ten.
Proof.
  apply (addMinutesISO_compose Demo.isoOnly Demo.ten 30 30 Demo.tenThirty).
  vm_compute; reflexivity.
Defined.

(** X11 on the check of alice for the slot she offers. *)
Lemma hostHasExactSlot_Returned_witness :
  exists e w1 ts te,
    resolveEventTypeApiUriForHost Demo.env
      (Demo.provider Demo.exact Demo.confirmed Demo.linked) Demo.alice Demo.start0
    = (Returned e, w1)
    /\ dateParse Demo.isoOnly Demo.ten = Some ts
    /\ dateParse Demo.isoOnly Demo.tenThirty = Some te
    /\ Demo.aliceChecked
       = {| cache := cache w1;
            sent := sent w1
                      ++ [ {| bearer := Demo.env (pat_env Demo.alice);
                              endpoint := AvailableTimes e (JSDate.isoOfTime ts)
                                            (JSDate.isoOfTime te) "UTC" |} ] |}
    /\ resolveEventTypeApiUriForHost Demo.env
         (Demo.provider Demo.exact Demo.confirmed Demo.linked)
         Demo.alice Demo.aliceChecked
       = (Returned e, Demo.aliceChecked).
Proof.
  apply (hostHasExactSlot_Returned Demo.isoOnly Demo.env
           (Demo.provider Demo.exact Demo.confirmed Demo.linked)
           Demo.alice Demo.ten Demo.tenThirty Demo.start0 true).
  vm_compute; reflexivity.
Defined.

(** X12 on a start that no engine reading ISO only can parse. *)
Lemma hostHasExactSlot_invalid_date_witness :
  checkOn Demo.exact Demo.alice "tomorrow" Demo.tenThirty Demo.start0
  = (Thrown InvalidTimeValue, Demo.aliceResolved).
Proof.
  apply (hostHasExactSlot_invalid_date Demo.isoOnly Demo.env
           (Demo.provider Demo.exact Demo.confirmed Demo.linked)
           Demo.alice "tomorrow" Demo.tenThirty Demo.start0 (Demo.eventTypeOf "alice")).
  - vm_compute; reflexivity.
  - left. reflexivity.
Defined.

(** X14 on the loop over alice, bob and carol. *)
Lemma Scanned_cached_witness :
  cache Demo.start0 ⊆ cache Demo.afterScan
  /\ Forall (fun x => cache Demo.afterScan !! host_id (elig_host x) = Some (et x))
            threeEligible.
Proof.
  apply (Scanned_cached Demo.isoOnly Demo.env
           (Demo.provider Demo.exact Demo.confirmed Demo.linked)
           Demo.ten Demo.tenThirty threeHosts).
  exact threeScanned.
Defined.

(** X15 on an answer of alice whose second entry starts [soon]. *)
Lemma hostSlots_bad_entry_witness :
  (exists err,
     settledSlots Demo.isoOnly Demo.env
       (Demo.provider Demo.garbled Demo.confirmed Demo.linked)
       "2025-11-07T00:00:00.000Z" "2025-11-08T00:00:00.000Z" None ∅ Demo.alice
     = Rejected err)
  /\ slotsOf (settledSlots Demo.isoOnly Demo.env
                (Demo.provider Demo.garbled Demo.confirmed Demo.linked)
                "2025-11-07T00:00:00.000Z" "2025-11-08T00:00:00.000Z" None ∅
                Demo.alice) = [].
Proof.
  apply (hostSlots_bad_entry Demo.isoOnly Demo.env
           (Demo.provider Demo.garbled Demo.confirmed Demo.linked)
           "2025-11-07T00:00:00.000Z" "2025-11-08T00:00:00.000Z" None ∅ Demo.alice
           "alice" (Demo.eventTypeOf "alice") Demo.aliceResolved
           (PAvailableTimes [ {| raw_start_time := Demo.ten; raw_end_time := None |};
                              {| raw_start_time := "soon"; raw_end_time := None |} ])
           {| cache := cache Demo.aliceResolved;
              sent := sent Demo.aliceResolved
                        ++ [ {| bearer := Some "alice";
                                endpoint := AvailableTimes (Demo.eventTypeOf "alice")
                                              "2025-11-07T00:00:00.000Z"
                                              "2025-11-08T00:00:00.000Z" "UTC" |} ] |}
           {| raw_start_time := "soon"; raw_end_time := None |}).
  - reflexivity.
  - vm_compute; reflexivity.
  - vm_compute; reflexivity.
  - cbn [availableTimes]. right. left.
  - reflexivity.
Defined.

(** X22 on a body whose start is [tomorrow]. *)
Lemma book_invalid_date_witness :
  bookOn Demo.exact Demo.confirmed Demo.linked threeHosts Demo.undated Demo.start0
  = (Returned {| api_status := 500;
                 api_body := ErrorBody (Unexpected InvalidTimeValue) |}, Demo.start0).
Proof.
  apply (book_invalid_date Demo.isoOnly Demo.env
           (Demo.provider Demo.exact Demo.confirmed Demo.linked) threeHosts
           Demo.undated Demo.start0 "tomorrow" Demo.tenThirty "ira@example.org" "Ira").
  - reflexivity.
  - left. reflexivity.
Defined.

Local Abbreviation sharedSlotBobFirst :=
  {| start_time := Demo.ten;
     end_time := Demo.tenThirty;
     hosts := [ {| id := "bob"; name := "Bob" |};
                {| id := "alice"; name := "Alice" |} ] |}.
Local Abbreviation quarterToBobFirst :=
  {| start_time := "2025-11-07T09:45:00.000Z";
     end_time := "2025-11-07T10:15:00.000Z";
     hosts := [ {| id := "bob"; name := "Bob" |};
                {| id := "alice"; name := "Alice" |} ] |}.

(** X26 on alice and bob, listed in the two orders. *)
Lemma getUnionSlots_roster_order_witness :
  fst (unionOn Demo.overlapping [Demo.alice; Demo.bob]
         "2025-11-07T00:00:00.000Z" "2025-11-08T00:00:00.000Z" None Demo.start0)
  = Returned [quarterTo; sharedSlot]
  /\ fst (unionOn Demo.overlapping [Demo.bob; Demo.alice]
            "2025-11-07T00:00:00.000Z" "2025-11-08T00:00:00.000Z" None Demo.start0)
     = Returned [quarterToBobFirst; sharedSlotBobFirst]
  /\ (forall a, a ∈ [quarterTo; sharedSlot] ->
        exists b, b ∈ [quarterToBobFirst; sharedSlotBobFirst] /\ sameSlot a b)
  /\ Forall2 sameSlot [quarterTo; sharedSlot] [quarterToBobFirst; sharedSlotBobFirst].
Proof.
  destruct (getUnionSlots_roster_order Demo.isoOnly Demo.env
              (Demo.provider Demo.overlapping Demo.confirmed Demo.linked)
              Demo.collate Demo.inTurn [Demo.alice; Demo.bob] [Demo.bob; Demo.alice]
              "2025-11-07T00:00:00.000Z" "2025-11-08T00:00:00.000Z" None Demo.start0
              (perm_swap _ _ _))
    as (us1 & us2 & H1 & H2 & _ & Hall & Hpos).
  assert (us1 = [quarterTo; sharedSlot]) as ->.
  { assert (E : fst (unionOn Demo.overlapping [Demo.alice; Demo.bob]
                       "2025-11-07T00:00:00.000Z" "2025-11-08T00:00:00.000Z"
                       None Demo.start0) = Returned [quarterTo; sharedSlot])
      by (vm_compute; reflexivity).
    rewrite H1 in E. now injection E. }
  assert (us2 = [quarterToBobFirst; sharedSlotBobFirst]) as ->.
  { assert (E : fst (unionOn Demo.overlapping [Demo.bob; Demo.alice]
                       "2025-11-07T00:00:00.000Z" "2025-11-08T00:00:00.000Z"
                       None Demo.start0)
                = Returned [quarterToBobFirst; sharedSlotBobFirst])
      by (vm_compute; reflexivity).
    rewrite H2 in E. now injection E. }
  split; [exact H1 |]. split; [exact H2 |]. split; [exact Hall |].
  apply Hpos; [exact collate_consistent |].
  intros x y Hx Hy Hxy Hyx. cbn [map start_time] in Hx, Hy.
  repeat (apply elem_of_cons in Hx as [-> | Hx]; [| try now apply elem_of_nil in Hx]);
    repeat (apply elem_of_cons in Hy as [-> | Hy]; [| try now apply elem_of_nil in Hy]);
    try reflexivity; vm_compute in Hxy, Hyx; exfalso; auto.
Defined.

Local Abbreviation answering :=
  (Demo.provider Demo.exact Demo.confirmed Demo.linked).


(** X25 in the world the loop over alice, bob and carol leaves. *)
Lemma warm_cache_one_query_per_host_witness :
  sends (queryOfRoster Demo.env threeHosts) (length threeHosts) Demo.afterScan
    (snd (eligibleLoop Demo.isoOnly Demo.env answering Demo.ten Demo.tenThirty
            threeHosts [] Demo.afterScan))
  /\ cache (snd (eligibleLoop Demo.isoOnly Demo.env answering Demo.ten Demo.tenThirty
                   threeHosts [] Demo.afterScan))
     = cache Demo.afterScan
  /\ sends (queryOfRoster Demo.env threeHosts) (length threeHosts) Demo.afterScan
       (snd (unionOn Demo.exact threeHosts "2025-11-07T00:00:00.000Z"
               "2025-11-08T00:00:00.000Z" None Demo.afterScan)).
Proof.
  apply (warm_cache_one_query_per_host Demo.isoOnly Demo.env answering threeHosts
           Demo.collate Demo.inTurn).
  intros h Hh.
  repeat (apply elem_of_cons in Hh as [-> | Hh]);
    [eexists; reflexivity .. | now apply elem_of_nil in Hh].
Defined.
